(** * The coordination layer of the API: PerformanceService

    A shallow embedding of [apps/api/src/performance/performance.service.ts]:
    the cache, the rate limiter, the circuit breaker, the distributed lock,
    the job queue, the response-time metrics, the sweeps over the keys and
    the health report, all of them clients of one keyed store with per-key
    expiry.

    The store (Redis, reached through ioredis) is modelled as a finite map from
    keys to typed values with an optional expiry instant; every command of the
    client is one round trip, which a connection fault may turn into a rejected
    promise (the promise of a pipeline resolves, with the error in each of
    its entries).  [Date.now()] reads the clock of the world, [setTimeout]
    advances it; the store expires keys by the same clock.  Numbers are
    integers ([Z]): the service stores timestamps in milliseconds, counters
    and integer priorities.  The value of [Math.random()] is an argument of
    the method that draws it; optional arguments are passed by the caller,
    the TTL of the cache apart, which is an option.  The cache neither builds
    nor inspects the values that it stores: it is modelled over any values
    that the JSON functions of the runtime handle. *)

From Stdlib Require Import ZArith Ascii String List Lia.
From Stdlib Require Import DecimalString DecimalPos DecimalZ.
From stdpp Require Import base option list gmap strings.

Local Open Scope string_scope.
Local Open Scope list_scope.
Local Open Scope Z_scope.

#[local] Set Warnings "-register-all".

(** ** Numbers as text *)

Module JsText.

(** [n.toString()] and the conversion of a number argument by the client:
    the decimal digits, a minus sign in front of a negative number. *)
Definition toString (z : Z) : string :=
  NilZero.string_of_int (Z.to_int z).

Definition is_digit (c : ascii) : bool :=
  (48 <=? nat_of_ascii c)%nat && (nat_of_ascii c <=? 57)%nat.

Fixpoint all_digits (s : string) : bool :=
  match s with
  | EmptyString => true
  | String c s' => is_digit c && all_digits s'
  end.

(** White space that [parseInt] skips in front of the number. *)
Definition is_space (c : ascii) : bool :=
  let n := nat_of_ascii c in
  (n =? 32)%nat || ((9 <=? n)%nat && (n <=? 13)%nat).

Fixpoint skip_spaces (s : string) : string :=
  match s with
  | String c s' => if is_space c then skip_spaces s' else s
  | EmptyString => s
  end.

(** The longest prefix of digits, and what follows it. *)
Fixpoint span_digits (s : string) : string * string :=
  match s with
  | String c s' =>
      if is_digit c
      then let '(d, r) := span_digits s' in (String c d, r)
      else (EmptyString, s)
  | EmptyString => (EmptyString, EmptyString)
  end.

Definition digits_value (d : string) : option Z :=
  Z.of_int <$> NilZero.int_of_string d.

(** Hexadecimal digits, for the numbers that [parseInt] reads after the
    prefix 0x or 0X. *)
Definition hex_digit (c : ascii) : option Z :=
  let n := nat_of_ascii c in
  if is_digit c then Some (Z.of_nat n - 48)
  else if (97 <=? n)%nat && (n <=? 102)%nat then Some (Z.of_nat n - 87)
  else if (65 <=? n)%nat && (n <=? 70)%nat then Some (Z.of_nat n - 55)
  else None.

(** The value of the longest prefix of hexadecimal digits that follows the
    digits read so far ([acc], when there is one). *)
Fixpoint hex_prefix_value (acc : option Z) (s : string) : option Z :=
  match s with
  | String c s' =>
      match hex_digit c with
      | Some v => hex_prefix_value (Some (default 0 acc * 16 + v)) s'
      | None => acc
      end
  | EmptyString => acc
  end.

(** The number without its sign: hexadecimal after 0x or 0X, decimal
    otherwise; as many digits as there are. *)
Definition unsigned (s : string) : option Z :=
  match s with
  | String c (String x s') =>
      if Ascii.eqb c "0" && (Ascii.eqb x "x" || Ascii.eqb x "X")
      then hex_prefix_value None s'
      else digits_value (span_digits s).1
  | _ => digits_value (span_digits s).1
  end.

(** [parseInt(s)], without a radix: optional white space, an optional sign,
    then the number; [None] stands for [NaN] (no digit at all). *)
Definition parseInt (s : string) : option Z :=
  match skip_spaces s with
  | String "-" s' => Z.opp <$> unsigned s'
  | String "+" s' => unsigned s'
  | s' => unsigned s'
  end.

(** The store's own reading of an integer value ([INCR]): the whole string
    must be the canonical decimal form of a 64-bit signed integer. *)
Definition int64_min : Z := - 2 ^ 63.
Definition int64_max : Z := 2 ^ 63 - 1.

Definition string2ll (s : string) : option Z :=
  match digits_value s with
  | Some z =>
      if String.eqb (toString z) s && (int64_min <=? z) && (z <=? int64_max)
      then Some z else None
  | None => None
  end.

End JsText.

Import JsText.

(** ** JSON values and their text

    [JSON.stringify] and [JSON.parse] belong to the runtime, not to the
    service.  The job queue looks into its records (it reads [job.id],
    spreads the record, sets properties), so the records are modelled on
    concrete values: [null], booleans, integer numbers, strings (of bytes),
    arrays, and objects as association lists in insertion order; a number
    with a fraction, or an integer that a double does not hold, is none of
    these values.  [stringify] writes the compact form, as the runtime does.
    [parse] reads that form back (no white space between tokens, integers in
    canonical form, the escapes that [stringify] writes and [\u00XX]), which
    is what the queue reads in the records that the service wrote; it gives
    [None] for every other text: for a text that is no JSON, at which
    [JSON.parse] throws, and also for a JSON text in another form (white
    space between tokens, a fraction, an exponent), which the model does not
    follow. *)

Inductive json : Type :=
  | JNull
  | JBool (b : bool)
  | JNum (z : Z)
  | JStr (s : string)
  | JArr (l : list json)
  | JObj (o : list (string * json)).

Module JSON.

Definition chars := list ascii.

Definition dquote : ascii := ascii_of_nat 34.
Definition bslash : ascii := ascii_of_nat 92.

Definition hex_digit (n : nat) : ascii :=
  if (n <? 10)%nat then ascii_of_nat (48 + n) else ascii_of_nat (87 + n).

Definition hex_value (c : ascii) : option nat :=
  let n := nat_of_ascii c in
  if (48 <=? n)%nat && (n <=? 57)%nat then Some (n - 48)%nat
  else if (97 <=? n)%nat && (n <=? 102)%nat then Some (n - 87)%nat
  else if (65 <=? n)%nat && (n <=? 70)%nat then Some (n - 55)%nat
  else None.

(** One character inside a string literal. *)
Definition escape_char (c : ascii) : chars :=
  let n := nat_of_ascii c in
  if (n =? 34)%nat then [bslash; dquote]
  else if (n =? 92)%nat then [bslash; bslash]
  else if (n =? 8)%nat then [bslash; "b"%char]
  else if (n =? 9)%nat then [bslash; "t"%char]
  else if (n =? 10)%nat then [bslash; "n"%char]
  else if (n =? 12)%nat then [bslash; "f"%char]
  else if (n =? 13)%nat then [bslash; "r"%char]
  else if (n <? 32)%nat
       then [bslash; "u"%char; "0"%char; "0"%char;
             hex_digit (n / 16); hex_digit (n mod 16)]
  else [c].

Fixpoint escape (s : string) : chars :=
  match s with
  | EmptyString => []
  | String c s' => escape_char c ++ escape s'
  end.

Definition quote (s : string) : chars := dquote :: escape s ++ [dquote].

Definition print_num (z : Z) : chars := list_ascii_of_string (toString z).

Fixpoint print (v : json) : chars :=
  match v with
  | JNull => list_ascii_of_string "null"
  | JBool true => list_ascii_of_string "true"
  | JBool false => list_ascii_of_string "false"
  | JNum z => print_num z
  | JStr s => quote s
  | JArr l =>
      "["%char ::
      (fix elems (l : list json) : chars :=
         match l with
         | [] => ["]"%char]
         | [x] => print x ++ ["]"%char]
         | x :: l' => print x ++ ","%char :: elems l'
         end) l
  | JObj o =>
      "{"%char ::
      (fix members (o : list (string * json)) : chars :=
         match o with
         | [] => ["}"%char]
         | [(k, x)] => quote k ++ ":"%char :: print x ++ ["}"%char]
         | (k, x) :: o' => quote k ++ ":"%char :: print x ++ ","%char :: members o'
         end) o
  end.

(** The elements of an array after its opening bracket, the members of an
    object after its opening brace. *)
Definition print_elems : list json -> chars :=
  fix elems (l : list json) : chars :=
    match l with
    | [] => ["]"%char]
    | [x] => print x ++ ["]"%char]
    | x :: l' => print x ++ ","%char :: elems l'
    end.

Definition print_members : list (string * json) -> chars :=
  fix members (o : list (string * json)) : chars :=
    match o with
    | [] => ["}"%char]
    | [(k, x)] => quote k ++ ":"%char :: print x ++ ["}"%char]
    | (k, x) :: o' => quote k ++ ":"%char :: print x ++ ","%char :: members o'
    end.

Definition stringify (v : json) : string := string_of_list_ascii (print v).

(** What may follow a number: anything but a digit. *)
Definition no_digit (r : chars) : Prop :=
  match r with
  | c :: _ => is_digit c = false
  | [] => True
  end.

(** Reading back.  [strip p s] removes the prefix [p] of [s]. *)
Fixpoint strip (p s : chars) : option chars :=
  match p with
  | [] => Some s
  | c :: p' =>
      match s with
      | c' :: s' => if Ascii.eqb c c' then strip p' s' else None
      | [] => None
      end
  end.

(** The characters of a string literal after its opening quote, up to and
    including the closing quote. *)
Fixpoint parse_chars (s : chars) : option (string * chars) :=
  match s with
  | [] => None
  | c :: r =>
      if Ascii.eqb c dquote then Some (EmptyString, r)
      else if Ascii.eqb c bslash then
        match r with
        | e :: r' =>
            let cont (c' : ascii) (rest : option (string * chars)) :=
              match rest with
              | Some (t, r'') => Some (String c' t, r'')
              | None => None
              end in
            if Ascii.eqb e dquote then cont dquote (parse_chars r')
            else if Ascii.eqb e bslash then cont bslash (parse_chars r')
            else if Ascii.eqb e "/" then cont "/"%char (parse_chars r')
            else if Ascii.eqb e "b" then cont (ascii_of_nat 8) (parse_chars r')
            else if Ascii.eqb e "t" then cont (ascii_of_nat 9) (parse_chars r')
            else if Ascii.eqb e "n" then cont (ascii_of_nat 10) (parse_chars r')
            else if Ascii.eqb e "f" then cont (ascii_of_nat 12) (parse_chars r')
            else if Ascii.eqb e "r" then cont (ascii_of_nat 13) (parse_chars r')
            else if Ascii.eqb e "u" then
              match r' with
              | h1 :: h2 :: h3 :: h4 :: r'' =>
                  match hex_value h1, hex_value h2, hex_value h3, hex_value h4 with
                  | Some 0%nat, Some 0%nat, Some a, Some b =>
                      cont (ascii_of_nat (16 * a + b)) (parse_chars r'')
                  | _, _, _, _ => None
                  end
              | _ => None
              end
            else None
        | [] => None
        end
      else if (nat_of_ascii c <? 32)%nat then None
      else
        match parse_chars r with
        | Some (t, r') => Some (String c t, r')
        | None => None
        end
  end.

Fixpoint span_digits (s : chars) : chars * chars :=
  match s with
  | c :: s' =>
      if is_digit c
      then let '(d, r) := span_digits s' in (c :: d, r)
      else ([], s)
  | [] => ([], [])
  end.

(** An integer literal: an optional minus sign and digits, in canonical
    form (no superfluous leading zero, no negative zero). *)
Definition parse_number (s : chars) : option (Z * chars) :=
  let '(sign, body) :=
    match s with
    | c :: r => if Ascii.eqb c "-" then ([c], r) else ([], s)
    | [] => ([], s)
    end in
  let '(d, r) := span_digits body in
  let text := string_of_list_ascii (sign ++ d) in
  match digits_value text with
  | Some z => if String.eqb (toString z) text then Some (z, r) else None
  | None => None
  end.

Fixpoint parse_value (fuel : nat) (s : chars) {struct fuel} : option (json * chars) :=
  match fuel with
  | O => None
  | S fuel' =>
      match s with
      | [] => None
      | c :: r =>
          if Ascii.eqb c "n" then
            match strip (list_ascii_of_string "ull") r with
            | Some r' => Some (JNull, r') | None => None end
          else if Ascii.eqb c "t" then
            match strip (list_ascii_of_string "rue") r with
            | Some r' => Some (JBool true, r') | None => None end
          else if Ascii.eqb c "f" then
            match strip (list_ascii_of_string "alse") r with
            | Some r' => Some (JBool false, r') | None => None end
          else if Ascii.eqb c dquote then
            match parse_chars r with
            | Some (t, r') => Some (JStr t, r') | None => None end
          else if Ascii.eqb c "[" then
            match r with
            | c' :: r' =>
                if Ascii.eqb c' "]" then Some (JArr [], r')
                else match parse_elems fuel' r with
                     | Some (l, r'') => Some (JArr l, r'') | None => None end
            | [] => None
            end
          else if Ascii.eqb c "{" then
            match r with
            | c' :: r' =>
                if Ascii.eqb c' "}" then Some (JObj [], r')
                else match parse_members fuel' r with
                     | Some (o, r'') => Some (JObj o, r'') | None => None end
            | [] => None
            end
          else
            match parse_number s with
            | Some (z, r') => Some (JNum z, r') | None => None end
      end
  end
with parse_elems (fuel : nat) (s : chars) {struct fuel} : option (list json * chars) :=
  match fuel with
  | O => None
  | S fuel' =>
      match parse_value fuel' s with
      | Some (x, c :: r) =>
          if Ascii.eqb c "," then
            match parse_elems fuel' r with
            | Some (l, r') => Some (x :: l, r') | None => None end
          else if Ascii.eqb c "]" then Some ([x], r)
          else None
      | _ => None
      end
  end
with parse_members (fuel : nat) (s : chars) {struct fuel}
  : option (list (string * json) * chars) :=
  match fuel with
  | O => None
  | S fuel' =>
      match s with
      | q :: s1 =>
          if Ascii.eqb q dquote then
            match parse_chars s1 with
            | Some (k, c1 :: s2) =>
                if Ascii.eqb c1 ":" then
                  match parse_value fuel' s2 with
                  | Some (x, c :: r) =>
                      if Ascii.eqb c "," then
                        match parse_members fuel' r with
                        | Some (o, r') => Some ((k, x) :: o, r') | None => None end
                      else if Ascii.eqb c "}" then Some ([(k, x)], r)
                      else None
                  | _ => None
                  end
                else None
            | _ => None
            end
          else None
      | [] => None
      end
  end.

(** [JSON.parse]: the whole text must be one value. *)
Definition parse (s : string) : option json :=
  let cs := list_ascii_of_string s in
  match parse_value (S (length cs)) cs with
  | Some (v, []) => Some v
  | _ => None
  end.

(** The first character of a value closes neither an array nor an object. *)
Definition opens (s : chars) : Prop :=
  exists c t, s = c :: t /\ Ascii.eqb c "]" = false /\ Ascii.eqb c "}" = false.

(** The text of [v] is read back as [v], with enough fuel, whatever
    follows it (a digit after a number apart). *)
Definition reads (v : json) : Prop :=
  forall fuel r, (length (print v) < fuel)%nat -> no_digit r ->
    parse_value fuel (print v ++ r) = Some (v, r).

End JSON.

(** ** Objects: property access and the spread [{...o, k: v}] *)

Fixpoint obj_get (k : string) (o : list (string * json)) : option json :=
  match o with
  | [] => None
  | (k', v) :: o' => if String.eqb k k' then Some v else obj_get k o'
  end.

(** Writing a property keeps its place when it exists, appends it otherwise. *)
Fixpoint obj_set (k : string) (v : json) (o : list (string * json))
  : list (string * json) :=
  match o with
  | [] => [(k, v)]
  | (k', v') :: o' =>
      if String.eqb k k' then (k, v) :: o' else (k', v') :: obj_set k v o'
  end.

Fixpoint obj_del (k : string) (o : list (string * json)) : list (string * json) :=
  match o with
  | [] => []
  | (k', v') :: o' =>
      if String.eqb k k' then obj_del k o' else (k', v') :: obj_del k o'
  end.

(** A property set to [undefined] disappears when the object is written
    as text. *)
Definition obj_set_opt (k : string) (v : option json) (o : list (string * json)) :=
  match v with
  | Some x => obj_set k x o
  | None => obj_del k o
  end.

(** The own enumerable properties that a spread copies: those of an object;
    the indices of an array or of a string; none for the other values. *)
Fixpoint indexed {A} (f : A -> json) (i : Z) (l : list A) : list (string * json) :=
  match l with
  | [] => []
  | x :: l' => (toString i, f x) :: indexed f (i + 1) l'
  end.

Definition spread (v : json) : list (string * json) :=
  match v with
  | JObj o => o
  | JArr l => indexed (fun x => x) 0 l
  | JStr s => indexed (fun c => JStr (String c EmptyString)) 0 (list_ascii_of_string s)
  | _ => []
  end.

(** ** The keyed store

    One key space; a key holds a string, a sorted set (members with scores)
    or a hash, and possibly an instant (in milliseconds) at which it expires.
    An expired key is absent for every command. *)

Module Store.

Inductive rval : Type :=
  | RString (s : string)
  | RZSet (z : gmap string Z)
  | RHash (h : gmap string string).

Record entry : Type := Entry { e_val : rval; e_exp : option Z }.

Inductive error : Type :=
  | ConnectionError      (* the store cannot be reached *)
  | WrongType            (* the key holds a value of another kind *)
  | NotAnInteger         (* INCR on a value that is no 64-bit integer *)
  | InvalidArgument      (* an expiry that is not positive, a bound that is NaN *)
  | SyntaxError          (* JSON.parse *)
  | TypeError            (* a property of null *)
  | Unmodelled.          (* an argument shape the model does not follow *)

Inductive result (A : Type) : Type :=
  | Ok (a : A)
  | Err (e : error).
Arguments Ok {A} a.
Arguments Err {A} e.

(** A command executes at an instant on the key space. *)
Definition cmd (A : Type) : Type := Z -> gmap string entry -> result A * gmap string entry.

Definition expired (now : Z) (e : entry) : bool :=
  match e_exp e with
  | Some t => t <=? now
  | None => false
  end.

Definition live (now : Z) (s : gmap string entry) (k : string) : option entry :=
  match s !! k with
  | Some e => if expired now e then None else Some e
  | None => None
  end.

(** GET *)
Definition get (k : string) : cmd (option string) := fun now s =>
  match live now s k with
  | None => (Ok None, s)
  | Some (Entry (RString v) _) => (Ok (Some v), s)
  | Some _ => (Err WrongType, s)
  end.

(** SET key value: any former value and expiry are replaced. *)
Definition set (k v : string) : cmd unit := fun now s =>
  (Ok tt, <[k := Entry (RString v) None]> s).

(** SETEX key seconds value *)
Definition setex (k : string) (seconds : Z) (v : string) : cmd unit := fun now s =>
  if seconds <=? 0 then (Err InvalidArgument, s)
  else (Ok tt, <[k := Entry (RString v) (Some (now + seconds * 1000))]> s).

(** SET key value NX PX millis: [true] stands for the reply OK, [false] for
    the null reply given when the key exists. *)
Definition set_nx_px (k v : string) (millis : Z) : cmd bool := fun now s =>
  if millis <=? 0 then (Err InvalidArgument, s)
  else match live now s k with
       | Some _ => (Ok false, s)
       | None => (Ok true, <[k := Entry (RString v) (Some (now + millis))]> s)
       end.

(** DEL key: the number of keys removed. *)
Definition del (k : string) : cmd Z := fun now s =>
  match live now s k with
  | Some _ => (Ok 1, delete k s)
  | None => (Ok 0, delete k s)
  end.

(** INCR key *)
Definition incr (k : string) : cmd Z := fun now s =>
  match live now s k with
  | None => (Ok 1, <[k := Entry (RString (toString 1)) None]> s)
  | Some (Entry (RString v) exp) =>
      match string2ll v with
      | Some n =>
          if n <? int64_max
          then (Ok (n + 1), <[k := Entry (RString (toString (n + 1))) exp]> s)
          else (Err NotAnInteger, s)
      | None => (Err NotAnInteger, s)
      end
  | Some _ => (Err WrongType, s)
  end.

(** EXPIRE key seconds: a delay that is not positive removes the key. *)
Definition expire (k : string) (seconds : Z) : cmd Z := fun now s =>
  match live now s k with
  | None => (Ok 0, s)
  | Some (Entry v _) =>
      if seconds <=? 0 then (Ok 1, delete k s)
      else (Ok 1, <[k := Entry v (Some (now + seconds * 1000))]> s)
  end.

(** Writing back a sorted set: the store drops a key whose set is empty. *)
Definition put_zset (k : string) (z : gmap string Z) (exp : option Z)
    (s : gmap string entry) : gmap string entry :=
  if decide (z = ∅) then delete k s else <[k := Entry (RZSet z) exp]> s.

(** ZADD key score member: the number of members that are new. *)
Definition zadd (k : string) (score : Z) (member : string) : cmd Z := fun now s =>
  match live now s k with
  | None => (Ok 1, <[k := Entry (RZSet {[member := score]}) None]> s)
  | Some (Entry (RZSet z) exp) =>
      (Ok (match z !! member with Some _ => 0 | None => 1 end), <[k := Entry (RZSet (<[member := score]> z)) exp]> s)
  | Some _ => (Err WrongType, s)
  end.

(** ZREMRANGEBYSCORE key min max; a bound that is NaN ([None]) is refused. *)
Definition zremrangebyscore (k : string) (lo hi : option Z) : cmd Z := fun now s =>
  match lo, hi with
  | Some lo, Some hi =>
      match live now s k with
      | None => (Ok 0, s)
      | Some (Entry (RZSet z) exp) =>
          let keep := filter (fun p => negb ((lo <=? p.2) && (p.2 <=? hi))) z in
          (Ok (Z.of_nat (size z - size keep)), put_zset k keep exp s)
      | Some _ => (Err WrongType, s)
      end
  | _, _ => (Err InvalidArgument, s)
  end.

(** ZCOUNT key min +inf *)
Definition zcount_from (k : string) (lo : option Z) : cmd Z := fun now s =>
  match lo with
  | Some lo =>
      match live now s k with
      | None => (Ok 0, s)
      | Some (Entry (RZSet z) _) =>
          (Ok (Z.of_nat (size (filter (fun p => lo <=? p.2) z))), s)
      | Some _ => (Err WrongType, s)
      end
  | None => (Err InvalidArgument, s)
  end.

(** The least member: by score, then by the text of the member. *)
Definition zless (a b : string * Z) : bool :=
  (a.2 <? b.2) || ((a.2 =? b.2) && String.ltb a.1 b.1).

Definition zmin (z : gmap string Z) : option (string * Z) :=
  foldr (fun x acc =>
           match acc with
           | None => Some x
           | Some y => if zless x y then Some x else Some y
           end) None (map_to_list z).

(** ZPOPMIN key: the least member with its score, removed from the set. *)
Definition zpopmin (k : string) : cmd (option (string * Z)) := fun now s =>
  match live now s k with
  | None => (Ok None, s)
  | Some (Entry (RZSet z) exp) =>
      match zmin z with
      | Some (m, sc) => (Ok (Some (m, sc)), put_zset k (delete m z) exp s)
      | None => (Ok None, s)
      end
  | Some _ => (Err WrongType, s)
  end.

(** HSET key field value *)
Definition hset (k f v : string) : cmd Z := fun now s =>
  match live now s k with
  | None => (Ok 1, <[k := Entry (RHash {[f := v]}) None]> s)
  | Some (Entry (RHash h) exp) =>
      (Ok (match h !! f with Some _ => 0 | None => 1 end), <[k := Entry (RHash (<[f := v]> h)) exp]> s)
  | Some _ => (Err WrongType, s)
  end.

(** HGET key field *)
Definition hget (k f : string) : cmd (option string) := fun now s =>
  match live now s k with
  | None => (Ok None, s)
  | Some (Entry (RHash h) _) => (Ok (h !! f), s)
  | Some _ => (Err WrongType, s)
  end.

(** EVAL of the release script with KEYS[1] = k and ARGV[1] = v:
      if redis.call('get', KEYS[1]) == ARGV[1]
      then return redis.call('del', KEYS[1]) else return 0 end
    The store runs a script as one command. *)
Definition eval_release (k v : string) : cmd Z := fun now s =>
  match get k now s with
  | (Ok (Some cur), _) => if String.eqb cur v then del k now s else (Ok 0, s)
  | (Ok None, _) => (Ok 0, s)
  | (Err e, _) => (Err e, s)
  end.

End Store.

Import Store.

(** ** The world of a service call

    The key space, the clock that [Date.now()] reads (milliseconds), and the
    connection faults still to come: each round trip to the store takes the
    head of [faults]; [true] means that this round trip fails: the awaited
    promise of a command is rejected, the entries of a pipeline hold the
    error. *)

Record world : Type := World {
  kv : gmap string entry;
  clock : Z;
  faults : list bool
}.

(** An asynchronous method: it ends with a value or with a thrown error. *)
Definition M (A : Type) : Type := world -> result A * world.

Definition ret {A} (a : A) : M A := fun w => (Ok a, w).

Definition throw {A} (e : error) : M A := fun w => (Err e, w).

Definition bind {A B} (m : M A) (f : A -> M B) : M B := fun w =>
  match m w with
  | (Ok a, w') => f a w'
  | (Err e, w') => (Err e, w')
  end.

(** try { m } catch (e) { h e } *)
Definition try_catch {A} (m : M A) (h : error -> M A) : M A := fun w =>
  match m w with
  | (Ok a, w') => (Ok a, w')
  | (Err e, w') => h e w'
  end.

Notation "'let*' x := m 'in' f" := (bind m (fun x => f))
  (at level 10, x name, m at level 100, f at level 200, only parsing).

(** Date.now() *)
Definition date_now : M Z := fun w => (Ok (clock w), w).

(** await new Promise(resolve => setTimeout(resolve, ms)) *)
Definition sleep (ms : Z) : M unit := fun w =>
  (Ok tt, World (kv w) (clock w + Z.max 0 ms) (faults w)).

(** One awaited command of the client. *)
Definition call {A} (c : cmd A) : M A := fun w =>
  match faults w with
  | true :: fs => (Err ConnectionError, World (kv w) (clock w) fs)
  | _ =>
      let '(r, s) := c (clock w) (kv w) in
      (r, World s (clock w) (tail (faults w)))
  end.

(** Promise.all([a, b]) of two commands: both are sent; the result is
    rejected when one of them is. *)
Definition call_both {A B} (a : cmd A) (b : cmd B) : M (A * B) := fun w =>
  let '(ra, w1) := call a w in
  let '(rb, w2) := call b w1 in
  match ra, rb with
  | Ok x, Ok y => (Ok (x, y), w2)
  | Err e, _ => (Err e, w2)
  | _, Err e => (Err e, w2)
  end.

(** pipeline.exec(): the queued commands travel in one round trip and run in
    order; the promise resolves with, for each command, its error or its
    result.  It resolves in this way when the connection fails too: every
    command is then rejected on its own and its entry holds the error, the
    promise of [exec] itself is not rejected. *)
Fixpoint run_batch (cs : list (cmd Z)) (now : Z) (s : gmap string entry)
  : list (result Z) * gmap string entry :=
  match cs with
  | [] => ([], s)
  | c :: cs' =>
      let '(r, s1) := c now s in
      let '(rs, s2) := run_batch cs' now s1 in
      (r :: rs, s2)
  end.

Definition exec (cs : list (cmd Z)) : M (list (result Z)) := fun w =>
  match faults w with
  | true :: fs =>
      (Ok (map (fun _ => Err ConnectionError) cs), World (kv w) (clock w) fs)
  | _ =>
      let '(rs, s') := run_batch cs (clock w) (kv w) in
      (Ok rs, World s' (clock w) (tail (faults w)))
  end.

(** A string used as a condition: null and the empty string are falsy. *)
Definition truthy (o : option string) : bool :=
  match o with
  | Some s => negb (String.eqb s "")
  | None => false
  end.

(** ** The JSON of the runtime, as the cache sees it

    The cache hands the value it is given to [JSON.stringify] and the text
    that the store returns to [JSON.parse], and looks into neither.  It is
    modelled over any type of values with these two functions: the values are
    those that [JSON.stringify] turns into a text, [None] stands for the
    [SyntaxError] that [JSON.parse] throws.  The empty text is no JSON text.
    The values of the model above, with their printer and parser, are one
    such runtime. *)

Class Runtime (V : Type) : Type := {
  js_null : V;
  js_stringify : V -> string;
  js_parse : string -> option V;
  js_parse_empty : js_parse "" = None
}.

#[export] Instance json_runtime : Runtime json := {|
  js_null := JNull;
  js_stringify := JSON.stringify;
  js_parse := JSON.parse;
  js_parse_empty := eq_refl
|}.

(** ** The service *)

Module PerformanceService.

Definition cacheTTL : Z := 3600.

(** *** Caching *)

Section Cache.
Context {V : Type} `{Runtime V}.

Definition getCachedData (key : string) : M V :=
  try_catch
    (let* data := call (get key) in
     match data with
     | Some d =>
         if truthy data
         then match js_parse d with
              | Some v => ret v
              | None => throw SyntaxError
              end
         else ret js_null
     | None => ret js_null
     end)
    (fun _ => ret js_null).

Definition setCachedData (key : string) (data : V) (ttl : option Z) : M unit :=
  let ttl := default cacheTTL ttl in
  try_catch
    (call (setex key ttl (js_stringify data)))
    (fun _ => ret tt).

End Cache.

Definition invalidateCache (key : string) : M unit :=
  try_catch
    (let* _ := call (del key) in ret tt)
    (fun _ => ret tt).

(** *** Rate limiting *)

(** A JavaScript number that may be [NaN] ([None]). *)
Definition number : Type := option Z.

Record rate_limit : Type := RateLimit {
  allowed : bool;
  remaining : number;
  resetTime : number
}.

Definition rate_key (identifier action : string) : string :=
  "ratelimit:" +:+ action +:+ ":" +:+ identifier.

(** Math.floor(now / 1000 / windowSeconds) * windowSeconds; a division by
    zero ends in NaN. *)
Definition window_start (now windowSeconds : Z) : number :=
  if windowSeconds =? 0 then None
  else Some (now / (1000 * windowSeconds) * windowSeconds).

Definition checkRateLimit (identifier action : string) (limit windowSeconds : Z)
  : M rate_limit :=
  let key := rate_key identifier action in
  let* now := date_now in
  let windowStart := window_start now windowSeconds in
  try_catch
    (let* results := exec [
        zremrangebyscore key (Some 0) ((fun ws => ws - windowSeconds) <$> windowStart);
        zadd key now (toString now);
        zcount_from key windowStart;
        expire key (windowSeconds * 2) ] in
     let requestCount : number :=
       match results !! 2%nat with
       | Some (Ok n) => Some n
       | _ => None
       end in
     let allowed :=
       match requestCount with
       | Some n => n <=? limit
       | None => false
       end in
     let remaining := (fun n => Z.max 0 (limit - n)) <$> requestCount in
     let resetTime := (fun ws => (ws + windowSeconds) * 1000) <$> windowStart in
     ret (RateLimit allowed remaining resetTime))
    (fun _ => ret (RateLimit true (Some limit) (Some 0))).

(** *** Circuit breaker *)

Definition failure_key (serviceName : string) : string :=
  "circuit:" +:+ serviceName +:+ ":failures".
Definition state_key (serviceName : string) : string :=
  "circuit:" +:+ serviceName +:+ ":state".
Definition last_failure_key (serviceName : string) : string :=
  "circuit:" +:+ serviceName +:+ ":last_failure".

Definition checkCircuitBreaker (serviceName : string)
    (failureThreshold recoveryTimeout : Z) : M bool :=
  let failureKey := failure_key serviceName in
  let stateKey := state_key serviceName in
  try_catch
    (let* both := call_both (get failureKey) (get stateKey) in
     let '(failureCount, state) := both in
     let failures :=
       parseInt (if truthy failureCount then default "0" failureCount else "0") in
     if decide (state = Some "open") then
       let* lastFailureTime := call (get (last_failure_key serviceName)) in
       let* now := date_now in
       if truthy lastFailureTime
          && match parseInt (default "" lastFailureTime) with
             | Some t => recoveryTimeout <? now - t
             | None => false
             end
       then let* _ := call (set stateKey "half-open") in ret true
       else ret false
     else if decide (state = Some "half-open") then
       let* _ := call (set stateKey "closed") in
       let* _ := call (del failureKey) in
       ret true
     else ret true)
    (fun _ => ret true).

Definition recordCircuitBreakerFailure (serviceName : string) : M unit :=
  let failureKey := failure_key serviceName in
  let stateKey := state_key serviceName in
  try_catch
    (let* failures := call (incr failureKey) in
     let* now := date_now in
     let* _ := call (set (last_failure_key serviceName) (toString now)) in
     if 5 <=? failures
     then call (set stateKey "open")
     else ret tt)
    (fun _ => ret tt).

(** *** Distributed locking *)

(** The body of the retry loop, from iteration [i] on, for at most [n] more
    iterations. *)
Fixpoint acquire_loop (key lockId : string) (ttl retryCount retryDelay : Z)
    (n : nat) (i : Z) : M (option string) :=
  match n with
  | O => ret None
  | S n' =>
      let* ok := try_catch (call (set_nx_px key lockId ttl)) (fun _ => ret false) in
      if ok then ret (Some lockId)
      else
        let* _ := (if i <? retryCount - 1 then sleep retryDelay else ret tt) in
        acquire_loop key lockId ttl retryCount retryDelay n' (i + 1)
  end.

(** [rnd] is the text of the number that [Math.random()] yields in this
    call. *)
Definition lock_id (now : Z) (rnd : string) : string :=
  toString now +:+ "-" +:+ rnd.

Definition acquireLock (key : string) (ttl retryCount retryDelay : Z) (rnd : string)
  : M (option string) :=
  let* now := date_now in
  let lockId := lock_id now rnd in
  acquire_loop key lockId ttl retryCount retryDelay (Z.to_nat retryCount) 0.

Definition releaseLock (key lockId : string) : M bool :=
  try_catch
    (let* r := call (eval_release key lockId) in
     ret (r =? 1))
    (fun _ => ret false).

(** *** The job queue *)

Definition queue_key (queueName : string) : string := queueName +:+ ":queue".
Definition jobs_key (queueName : string) : string := queueName +:+ ":jobs".

Definition job_id (now : Z) (rnd : string) : string :=
  "job:" +:+ toString now +:+ ":" +:+ rnd.

Definition new_job (jobId : string) (jobData : json) (priority createdAt : Z) : json :=
  JObj [("id", JStr jobId); ("data", jobData); ("priority", JNum priority);
        ("createdAt", JNum createdAt); ("status", JStr "queued")].

Definition enqueueJob (queueName : string) (jobData : json) (priority : Z)
    (rnd : string) : M string :=
  try_catch
    (let* now := date_now in
     let jobId := job_id now rnd in
     let* createdAt := date_now in
     let job := new_job jobId jobData priority createdAt in
     let* _ := call (zadd (queue_key queueName) priority (JSON.stringify job)) in
     let* _ := call (hset (jobs_key queueName) jobId (JSON.stringify job)) in
     ret jobId)
    (fun e => throw e).

(** [job.id] as the field of the hash: the text of a string; reading a
    property of null throws; the model follows no other shape. *)
Definition id_field (job : json) : M string :=
  match job with
  | JNull => throw TypeError
  | JObj o =>
      match obj_get "id" o with
      | Some (JStr s) => ret s
      | _ => throw Unmodelled
      end
  | _ => throw Unmodelled
  end.

(** The answer is the job, or [JNull] for JavaScript's null. *)
Definition dequeueJob (queueName : string) : M json :=
  try_catch
    (let* result := call (zpopmin (queue_key queueName)) in
     match result with
     | None => ret JNull
     | Some (member, _) =>
         match JSON.parse member with
         | None => throw SyntaxError
         | Some job =>
             let* id := id_field job in
             let* now := date_now in
             let* _ := call (hset (jobs_key queueName) id
                        (JSON.stringify
                           (JObj (obj_set "startedAt" (JNum now)
                                    (obj_set "status" (JStr "processing") (spread job))))))
             in
             ret job
         end
     end)
    (fun e => match e with Unmodelled => throw Unmodelled | _ => ret JNull end).

Definition completeJob (queueName jobId : string) (result : option json) : M unit :=
  try_catch
    (let* jobStr := call (hget (jobs_key queueName) jobId) in
     if truthy jobStr then
       match JSON.parse (default "" jobStr) with
       | None => throw SyntaxError
       | Some job =>
           let* now := date_now in
           let completedJob :=
             obj_set_opt "result" result
               (obj_set "completedAt" (JNum now)
                  (obj_set "status" (JStr "completed") (spread job))) in
           let* _ := call (hset (jobs_key queueName) jobId (JSON.stringify (JObj completedJob))) in
           ret tt
       end
     else ret tt)
    (fun _ => ret tt).

Definition failJob (queueName jobId : string) (error : string) : M unit :=
  try_catch
    (let* jobStr := call (hget (jobs_key queueName) jobId) in
     if truthy jobStr then
       match JSON.parse (default "" jobStr) with
       | None => throw SyntaxError
       | Some job =>
           let* now := date_now in
           let failedJob :=
             obj_set "error" (JStr error)
               (obj_set "failedAt" (JNum now)
                  (obj_set "status" (JStr "failed") (spread job))) in
           let* _ := call (hset (jobs_key queueName) jobId (JSON.stringify (JObj failedJob))) in
           ret tt
       end
     else ret tt)
    (fun _ => ret tt).

End PerformanceService.

Import PerformanceService.

(** ** Values that survive the serialization

    A value is JSON-serializable when the text that [JSON.stringify] gives
    for it reads back, with [JSON.parse], as the value. *)
Definition serializable {V : Type} `{Runtime V} (v : V) : Prop :=
  js_parse (js_stringify v) = Some v.

(** ** Time passing between calls *)

Definition elapse (ms : Z) (w : world) : world :=
  World (kv w) (clock w + ms) (faults w).

(** What a reader of key [k] finds at the clock of the world. *)
Definition stored (w : world) (k : string) : option entry :=
  live (clock w) (kv w) k.

(** The token that holds the lock [k], when there is one. *)
Definition holder (w : world) (k : string) : option string :=
  match stored w k with
  | Some (Entry (RString v) _) => Some v
  | _ => None
  end.

(** The next round trip fails. *)
Definition unreachable (w : world) : Prop := head (faults w) = Some true.

(** Two key spaces that hold the same at every key but [k]. *)
Definition agree_except (k : string) (s1 s2 : gmap string entry) : Prop :=
  forall k', k' <> k -> s1 !! k' = s2 !! k'.

(** The key holds nothing or a string: what a counter written by INCR, or
    never written, looks like. *)
Definition counter_at (k : string) (s : gmap string entry) : Prop :=
  match s !! k with
  | None => True
  | Some (Entry (RString _) _) => True
  | Some _ => False
  end.

(** Two runs side by side, on worlds that may differ at the key [fk] only.
    [touched] tells whether the runs have deleted [fk] (in both worlds) or
    left it as it was in the initial key spaces [s1] and [s2]. *)
Module Blind.
Section Relation.
Variable fk : string.
Variables s1 s2 : gmap string entry.

Definition Rel (touched : bool) (w1 w2 : world) : Prop :=
  clock w1 = clock w2
  /\ faults w1 = faults w2
  /\ agree_except fk (kv w1) (kv w2)
  /\ counter_at fk (kv w1) /\ counter_at fk (kv w2)
  /\ (if touched
      then kv w1 !! fk = None /\ kv w2 !! fk = None
      else kv w1 !! fk = s1 !! fk /\ kv w2 !! fk = s2 !! fk).

Definition res_rel {A} (RA : A -> A -> Prop) (r1 r2 : result A) : Prop :=
  match r1, r2 with
  | Ok a, Ok b => RA a b
  | Err e1, Err e2 => e1 = e2
  | _, _ => False
  end.

Definition related {A} (RA : A -> A -> Prop) (m1 m2 : M A) : Prop :=
  forall d w1 w2, Rel d w1 w2 ->
    res_rel RA (m1 w1).1 (m2 w2).1 /\ exists d', Rel d' (m1 w1).2 (m2 w2).2.
End Relation.
End Blind.

(** ** Sequences of calls *)

(** The world after a call, whatever it returned. *)
Definition after {A} (m : M A) (w : world) : world := (m w).2.

(** [n] calls in a row. *)
Definition times {A} (n : nat) (m : M A) (w : world) : world :=
  Nat.iter n (after m) w.

(** Calls of [checkRateLimit], the clock moving by [d] milliseconds before
    each of them: the answers in order, and the final world. *)
Fixpoint rate_checks (identifier action : string) (limit windowSeconds : Z)
    (delays : list Z) (w : world) : list (result rate_limit) * world :=
  match delays with
  | [] => ([], w)
  | d :: ds =>
      let '(r, w1) := checkRateLimit identifier action limit windowSeconds (elapse d w) in
      let '(rs, w2) := rate_checks identifier action limit windowSeconds ds w1 in
      (r :: rs, w2)
  end.

(** ** Callers contending for a lock

    A caller of [acquireLock] is, between two round trips, its token, the
    lease it asks for, the attempts it has left and whether it has the lock.
    [attempt] is one iteration of the retry loop: the command that the loop
    sends, with its catch.  A schedule tells which of two callers moves next,
    and after how many milliseconds. *)

Module Contention.

Record caller : Type := Caller {
  token : string;
  lease : Z;
  attempts_left : nat;
  acquired : bool
}.

Definition attempt (key : string) (c : caller) (w : world) : caller * world :=
  if acquired c then (c, w)
  else
    match attempts_left c with
    | O => (c, w)
    | S n =>
        match try_catch (call (set_nx_px key (token c) (lease c)))
                        (fun _ => ret false) w with
        | (Ok ok, w') => (Caller (token c) (lease c) n ok, w')
        | (Err _, w') => (Caller (token c) (lease c) n false, w')
        end
    end.

Fixpoint contend (key : string) (schedule : list (bool * Z)) (a b : caller)
    (w : world) : caller * caller * world :=
  match schedule with
  | [] => (a, b, w)
  | (second, d) :: rest =>
      if second
      then let '(b', w') := attempt key b (elapse d w) in contend key rest a b' w'
      else let '(a', w') := attempt key a (elapse d w) in contend key rest a' b w'
  end.

(** The time that a schedule spans, and schedules in which time does not run
    backwards. *)
Definition span (schedule : list (bool * Z)) : Z :=
  foldr (fun e acc => e.2 + acc) 0 schedule.

Definition forward (schedule : list (bool * Z)) : Prop :=
  Forall (fun e : bool * Z => 0 <= e.2) schedule.

(** The key is held from the clock of the world on, for [ms] milliseconds at
    least. *)
Definition held_for (key : string) (ms : Z) (w : world) : Prop :=
  exists e, kv w !! key = Some e
            /\ match e_exp e with
               | Some t => clock w + ms < t
               | None => True
               end.

(** The key holds the token [tok], for [ms] milliseconds at least. *)
Definition held_by (key tok : string) (ms : Z) (w : world) : Prop :=
  exists exp, kv w !! key = Some (Entry (RString tok) exp)
              /\ match exp with
                 | Some t => clock w + ms < t
                 | None => True
                 end.

(** The caller that a call of [acquireLock] at the instant [now] is, and the
    schedule of its attempts when it is left alone: the first at once, the
    next ones [retryDelay] milliseconds apart. *)
Definition caller_of (now : Z) (rnd : string) (ttl retryCount : Z) : caller :=
  Caller (lock_id now rnd) ttl (Z.to_nat retryCount) false.

Definition alone (retryCount retryDelay : Z) : list (bool * Z) :=
  match Z.to_nat retryCount with
  | O => []
  | S n => (false, 0) :: repeat (false, Z.max 0 retryDelay) n
  end.

End Contention.

(** What holds between two contenders while the schedule has [ms]
    milliseconds to go: they do not both have the lock, and when one has it
    the key stays held until the schedule ends. *)
Definition exclusive (key : string) (ms : Z) (a b : Contention.caller) (w : world) : Prop :=
  Contention.acquired a && Contention.acquired b = false
  /\ (Contention.acquired a = true ->
      Contention.held_by key (Contention.token a) ms w)
  /\ (Contention.acquired b = true ->
      Contention.held_by key (Contention.token b) ms w).

(** ** Histories of a job queue *)

Module Queue.

(** The ordered index and the hash of records of a queue, as the key space
    holds them. *)
Definition index (q : string) (s : gmap string entry) : gmap string Z :=
  match s !! queue_key q with
  | Some (Entry (RZSet z) _) => z
  | _ => ∅
  end.

Definition records (q : string) (s : gmap string entry) : gmap string string :=
  match s !! jobs_key q with
  | Some (Entry (RHash h) _) => h
  | _ => ∅
  end.

(** The record of a job, read back as an object. *)
Definition record (q jobId : string) (s : gmap string entry) : option json :=
  match records q s !! jobId with
  | Some text => JSON.parse text
  | None => None
  end.

Definition prop (k : string) (v : option json) : option json :=
  match v with
  | Some (JObj o) => obj_get k o
  | _ => None
  end.

(** The two keys of a queue as the service leaves them: nothing, or a sorted
    set whose members are jobs as [enqueueJob] writes them, and nothing or a
    hash; neither with an expiry. *)
Definition is_job (member : string) : Prop :=
  exists jobId data priority createdAt,
    member = JSON.stringify (new_job jobId data priority createdAt).

Definition inv (q : string) (s : gmap string entry) : Prop :=
  match s !! queue_key q with
  | None => True
  | Some (Entry (RZSet z) None) => forall m sc, z !! m = Some sc -> is_job m
  | Some _ => False
  end
  /\ match s !! jobs_key q with
     | None => True
     | Some (Entry (RHash _) None) => True
     | Some _ => False
     end.

(** What the users of a queue do. *)
Inductive op : Type :=
  | Enqueue (jobData : json) (priority : Z) (rnd : string)
  | Dequeue
  | Complete (jobId : string) (result : option json)
  | Fail (jobId : string) (error : string)
  | Wait (ms : Z).

(** What an observer sees: the identifier that an [enqueueJob] made and its
    outcome, the answer of a [dequeueJob]. *)
Inductive event : Type :=
  | Enqueued (jobId : string) (r : result string)
  | Dequeued (r : result json)
  | Silent.

Definition step (q : string) (o : op) (w : world) : event * world :=
  match o with
  | Enqueue jobData priority rnd =>
      let '(r, w') := enqueueJob q jobData priority rnd w in
      (Enqueued (job_id (clock w) rnd) r, w')
  | Dequeue =>
      let '(r, w') := dequeueJob q w in (Dequeued r, w')
  | Complete jobId result => (Silent, after (completeJob q jobId result) w)
  | Fail jobId error => (Silent, after (failJob q jobId error) w)
  | Wait ms => (Silent, elapse ms w)
  end.

Fixpoint run (q : string) (ops : list op) (w : world) : list event * world :=
  match ops with
  | [] => ([], w)
  | o :: ops' =>
      let '(e, w1) := step q o w in
      let '(es, w2) := run q ops' w1 in
      (e :: es, w2)
  end.

(** The identifier of a job that was answered. *)
Definition answered_id (e : event) : option string :=
  match e with
  | Dequeued (Ok (JObj o)) =>
      match obj_get "id" o with
      | Some (JStr s) => Some s
      | _ => None
      end
  | _ => None
  end.

(** How many times a history answers the job [j]; two values are the same
    when their texts are. *)
Definition answer_of (j : json) (e : event) : bool :=
  match e with
  | Dequeued (Ok j') => String.eqb (JSON.stringify j') (JSON.stringify j)
  | _ => false
  end.

Definition answers (j : json) (es : list event) : nat :=
  length (List.filter (answer_of j) es).

(** Whether the job is in the index: 1 or 0. *)
Definition pending (q : string) (j : json) (s : gmap string entry) : nat :=
  match index q s !! JSON.stringify j with
  | Some _ => 1
  | None => 0
  end.

(** No [enqueueJob] of the history made the identifier [jobId]. *)
Definition never_made (jobId : string) (es : list event) : Prop :=
  forall jobId' r, Enqueued jobId' r ∈ es -> jobId' <> jobId.

(** No job of the index carries the identifier [jobId]. *)
Definition not_indexed (q jobId : string) (s : gmap string entry) : Prop :=
  forall jobId' data priority createdAt sc,
    index q s !! JSON.stringify (new_job jobId' data priority createdAt) = Some sc ->
    jobId' <> jobId.

End Queue.

(** ** The entries of a rate-limit window *)

(** The sorted set that a reader finds at [key]: [z], the empty set standing
    for an absent key. *)
Definition rate_set (key : string) (now : Z) (s : gmap string entry)
    (z : gmap string Z) : Prop :=
  match live now s key with
  | None => z = ∅
  | Some (Entry (RZSet z') _) => z' = z
  | Some _ => False
  end.

(** Entries written by earlier checks of the window that starts (in seconds)
    at [lo]: the member is the text of the score, the score an instant of the
    window before [now]. *)
Definition earlier_entries (lo now : Z) (z : gmap string Z) : Prop :=
  forall m sc, z !! m = Some sc -> m = toString sc /\ lo <= sc < now.

(** The answer to the [i]-th check of a window. *)
Definition nth_answer (limit windowSeconds bucket : Z) (i : Z) : result rate_limit :=
  Ok (RateLimit (i <=? limit) (Some (Z.max 0 (limit - i)))
        (Some ((bucket * windowSeconds + windowSeconds) * 1000))).

(** The answers to [n] checks in a row, from the [i]-th on. *)
Fixpoint window_answers (limit windowSeconds bucket : Z) (i : Z) (n : nat)
  : list (result rate_limit) :=
  match n with
  | O => []
  | S n' =>
      nth_answer limit windowSeconds bucket i
      :: window_answers limit windowSeconds bucket (i + 1) n'
  end.

(** The instants of the checks that follow [now] after the delays: each
    later than the one before and in the bucket [bucket] of the window. *)
Fixpoint in_bucket (windowSeconds bucket now : Z) (delays : list Z) : Prop :=
  match delays with
  | [] => True
  | d :: ds =>
      0 < d /\ (now + d) / (1000 * windowSeconds) = bucket
      /\ in_bucket windowSeconds bucket (now + d) ds
  end.

(** ** The counter of a circuit *)

(** The failures key holds the count [n]; no key stands for no failure. *)
Definition failures_at (serviceName : string) (n : Z) (s : gmap string entry) : Prop :=
  (s !! failure_key serviceName = None /\ n = 0)
  \/ s !! failure_key serviceName = Some (Entry (RString (toString n)) None).

(** The key space after a failure is recorded at [now], the count becoming
    [n]. *)
Definition recorded (serviceName : string) (n now : Z) (s : gmap string entry)
  : gmap string entry :=
  let s1 := <[failure_key serviceName := Entry (RString (toString n)) None]> s in
  let s2 := <[last_failure_key serviceName := Entry (RString (toString now)) None]> s1 in
  if 5 <=? n then <[state_key serviceName := Entry (RString "open") None]> s2 else s2.

(** ** Commands on several keys

    KEYS matches the keys with a glob-style pattern; the matcher is the
    store's own and is a parameter here ([glob pattern key]).  DEL of several
    keys and PTTL complete the commands that the sweeps of the service
    send. *)

Module Sweep.

(** A matcher for examples: literal characters and a final star. *)
Fixpoint prefix_glob (pattern key : string) : bool :=
  match pattern with
  | EmptyString => match key with EmptyString => true | _ => false end
  | String c p' =>
      if Ascii.eqb c "*" && match p' with EmptyString => true | _ => false end
      then true
      else match key with
           | String c' k' => Ascii.eqb c c' && prefix_glob p' k'
           | EmptyString => false
           end
  end.

Definition is_live (now : Z) (s : gmap string entry) (k : string) : bool :=
  match live now s k with
  | Some _ => true
  | None => false
  end.

(** DEL key1 key2 ...: the number of keys removed. *)
Fixpoint del_each (ks : list string) (now : Z) (s : gmap string entry)
  : Z * gmap string entry :=
  match ks with
  | [] => (0, s)
  | k :: ks' =>
      let n := if is_live now s k then 1 else 0 in
      let '(m, s') := del_each ks' now (delete k s) in
      (n + m, s')
  end.

Definition del_many (ks : list string) : cmd Z := fun now s =>
  let '(n, s') := del_each ks now s in (Ok n, s').

(** PTTL key: -2 without the key, -1 without an expiry, else the
    milliseconds left. *)
Definition pttl (k : string) : cmd Z := fun now s =>
  match live now s k with
  | None => (Ok (-2), s)
  | Some e =>
      match e_exp e with
      | None => (Ok (-1), s)
      | Some t => (Ok (t - now), s)
      end
  end.

Section Glob.
Variable glob : string -> string -> bool.

(** KEYS pattern: the live keys that match. *)
Definition keys (pattern : string) : cmd (list string) := fun now s =>
  (Ok (List.filter (fun k => is_live now s k && glob pattern k) (map_to_list s).*1), s).

Definition invalidateCachePattern (pattern : string) : M unit :=
  try_catch
    (let* keys := call (keys pattern) in
     if (0 <? length keys)%nat
     then let* _ := call (del_many keys) in ret tt
     else ret tt)
    (fun _ => ret tt).

(** The loop of [cleanupExpiredLocks] over the keys that KEYS listed. *)
Fixpoint cleanup_loop (lockKeys : list string) : M unit :=
  match lockKeys with
  | [] => ret tt
  | key :: rest =>
      let* ttl := call (pttl key) in
      if ttl =? -2 then cleanup_loop rest
      else
        let* _ := (if ttl =? -1
                   then let* _ := call (del key) in ret tt
                   else ret tt) in
        cleanup_loop rest
  end.

Definition cleanupExpiredLocks : M unit :=
  try_catch
    (let* lockKeys := call (keys "lock:*") in
     cleanup_loop lockKeys)
    (fun _ => ret tt).

End Glob.

(** The key space after the sweep of the keys [ks]: those without an expiry
    are gone. *)
Definition swept (ks : list string) (s : gmap string entry) : gmap string entry :=
  fold_left (fun s k =>
               match s !! k with
               | Some (Entry _ None) => delete k s
               | _ => s
               end) ks s.

(** The key carries a lease: it has an expiry. *)
Definition leased (s : gmap string entry) (k : string) : Prop :=
  exists v t, s !! k = Some (Entry v (Some t)).

End Sweep.

(** ** Checks of a rate limit across windows *)

(** The answer to each of the checks made after the delays, the first being
    the [i]-th since the key was created: the count goes on from one check
    to the next, the reset time is that of the bucket of the instant. *)
Fixpoint running_answers (limit windowSeconds now i : Z) (delays : list Z)
  : list (result rate_limit) :=
  match delays with
  | [] => []
  | d :: ds =>
      nth_answer limit windowSeconds ((now + d) / (1000 * windowSeconds)) i
      :: running_answers limit windowSeconds (now + d) (i + 1) ds
  end.

(** Traffic that does not pause: each check comes later than the one before,
    less than two windows after it, and at an instant (in milliseconds) that
    is at most a thousand times the instant [first] of the first check. *)
Fixpoint steady (windowSeconds first now : Z) (delays : list Z) : Prop :=
  match delays with
  | [] => True
  | d :: ds =>
      0 < d < windowSeconds * 2 * 1000 /\ now + d <= 1000 * first
      /\ steady windowSeconds first (now + d) ds
  end.

(** ** Response times

    The measurements of an endpoint are a list of the store, a kind of value
    that no other part of the service uses: the lists have a key space of
    their own here, with the same expiry and the same round trips as the
    other keys.  A duration is a whole number of milliseconds, written to the
    store as its decimal text.  The average is the quotient that the code
    computes in floating point; it is kept here as the sum and the number of
    the measurements. *)

Module Metrics.

Inductive lval : Type :=
  | LList (l : list string)
  | LOther.                      (* a value that is no list *)

Record lentry : Type := LEntry { l_val : lval; l_exp : option Z }.

Record lworld : Type := LWorld {
  lists : gmap string lentry;
  lclock : Z;
  lfaults : list bool
}.

Definition lcmd (A : Type) : Type :=
  Z -> gmap string lentry -> result A * gmap string lentry.

Definition L (A : Type) : Type := lworld -> result A * lworld.

Definition llive (now : Z) (s : gmap string lentry) (k : string) : option lentry :=
  match s !! k with
  | Some e =>
      if match l_exp e with Some t => t <=? now | None => false end
      then None else Some e
  | None => None
  end.

(** LPUSH key value: the length of the list after the push. *)
Definition lpush (k v : string) : lcmd Z := fun now s =>
  match llive now s k with
  | None => (Ok 1, <[k := LEntry (LList [v]) None]> s)
  | Some (LEntry (LList l) exp) =>
      (Ok (Z.of_nat (S (length l))), <[k := LEntry (LList (v :: l)) exp]> s)
  | Some _ => (Err WrongType, s)
  end.

(** LTRIM key 0 stop, for a stop that is not negative: the elements at the
    indices 0 to stop are kept; the store drops a key whose list is empty. *)
Definition ltrim_head (k : string) (stop : nat) : lcmd unit := fun now s =>
  match llive now s k with
  | None => (Ok tt, s)
  | Some (LEntry (LList l) exp) =>
      match take (S stop) l with
      | [] => (Ok tt, delete k s)
      | l' => (Ok tt, <[k := LEntry (LList l') exp]> s)
      end
  | Some _ => (Err WrongType, s)
  end.

(** EXPIRE key seconds *)
Definition lexpire (k : string) (seconds : Z) : lcmd Z := fun now s =>
  match llive now s k with
  | None => (Ok 0, s)
  | Some (LEntry v _) =>
      if seconds <=? 0 then (Ok 1, delete k s)
      else (Ok 1, <[k := LEntry v (Some (now + seconds * 1000))]> s)
  end.

(** LRANGE key 0 -1: the whole list. *)
Definition lrange_all (k : string) : lcmd (list string) := fun now s =>
  match llive now s k with
  | None => (Ok [], s)
  | Some (LEntry (LList l) _) => (Ok l, s)
  | Some _ => (Err WrongType, s)
  end.

(** One awaited command. *)
Definition lcall {A} (c : lcmd A) : L A := fun w =>
  match lfaults w with
  | true :: fs => (Err ConnectionError, LWorld (lists w) (lclock w) fs)
  | _ =>
      let '(r, s) := c (lclock w) (lists w) in
      (r, LWorld s (lclock w) (tail (lfaults w)))
  end.

Definition lret {A} (a : A) : L A := fun w => (Ok a, w).
Definition lthrow {A} (e : error) : L A := fun w => (Err e, w).

Definition lbind {A B} (m : L A) (f : A -> L B) : L B := fun w =>
  match m w with
  | (Ok a, w') => f a w'
  | (Err e, w') => (Err e, w')
  end.

Definition lcatch {A} (m : L A) (h : error -> L A) : L A := fun w =>
  match m w with
  | (Ok a, w') => (Ok a, w')
  | (Err e, w') => h e w'
  end.

Definition performance_key (endpoint method : string) : string :=
  "performance:" +:+ endpoint +:+ ":" +:+ method.

Definition recordResponseTime (endpoint method : string) (duration : Z) : L unit :=
  lcatch
    (let key := performance_key endpoint method in
     lbind (lcall (lpush key (toString duration))) (fun _ =>
     lbind (lcall (ltrim_head key 99)) (fun _ =>
     lbind (lcall (lexpire key 86400)) (fun _ =>
     lret tt))))
    (fun _ => lret tt).

(** [parseFloat] on the text of a whole number; the model follows no other
    text. *)
Definition whole (s : string) : option Z :=
  match digits_value s with
  | Some z => if String.eqb (toString z) s then Some z else None
  | None => None
  end.

Fixpoint wholes (l : list string) : option (list Z) :=
  match l with
  | [] => Some []
  | s :: l' =>
      match whole s, wholes l' with
      | Some z, Some zs => Some (z :: zs)
      | _, _ => None
      end
  end.

(** The quotient [sum / count]. *)
Record quotient : Type := Quot { q_sum : Z; q_count : positive }.

Definition zero : quotient := Quot 0 1.

Definition total (zs : list Z) : Z := foldr Z.add 0 zs.

(** The average of measurements, 0 when there is none. *)
Definition mean (zs : list Z) : quotient :=
  match zs with
  | [] => zero
  | _ => Quot (total zs) (Pos.of_nat (length zs))
  end.

Definition getAverageResponseTime (endpoint method : string) : L quotient :=
  lcatch
    (let key := performance_key endpoint method in
     lbind (lcall (lrange_all key)) (fun times =>
     match times with
     | [] => lret zero
     | _ =>
         match wholes times with
         | Some zs => lret (Quot (total zs) (Pos.of_nat (length times)))
         | None => lthrow Unmodelled
         end
     end))
    (fun e => match e with Unmodelled => lthrow Unmodelled | _ => lret zero end).

(** The measurements that a reader finds under the key: none when the key
    is absent or expired. *)
Definition samples (w : lworld) (k : string) : option (list string) :=
  match llive (lclock w) (lists w) k with
  | None => Some []
  | Some (LEntry (LList l) _) => Some l
  | Some _ => None
  end.

(** Recording measurements one after the other. *)
Definition record_all (endpoint method : string) (durations : list Z) (w : lworld)
  : lworld :=
  fold_left (fun w d => (recordResponseTime endpoint method d w).2) durations w.

End Metrics.

(** ** Health

    INFO and PING are answered by the store itself: PING with PONG, INFO with
    a text that is an argument of the method here.  The three fields of the
    report are read from that text with [String.prototype.match] on the
    patterns label:(\d+), which are not anchored: the leftmost place where
    the label is followed by a digit matches, and the group takes as many
    digits as there are. *)

Module Health.

Fixpoint strip_label (label s : string) : option string :=
  match label with
  | EmptyString => Some s
  | String c l' =>
      match s with
      | String c' s' => if Ascii.eqb c c' then strip_label l' s' else None
      | EmptyString => None
      end
  end.

(** The match of label(\d+) at the start of [s]: the digits of the group. *)
Definition match_here (label s : string) : option string :=
  match strip_label label s with
  | Some rest =>
      let d := (span_digits rest).1 in
      if String.eqb d "" then None else Some d
  | None => None
  end.

(** [s.match(/label(\d+)/)?.[1]] *)
Fixpoint capture (label s : string) : option string :=
  match match_here label s with
  | Some d => Some d
  | None =>
      match s with
      | String _ s' => capture label s'
      | EmptyString => None
      end
  end.

Record fields : Type := Fields {
  connected_clients : option string;
  used_memory : option string;
  total_connections_received : option string
}.

Inductive status : Type :=
  | Healthy (ping : bool) (info : fields)
  | Unhealthy (error : error).

Definition info_cmd (text : string) : cmd string := fun now s => (Ok text, s).
Definition ping_cmd : cmd string := fun now s => (Ok "PONG", s).

Definition read_fields (info : string) : fields :=
  Fields (capture "connected_clients:" info)
         (capture "used_memory:" info)
         (capture "total_connections_received:" info).

Definition getHealthStatus (text : string) : M status :=
  try_catch
    (let* info := call (info_cmd text) in
     let* ping := call ping_cmd in
     ret (Healthy (String.eqb ping "PONG") (read_fields info)))
    (fun e => ret (Unhealthy e)).

(** The digits [d] follow the label somewhere in [s], and no digit follows
    them. *)
Definition follows (label d s : string) : Prop :=
  exists pre rest,
    s = pre +:+ label +:+ d +:+ rest
    /\ d <> "" /\ all_digits d = true
    /\ match rest with
       | String c _ => is_digit c = false
       | EmptyString => True
       end.

End Health.

(* ================================================================== *)
(** * Properties *)

(** ** Numbers as text *)

Module JsTextFacts.

Lemma all_digits_uint (d : Decimal.uint) :
  all_digits (NilEmpty.string_of_uint d) = true.
Proof. induction d; simpl; auto. Qed.

Lemma all_digits_uint0 (d : Decimal.uint) :
  all_digits (NilZero.string_of_uint d) = true.
Proof. destruct d; try reflexivity; apply (all_digits_uint (_ _)). Qed.

Lemma uint0_nonempty (d : Decimal.uint) : NilZero.string_of_uint d <> EmptyString.
Proof. destruct d; discriminate. Qed.

Lemma to_int_proper (z : Z) :
  Z.to_int z <> Decimal.Pos Decimal.Nil /\ Z.to_int z <> Decimal.Neg Decimal.Nil.
Proof.
  destruct z as [|p|p]; simpl; split; try discriminate;
    intros [= H]; exact (DecimalPos.Unsigned.to_uint_nonnil p H).
Qed.

Lemma digits_value_toString (z : Z) : digits_value (toString z) = Some z.
Proof.
  unfold digits_value, toString.
  destruct (to_int_proper z) as [H1 H2].
  rewrite NilZero.isi by assumption. simpl. now rewrite DecimalZ.of_to.
Qed.

Lemma toString_inj (a b : Z) : toString a = toString b -> a = b.
Proof.
  intros H. apply (f_equal digits_value) in H.
  rewrite !digits_value_toString in H. congruence.
Qed.

Lemma string2ll_toString (z : Z) :
  int64_min <= z <= int64_max -> string2ll (toString z) = Some z.
Proof.
  intros [Hlo Hhi]. unfold string2ll. rewrite digits_value_toString.
  rewrite String.eqb_refl.
  destruct (Z.leb_spec int64_min z); [| lia].
  destruct (Z.leb_spec z int64_max); [| lia]. reflexivity.
Qed.

Lemma string2ll_canonical (s : string) (z : Z) :
  string2ll s = Some z -> s = toString z /\ int64_min <= z <= int64_max.
Proof.
  unfold string2ll. destruct (digits_value s) as [n|]; [| discriminate].
  destruct (String.eqb_spec (toString n) s) as [E|]; [| discriminate]. simpl.
  destruct (Z.leb_spec int64_min n); [| discriminate].
  destruct (Z.leb_spec n int64_max); [| discriminate].
  intros [= <-]. auto.
Qed.

Lemma span_all_digits (s : string) :
  all_digits s = true -> JsText.span_digits s = (s, EmptyString).
Proof.
  induction s as [|c s IH]; simpl; [reflexivity |].
  intros [Hc Hs]%andb_prop. rewrite Hc, (IH Hs). reflexivity.
Qed.

Lemma digit_head_plain (c : ascii) (s : string) :
  is_digit c = true -> parseInt (String c s) = unsigned (String c s).
Proof.
  destruct c as [[] [] [] [] [] [] [] []]; try discriminate; reflexivity.
Qed.

Lemma digit_no_prefix (x : ascii) :
  is_digit x = true -> Ascii.eqb x "x" || Ascii.eqb x "X" = false.
Proof.
  destruct x as [[] [] [] [] [] [] [] []]; try discriminate; reflexivity.
Qed.

(** A text made of decimal digits is read in decimal. *)
Lemma unsigned_digits (s : string) :
  all_digits s = true -> unsigned s = digits_value s.
Proof.
  intros Hs. rewrite <- (f_equal fst (span_all_digits s Hs)) at 2.
  destruct s as [|c [|x s']]; try reflexivity.
  cbn [unsigned]. cbn [all_digits] in Hs.
  apply andb_prop in Hs as [_ Hx]. apply andb_prop in Hx as [Hx _].
  rewrite (digit_no_prefix x Hx), andb_false_r. reflexivity.
Qed.

Lemma toString_nonneg (z : Z) :
  0 <= z -> exists c s, toString z = String c s /\ is_digit c = true
                        /\ all_digits s = true.
Proof.
  intros Hz. unfold toString.
  assert (exists d, Z.to_int z = Decimal.Pos d) as [d Hd]
    by (destruct z; simpl; eauto; lia).
  rewrite Hd. simpl.
  pose proof (all_digits_uint0 d) as Hall.
  pose proof (uint0_nonempty d) as Hne.
  destruct (NilZero.string_of_uint d) as [|c s]; [congruence |].
  simpl in Hall. apply andb_prop in Hall as [? ?]. eauto.
Qed.

Lemma parseInt_toString (z : Z) : parseInt (toString z) = Some z.
Proof.
  destruct (Z.le_gt_cases 0 z) as [Hz|Hz].
  - destruct (toString_nonneg z Hz) as (c & s & E & Hc & Hs).
    rewrite E, (digit_head_plain c s Hc).
    rewrite unsigned_digits by (simpl; now rewrite Hc, Hs).
    rewrite <- E. apply digits_value_toString.
  - destruct z as [|p|p]; try lia.
    change (toString (Z.neg p))
      with (String "-" (NilZero.string_of_uint (Pos.to_uint p))).
    change (parseInt (String "-" ?s)) with (Z.opp <$> unsigned s).
    rewrite unsigned_digits by apply all_digits_uint0.
    change (NilZero.string_of_uint (Pos.to_uint p)) with (toString (Z.pos p)).
    now rewrite digits_value_toString.
Qed.

Lemma toString_nonempty (z : Z) : toString z <> EmptyString.
Proof.
  unfold toString. destruct (Z.to_int z); simpl;
    [apply uint0_nonempty | discriminate].
Qed.

End JsTextFacts.

(** ** JSON: reading back what was written *)

Module JSONFacts.
Import JSON.

Lemma json_rect' (P : json -> Prop) :
  P JNull -> (forall b, P (JBool b)) -> (forall z, P (JNum z)) ->
  (forall s, P (JStr s)) ->
  (forall l, Forall P l -> P (JArr l)) ->
  (forall o, Forall (fun kx => P kx.2) o -> P (JObj o)) ->
  forall v, P v.
Proof.
  intros Hn Hb Hz Hs Ha Ho.
  fix IH 1. intros [ | b | z | s | l | o ].
  - exact Hn.
  - apply Hb.
  - apply Hz.
  - apply Hs.
  - apply Ha.
    induction l as [|x l IHl]; constructor; [apply IH | exact IHl].
  - apply Ho.
    induction o as [|[k x] o IHo]; constructor; [apply IH | exact IHo].
Qed.

Lemma strip_app (p r : chars) : strip p (p ++ r) = Some r.
Proof.
  induction p as [|c p IH]; simpl; [reflexivity |].
  now rewrite Ascii.eqb_refl.
Qed.

(** *** String literals *)

Lemma parse_chars_escape_char (c : ascii) (s : chars) :
  parse_chars (escape_char c ++ s) =
  match parse_chars s with
  | Some (t, r) => Some (String c t, r)
  | None => None
  end.
Proof.
  destruct c as [[] [] [] [] [] [] [] []]; reflexivity.
Qed.

Lemma parse_chars_escape (s : string) (r : chars) :
  parse_chars (escape s ++ dquote :: r) = Some (s, r).
Proof.
  induction s as [|c s IH]; [reflexivity |].
  simpl escape. rewrite <- app_assoc, parse_chars_escape_char, IH. reflexivity.
Qed.

Lemma parse_chars_quote (s : string) (r : chars) :
  parse_chars (escape s ++ [dquote] ++ r) = Some (s, r).
Proof. apply parse_chars_escape. Qed.

(** *** Numbers *)

Lemma span_digits_app (d : string) (r : chars) :
  all_digits d = true -> no_digit r ->
  span_digits (list_ascii_of_string d ++ r) = (list_ascii_of_string d, r).
Proof.
  intros Hd Hr. induction d as [|c d IH]; cbn [list_ascii_of_string app span_digits].
  - destruct r as [|c r]; [reflexivity |]. cbn [span_digits]. simpl in Hr. now rewrite Hr.
  - cbn [all_digits] in Hd. apply andb_prop in Hd as [Hc Hd].
    rewrite Hc, (IH Hd). reflexivity.
Qed.

Lemma digit_not_minus (c : ascii) : is_digit c = true -> Ascii.eqb c "-" = false.
Proof. destruct c as [[] [] [] [] [] [] [] []]; try discriminate; reflexivity. Qed.

Lemma parse_number_print (z : Z) (r : chars) :
  no_digit r -> parse_number (print_num z ++ r) = Some (z, r).
Proof.
  intros Hr. unfold parse_number, print_num.
  destruct (Z.le_gt_cases 0 z) as [Hz|Hz].
  - destruct (JsTextFacts.toString_nonneg z Hz) as (c & t & E & Hc & Ht).
    rewrite E. simpl list_ascii_of_string. simpl app. cbv beta iota.
    rewrite (digit_not_minus c Hc).
    change (c :: list_ascii_of_string t ++ r)
      with (list_ascii_of_string (String c t) ++ r).
    rewrite span_digits_app by (simpl; now rewrite ?Hc, ?Ht).
    rewrite !app_nil_l, string_of_list_ascii_of_string, <- E.
    rewrite JsTextFacts.digits_value_toString, String.eqb_refl. reflexivity.
  - destruct z as [|p|p]; try lia.
    change (toString (Z.neg p))
      with (String "-" (NilZero.string_of_uint (Pos.to_uint p))).
    simpl list_ascii_of_string. simpl app. cbv beta iota.
    change (Ascii.eqb "-" "-") with true. cbv beta iota.
    rewrite span_digits_app by (auto using JsTextFacts.all_digits_uint0).
    change (["-"%char] ++ list_ascii_of_string (NilZero.string_of_uint (Pos.to_uint p)))
      with (list_ascii_of_string (toString (Z.neg p))).
    rewrite string_of_list_ascii_of_string.
    rewrite JsTextFacts.digits_value_toString, String.eqb_refl. reflexivity.
Qed.

Lemma print_num_head (z : Z) :
  exists c t, print_num z = c :: t /\ (is_digit c = true \/ c = "-"%char).
Proof.
  unfold print_num. destruct (Z.le_gt_cases 0 z) as [Hz|Hz].
  - destruct (JsTextFacts.toString_nonneg z Hz) as (c & t & E & Hc & _).
    rewrite E. simpl. eauto.
  - destruct z as [|p|p]; try lia.
    change (toString (Z.neg p))
      with (String "-" (NilZero.string_of_uint (Pos.to_uint p))).
    simpl. eauto.
Qed.

Lemma parse_value_number (fuel : nat) (c : ascii) (r : chars) :
  is_digit c = true \/ c = "-"%char ->
  parse_value (S fuel) (c :: r) =
  match parse_number (c :: r) with
  | Some (z, r') => Some (JNum z, r')
  | None => None
  end.
Proof.
  intros [Hc | ->]; [| reflexivity].
  destruct c as [[] [] [] [] [] [] [] []]; try discriminate; reflexivity.
Qed.

(** *** Values *)

Lemma print_opens (v : json) : opens (print v).
Proof.
  destruct v as [ | [] | z | s | l | o ]; try (do 2 eexists; split; [reflexivity | split; reflexivity]).
  destruct (print_num_head z) as (c & t & E & Hc).
  exists c, t. split; [exact E |].
  destruct Hc as [Hc | ->]; [| split; reflexivity].
  destruct c as [[] [] [] [] [] [] [] []]; try discriminate; split; reflexivity.
Qed.

Lemma print_elems_cons (x : json) (l : list json) :
  print_elems (x :: l) =
  print x ++ (match l with [] => ["]"%char] | _ => ","%char :: print_elems l end).
Proof. destruct l; reflexivity. Qed.

Lemma print_members_cons (k : string) (x : json) (o : list (string * json)) :
  print_members ((k, x) :: o) =
  quote k ++ ":"%char :: print x ++
    (match o with [] => ["}"%char] | _ => ","%char :: print_members o end).
Proof. destruct o; reflexivity. Qed.

Lemma reads_elems (l : list json) :
  Forall reads l -> l <> [] ->
  forall fuel r, (length (print_elems l) < fuel)%nat ->
    parse_elems fuel (print_elems l ++ r) = Some (l, r).
Proof.
  induction 1 as [|x l Hx Hl IH]; [congruence |]. intros _ fuel r Hlen.
  rewrite print_elems_cons in *. rewrite length_app in Hlen.
  destruct fuel as [|fuel]; [lia |]. simpl parse_elems.
  rewrite <- app_assoc.
  destruct l as [|y l].
  - simpl in *. rewrite (Hx fuel) by (simpl; auto; lia). reflexivity.
  - cbn [app length] in *. rewrite (Hx fuel) by (simpl; auto; lia).
    change (Ascii.eqb "," ",") with true. cbv iota.
    rewrite IH by (congruence || lia). reflexivity.
Qed.

Lemma reads_members (o : list (string * json)) :
  Forall (fun kx => reads kx.2) o -> o <> [] ->
  forall fuel r, (length (print_members o) < fuel)%nat ->
    parse_members fuel (print_members o ++ r) = Some (o, r).
Proof.
  induction 1 as [|[k x] o Hx Ho IH]; [congruence |]. intros _ fuel r Hlen.
  rewrite print_members_cons in *. unfold quote in *.
  simpl app in *. simpl length in Hlen. rewrite !length_app in Hlen.
  simpl length in Hlen. rewrite !length_app in Hlen.
  destruct fuel as [|fuel]; [lia |]. simpl parse_members.
  change (Ascii.eqb dquote dquote) with true. cbv iota.
  rewrite <- !app_assoc. rewrite parse_chars_quote. simpl app.
  change (Ascii.eqb ":" ":") with true. cbv iota.
  rewrite <- app_assoc.
  destruct o as [|y o].
  - simpl in *. rewrite (Hx fuel) by (simpl; auto; lia). reflexivity.
  - cbn [app length] in *. rewrite (Hx fuel) by (simpl; auto; lia).
    change (Ascii.eqb "," ",") with true. cbv iota.
    rewrite IH by (congruence || lia). reflexivity.
Qed.

Lemma reads_all (v : json) : reads v.
Proof.
  induction v as [ | b | z | s | l IH | o IH ] using json_rect';
    intros fuel r Hlen Hr; (destruct fuel as [|fuel]; [lia |]).
  - reflexivity.
  - destruct b; reflexivity.
  - destruct (print_num_head z) as (c & t & E & Hc).
    change (print (JNum z)) with (print_num z) in *.
    pose proof (parse_number_print z r Hr) as Hn.
    rewrite E in *. simpl app in *.
    rewrite (parse_value_number fuel c _ Hc), Hn. reflexivity.
  - change (print (JStr s)) with (dquote :: escape s ++ [dquote]).
    simpl app. simpl parse_value.
    change (Ascii.eqb dquote "n") with false.
    change (Ascii.eqb dquote "t") with false.
    change (Ascii.eqb dquote "f") with false.
    change (Ascii.eqb dquote dquote) with true. cbv iota.
    rewrite <- app_assoc, parse_chars_quote. reflexivity.
  - change (print (JArr l)) with ("["%char :: print_elems l) in *.
    simpl length in Hlen. simpl app. simpl parse_value.
    change (Ascii.eqb "[" "n") with false.
    change (Ascii.eqb "[" "t") with false.
    change (Ascii.eqb "[" "f") with false.
    change (Ascii.eqb "[" dquote) with false.
    change (Ascii.eqb "[" "[") with true. cbv iota.
    destruct l as [|x l]; [reflexivity |].
    pose proof (reads_elems (x :: l) IH ltac:(congruence) fuel r ltac:(lia)) as Hp.
    rewrite print_elems_cons in *.
    destruct (print_opens x) as (c & t & E & Hc & _).
    rewrite E in *. rewrite Hp. cbn [app]. rewrite Hc. reflexivity.
  - change (print (JObj o)) with ("{"%char :: print_members o) in *.
    simpl length in Hlen. simpl app. simpl parse_value.
    change (Ascii.eqb "{" "n") with false.
    change (Ascii.eqb "{" "t") with false.
    change (Ascii.eqb "{" "f") with false.
    change (Ascii.eqb "{" dquote) with false.
    change (Ascii.eqb "{" "[") with false.
    change (Ascii.eqb "{" "{") with true. cbv iota.
    destruct o as [|[k x] o]; [reflexivity |].
    pose proof (reads_members ((k, x) :: o) IH ltac:(congruence) fuel r ltac:(lia)) as Hp.
    rewrite print_members_cons in *. unfold quote in *. rewrite Hp.
    cbn [app]. change (Ascii.eqb dquote "}") with false. reflexivity.
Qed.

(** JSON.parse(JSON.stringify(v)) is v. *)
Lemma parse_stringify (v : json) : parse (stringify v) = Some v.
Proof.
  unfold parse, stringify. rewrite list_ascii_of_string_of_list_ascii.
  pose proof (reads_all v (S (length (print v))) [] ltac:(lia) I) as H.
  rewrite app_nil_r in H. now rewrite H.
Qed.

Lemma stringify_inj (a b : json) : stringify a = stringify b -> a = b.
Proof.
  intros H. apply (f_equal parse) in H. rewrite !parse_stringify in H. congruence.
Qed.

Lemma stringify_nonempty (v : json) : stringify v <> EmptyString.
Proof.
  unfold stringify. destruct (print_opens v) as (c & t & E & _).
  rewrite E. discriminate.
Qed.

Lemma truthy_stringify (v : json) : truthy (Some (stringify v)) = true.
Proof.
  unfold truthy. destruct (String.eqb_spec (stringify v) ""); [| reflexivity].
  now destruct (stringify_nonempty v).
Qed.

End JSONFacts.

(** ** The monad of calls *)

Section Calls.
Context {A : Type}.

Lemma call_available (c : cmd A) (w : world) :
  faults w = [] ->
  call c w = let '(r, s) := c (clock w) (kv w) in (r, World s (clock w) []).
Proof. intros H. unfold call. rewrite H. reflexivity. Qed.

Lemma call_faulty (c : cmd A) (w : world) (fs : list bool) :
  faults w = true :: fs ->
  call c w = (Err ConnectionError, World (kv w) (clock w) fs).
Proof. intros H. unfold call. rewrite H. reflexivity. Qed.

Lemma call_clock (c : cmd A) (w : world) : clock (call c w).2 = clock w.
Proof.
  unfold call. destruct (faults w) as [|[] fs]; simpl; try reflexivity;
    destruct (c (clock w) (kv w)); reflexivity.
Qed.
End Calls.

Lemma elapse_0 (w : world) : elapse 0 w = w.
Proof. destruct w as [s t fs]. unfold elapse. cbn. f_equal. lia. Qed.

(** ** Cache *)

Lemma live_insert_eq (now : Z) (s : gmap string entry) (k : string) (e : entry) :
  live now (<[k := e]> s) k = if expired now e then None else Some e.
Proof. unfold live. now rewrite lookup_insert_eq. Qed.

Lemma live_insert_ne (now : Z) (s : gmap string entry) (k k' : string) (e : entry) :
  k <> k' -> live now (<[k := e]> s) k' = live now s k'.
Proof. intros H. unfold live. now rewrite lookup_insert_ne. Qed.

Lemma live_delete_eq (now : Z) (s : gmap string entry) (k : string) :
  live now (delete k s) k = None.
Proof. unfold live. now rewrite lookup_delete_eq. Qed.

Lemma live_delete_ne (now : Z) (s : gmap string entry) (k k' : string) :
  k <> k' -> live now (delete k s) k' = live now s k'.
Proof. intros H. unfold live. now rewrite lookup_delete_ne. Qed.

Section CacheFacts.
Context {V : Type} `{Runtime V}.

Lemma getCachedData_total (k : string) (w : world) :
  exists v : V, (getCachedData k w).1 = Ok v.
Proof.
  unfold getCachedData, try_catch, bind, ret, throw.
  destruct (call (get k) w) as [[[d|]|e] w1]; simpl; eauto.
  destruct (negb _); simpl; eauto.
  destruct (js_parse d); simpl; eauto.
Qed.

Lemma getCachedData_absent (k : string) (w : world) :
  stored w k = None -> (getCachedData k w).1 = Ok (js_null : V).
Proof.
  intros Hs. unfold getCachedData, try_catch, bind, call.
  destruct (faults w) as [|[] fs]; simpl; try reflexivity;
    unfold get; unfold stored in Hs; rewrite Hs; reflexivity.
Qed.

Lemma setCachedData_available (k : string) (v : V) (ottl : option Z) (w : world) :
  faults w = [] -> 0 < default cacheTTL ottl ->
  setCachedData k v ottl w =
  (Ok tt,
   World (<[k := Entry (RString (js_stringify v))
                   (Some (clock w + default cacheTTL ottl * 1000))]> (kv w))
         (clock w) []).
Proof.
  intros Hf Httl. unfold setCachedData, try_catch.
  rewrite call_available by assumption. unfold setex.
  destruct (Z.leb_spec (default cacheTTL ottl) 0); [lia | reflexivity].
Qed.

End CacheFacts.

(** C8. Whatever the values of the runtime are: with the store reachable,
    [setCachedData(k, v)] (default TTL of 3600 seconds, or any positive TTL)
    followed by [getCachedData(k)] before the TTL has run out returns the
    value after the serialization round trip, [JSON.parse(JSON.stringify(v))],
    which is [v] for every JSON-serializable [v]; once the TTL has run out,
    and on any key that the store does not hold, [getCachedData] returns
    null; it never raises. *)
Theorem C8_cache_round_trip {V : Type} `{Runtime V} (k : string) (v : V)
    (ottl : option Z) (w : world) :
  faults w = [] ->
  0 < default cacheTTL ottl ->
  let ttl := default cacheTTL ottl in
  let w1 := (setCachedData k v ottl w).2 in
  (forall d, 0 <= d < ttl * 1000 ->
     (getCachedData k (elapse d w1)).1
     = Ok (default js_null (js_parse (js_stringify v)))
     /\ (serializable v -> (getCachedData k (elapse d w1)).1 = Ok v))
  /\ (forall d, ttl * 1000 < d ->
        (getCachedData k (elapse d w1)).1 = Ok (js_null : V))
  /\ (forall k' w', stored w' k' = None -> (getCachedData k' w').1 = Ok (js_null : V))
  /\ (forall k' w', exists v' : V, (getCachedData k' w').1 = Ok v').
Proof.
  intros Hf Httl ttl w1. subst w1.
  rewrite setCachedData_available by assumption. cbn [snd]. fold ttl.
  split; [| split; [| split]].
  - intros d Hd.
    assert (E : (getCachedData k
                   (elapse d
                      (World (<[k := Entry (RString (js_stringify v))
                                      (Some (clock w + ttl * 1000))]> (kv w))
                             (clock w) []))).1
                = Ok (default js_null (js_parse (js_stringify v)))).
    { unfold getCachedData, try_catch, bind.
      rewrite call_available by reflexivity. cbn [elapse kv clock].
      unfold get. rewrite live_insert_eq. unfold expired. cbn [e_exp].
      destruct (Z.leb_spec (clock w + ttl * 1000) (clock w + d)); [lia |].
      unfold truthy. destruct (String.eqb_spec (js_stringify v) "") as [He|Hne].
      - rewrite He, js_parse_empty. reflexivity.
      - cbn [negb]. destruct (js_parse (js_stringify v)); reflexivity. }
    split; [exact E |]. intros Hv. rewrite E. unfold serializable in Hv.
    now rewrite Hv.
  - intros d Hd. apply getCachedData_absent.
    unfold stored. cbn [elapse kv clock]. rewrite live_insert_eq.
    unfold expired. cbn [e_exp].
    destruct (Z.leb_spec (clock w + ttl * 1000) (clock w + d)); [reflexivity | lia].
  - intros k' w'. apply getCachedData_absent.
  - intros k' w'. apply getCachedData_total.
Qed.

Lemma C8_witness :
  let w := World ∅ 1000 [] in
  let v := JObj [("name", JStr "bob"); ("age", JNum 41)] in
  let w1 := (setCachedData "user:7" v None w).2 in
  (getCachedData "user:7" w1).1 = Ok v
  /\ (getCachedData "user:7" (elapse 3600001 w1)).1 = Ok JNull.
Proof.
  intros w v w1.
  destruct (C8_cache_round_trip "user:7" v None w eq_refl eq_refl) as (H1 & H2 & _).
  split.
  - rewrite <- (elapse_0 w1). apply (H1 0); [| reflexivity].
    change (default cacheTTL None) with 3600. lia.
  - apply (H2 3600001). change (default cacheTTL None) with 3600. lia.
Defined.

(** ** Store errors *)

Lemma checkRateLimit_unreachable (identifier action : string) (limit windowSeconds : Z)
    (w : world) :
  unreachable w ->
  checkRateLimit identifier action limit windowSeconds w =
  (Ok (RateLimit false None
         ((fun ws => (ws + windowSeconds) * 1000) <$> window_start (clock w) windowSeconds)),
   World (kv w) (clock w) (tail (faults w))).
Proof.
  unfold unreachable. destruct w as [s t [|[] fs]]; try discriminate. intros _.
  reflexivity.
Qed.

Lemma checkRateLimit_total (identifier action : string) (limit windowSeconds : Z)
    (w : world) :
  exists r, (checkRateLimit identifier action limit windowSeconds w).1 = Ok r.
Proof.
  unfold checkRateLimit, bind, try_catch, date_now, exec, ret.
  destruct (faults w) as [|[] fs]; cbn [fst snd]; try (eexists; reflexivity);
    destruct (run_batch _ _ _); eexists; reflexivity.
Qed.

Lemma checkCircuitBreaker_total (serviceName : string) (ft rt : Z) (w : world) :
  exists b, (checkCircuitBreaker serviceName ft rt w).1 = Ok b.
Proof.
  unfold checkCircuitBreaker, try_catch.
  match goal with |- context [match ?m w with _ => _ end] => destruct (m w) as [[b|e] w1] end;
    simpl; eauto.
Qed.

Lemma get_reads (k : string) (t : Z) (s : gmap string entry) : (get k t s).2 = s.
Proof. unfold get. destruct (live t s k) as [[[] ?]|]; reflexivity. Qed.

Lemma call_reads {A} (c : cmd A) (w : world) :
  (forall t s, (c t s).2 = s) -> kv (call c w).2 = kv w.
Proof.
  intros H. unfold call. destruct (faults w) as [|[] fs]; try reflexivity;
    specialize (H (clock w) (kv w)); destruct (c (clock w) (kv w)); exact H.
Qed.

Lemma call_both_unreachable {A B} (a : cmd A) (b : cmd B) (w : world) :
  unreachable w -> (forall t s, (b t s).2 = s) ->
  exists e fs, call_both a b w = (Err e, World (kv w) (clock w) fs).
Proof.
  unfold unreachable. destruct w as [s t [|[] fs]]; try discriminate. intros _ Hb.
  unfold call_both. rewrite (call_faulty a _ fs) by reflexivity. cbn [kv clock].
  pose proof (call_reads b (World s t fs) Hb) as Hkv.
  pose proof (call_clock b (World s t fs)) as Hclock.
  destruct (call b (World s t fs)) as [rb [s2 t2 f2]]. cbn in Hkv, Hclock. subst.
  destruct rb; eauto.
Qed.

Lemma checkCircuitBreaker_unreachable (serviceName : string) (ft rt : Z) (w : world) :
  unreachable w ->
  (checkCircuitBreaker serviceName ft rt w).1 = Ok true
  /\ kv (checkCircuitBreaker serviceName ft rt w).2 = kv w.
Proof.
  intros Hw. unfold checkCircuitBreaker, try_catch, bind.
  destruct (call_both_unreachable (get (failure_key serviceName))
              (get (state_key serviceName)) w Hw) as (e & fs & E).
  { intros; apply get_reads. }
  rewrite E. split; reflexivity.
Qed.

Lemma cache_unreachable {V : Type} `{Runtime V} (k : string) (v : V) (ottl : option Z)
    (w : world) :
  unreachable w ->
  getCachedData k w = (Ok (js_null : V), World (kv w) (clock w) (tail (faults w)))
  /\ setCachedData k v ottl w = (Ok tt, World (kv w) (clock w) (tail (faults w)))
  /\ invalidateCache k w = (Ok tt, World (kv w) (clock w) (tail (faults w))).
Proof.
  unfold unreachable. destruct w as [s t [|[] fs]]; try discriminate. intros _.
  repeat split; reflexivity.
Qed.

Lemma cache_total {V : Type} `{Runtime V} (k : string) (v : V) (ottl : option Z)
    (w : world) :
  (exists x : V, (getCachedData k w).1 = Ok x)
  /\ (setCachedData k v ottl w).1 = Ok tt
  /\ (invalidateCache k w).1 = Ok tt.
Proof.
  split; [apply getCachedData_total |]. split.
  - unfold setCachedData, try_catch.
    destruct (call _ w) as [[[]|e] w1]; reflexivity.
  - unfold invalidateCache, try_catch, bind.
    destruct (call _ w) as [[z|e] w1]; reflexivity.
Qed.

Lemma enqueueJob_unreachable (q : string) (data : json) (priority : Z) (rnd : string)
    (w : world) :
  unreachable w ->
  enqueueJob q data priority rnd w =
  (Err ConnectionError, World (kv w) (clock w) (tail (faults w))).
Proof.
  unfold unreachable. destruct w as [s t [|[] fs]]; try discriminate. intros _.
  reflexivity.
Qed.

(** The second write of [enqueueJob] failing is raised as well. *)
Lemma enqueueJob_second_unreachable (q : string) (data : json) (priority : Z)
    (rnd : string) (s : gmap string entry) (t : Z) (fs : list bool) :
  (enqueueJob q data priority rnd (World s t (false :: true :: fs))).1
  = Err ConnectionError
  \/ (enqueueJob q data priority rnd (World s t (false :: true :: fs))).1
     = Err WrongType.
Proof.
  unfold enqueueJob, try_catch, bind, date_now, call. cbn [faults kv clock tail].
  destruct (zadd _ _ _ t s) as [[z|e] s1] eqn:E; cbn.
  - left. reflexivity.
  - right. unfold zadd in E. destruct (live t s _) as [[[] ?]|]; congruence.
Qed.

Lemma catch_ret_total {A} (m : M A) (x : A) (w : world) :
  exists a, (try_catch m (fun _ => ret x) w).1 = Ok a.
Proof. unfold try_catch, ret. destruct (m w) as [[a|e] w1]; cbn; eauto. Qed.

Lemma catch_ret_unit (m : M unit) (w : world) :
  (try_catch m (fun _ => ret tt) w).1 = Ok tt.
Proof. destruct (catch_ret_total m tt w) as [[] H]. exact H. Qed.

Lemma acquire_loop_total (key lockId : string) (ttl retryCount retryDelay : Z)
    (n : nat) (i : Z) (w : world) :
  exists o, (acquire_loop key lockId ttl retryCount retryDelay n i w).1 = Ok o.
Proof.
  revert i w. induction n as [|n IH]; intros i w; [cbn; eauto |].
  cbn [acquire_loop]. unfold bind at 1.
  destruct (try_catch _ _ w) as [[[]|e] w1] eqn:E.
  - cbn. eauto.
  - unfold bind. destruct (i <? retryCount - 1); cbn; apply IH.
  - exfalso. unfold try_catch in E. destruct (call _ w) as [[ok|e'] w']; discriminate.
Qed.

(** The other methods swallow every error as well; [dequeueJob] leaves the
    model only on a member that no [enqueueJob] wrote. *)
Lemma other_methods_total (w : world) :
  (forall serviceName, (recordCircuitBreakerFailure serviceName w).1 = Ok tt)
  /\ (forall key ttl retryCount retryDelay rnd,
        exists o, (acquireLock key ttl retryCount retryDelay rnd w).1 = Ok o)
  /\ (forall key lockId, exists b, (releaseLock key lockId w).1 = Ok b)
  /\ (forall q jobId result, (completeJob q jobId result w).1 = Ok tt)
  /\ (forall q jobId error, (failJob q jobId error w).1 = Ok tt)
  /\ (forall q, (exists j, (dequeueJob q w).1 = Ok j)
                \/ (dequeueJob q w).1 = Err Unmodelled).
Proof.
  split; [| split; [| split; [| split; [| split]]]].
  - intros. apply catch_ret_unit.
  - intros. unfold acquireLock, bind, date_now. apply acquire_loop_total.
  - intros. apply catch_ret_total.
  - intros. apply catch_ret_unit.
  - intros. apply catch_ret_unit.
  - intros q. unfold dequeueJob, try_catch.
    match goal with |- context [match ?m w with _ => _ end] => destruct (m w) as [[j|e] w1] end.
    + left. cbn. eauto.
    + destruct e; cbn; eauto.
Qed.

(** X30. When the store cannot be reached, [checkCircuitBreaker] answers
    true, the cache reads a miss and writes nothing, none of them raising;
    [enqueueJob] raises the error of the store; [checkRateLimit] does not
    raise either, and refuses: the count cannot be read from the answer of
    the pipeline.  In no world at all do the rate limiter, the circuit
    breaker, the cache, the lock or the settling of a job raise. *)
Theorem store_errors_degrade_to_defaults {V : Type} `{Runtime V} (w : world) :
  unreachable w ->
  (forall identifier action limit windowSeconds,
     exists reset w',
       checkRateLimit identifier action limit windowSeconds w
       = (Ok (RateLimit false None reset), w') /\ kv w' = kv w)
  /\ (forall serviceName ft rt,
        (checkCircuitBreaker serviceName ft rt w).1 = Ok true
        /\ kv (checkCircuitBreaker serviceName ft rt w).2 = kv w)
  /\ (forall k (v : V) ottl,
        exists w',
          getCachedData k w = (Ok (js_null : V), w')
          /\ setCachedData k v ottl w = (Ok tt, w')
          /\ invalidateCache k w = (Ok tt, w')
          /\ kv w' = kv w)
  /\ (forall q data priority rnd,
        exists w',
          enqueueJob q data priority rnd w = (Err ConnectionError, w')
          /\ kv w' = kv w)
  /\ (forall w' : world,
        (forall identifier action limit windowSeconds,
           exists r, (checkRateLimit identifier action limit windowSeconds w').1 = Ok r)
        /\ (forall serviceName ft rt,
              exists b, (checkCircuitBreaker serviceName ft rt w').1 = Ok b)
        /\ (forall k (v : V) ottl,
              (exists x : V, (getCachedData k w').1 = Ok x)
              /\ (setCachedData k v ottl w').1 = Ok tt
              /\ (invalidateCache k w').1 = Ok tt)
        /\ (forall serviceName, (recordCircuitBreakerFailure serviceName w').1 = Ok tt)
        /\ (forall key ttl retryCount retryDelay rnd,
              exists o, (acquireLock key ttl retryCount retryDelay rnd w').1 = Ok o)
        /\ (forall key lockId, exists b, (releaseLock key lockId w').1 = Ok b)
        /\ (forall q jobId result, (completeJob q jobId result w').1 = Ok tt)
        /\ (forall q jobId error, (failJob q jobId error w').1 = Ok tt)).
Proof.
  intros Hw. split; [| split; [| split; [| split]]].
  - intros. do 2 eexists.
    split; [apply checkRateLimit_unreachable; assumption | reflexivity].
  - intros. apply checkCircuitBreaker_unreachable; assumption.
  - intros k v ottl. destruct (cache_unreachable k v ottl w Hw) as (H1 & H2 & H3).
    eexists. split; [exact H1 | split; [exact H2 | split; [exact H3 | reflexivity]]].
  - intros. eexists. split; [apply enqueueJob_unreachable; assumption | reflexivity].
  - intros w'. destruct (other_methods_total w') as (H1 & H2 & H3 & H4 & H5 & _).
    split; [| split; [| split; [| split; [| split; [| split; [| split]]]]]];
      try assumption; intros.
    + apply checkRateLimit_total.
    + apply checkCircuitBreaker_total.
    + apply cache_total.
Qed.

Lemma store_errors_witness :
  let w := World ∅ 1000 [true] in
  (checkCircuitBreaker "payments" 5 60000 w).1 = Ok true
  /\ (enqueueJob "mail" JNull 0 "0.25" w).1 = Err ConnectionError.
Proof.
  destruct (store_errors_degrade_to_defaults (V := json) (World ∅ 1000 [true]) eq_refl)
    as (_ & H2 & _ & H4 & _).
  destruct (H4 "mail" JNull 0 "0.25") as (w4 & E4 & _).
  cbv zeta. rewrite E4. split; [apply H2 | reflexivity].
Defined.

(** C7. At the failing input: the store unreachable, so that every command
    of the pipeline is rejected.  The promise of [pipeline.exec()] resolves
    all the same, with the error in each entry; the catch of
    [checkRateLimit], which would answer [{allowed: true, remaining: limit}],
    is not reached; the count read from the third entry is undefined, and
    the answer is a refusal with NaN remaining, where the claim has the
    limiter fail open. *)
Theorem C7_rate_limit_fails_closed :
  checkRateLimit "org1" "upload" 3 60 (World ∅ 1000 [true])
  = (Ok (RateLimit false None (Some 60000)), World ∅ 1000 []).
Proof. vm_compute. reflexivity. Qed.

(** ** Lock release *)

Lemma eval_release_cases (k tok : string) (t : Z) (s : gmap string entry) :
  (eval_release k tok t s = (Ok 1, delete k s)
   /\ exists exp, live t s k = Some (Entry (RString tok) exp))
  \/ ((exists r, eval_release k tok t s = (r, s) /\ r <> Ok 1)
      /\ forall exp, live t s k <> Some (Entry (RString tok) exp)).
Proof.
  unfold eval_release, get, del.
  destruct (live t s k) as [[[v|z|h] exp]|] eqn:E.
  - destruct (String.eqb_spec v tok) as [->|Hne].
    + left. split; [reflexivity | eauto].
    + right. split; [eexists; split; [reflexivity | discriminate] | congruence].
  - right. split; [eexists; split; [reflexivity | discriminate] | congruence].
  - right. split; [eexists; split; [reflexivity | discriminate] | congruence].
  - right. split; [eexists; split; [reflexivity | discriminate] | congruence].
Qed.

Lemma holder_Some (w : world) (k tok : string) :
  holder w k = Some tok <-> exists exp, stored w k = Some (Entry (RString tok) exp).
Proof.
  unfold holder. destruct (stored w k) as [[[v|z|h] exp]|]; split;
    try (intros [= ->]; eauto); try (intros [exp' [= -> ->]]; reflexivity);
    intros [exp' H]; discriminate.
Qed.

(** C2. [releaseLock(key, token)] is one round trip (the script); it returns
    true exactly when the store is reached and the value stored at the key is
    the token, and then the key is deleted; in every other case (another
    value, no value, a store error) it returns false and the key space is
    left as it was. *)
Theorem C2_release_lock (key token : string) (w : world) :
  let r := (releaseLock key token w).1 in
  let w' := (releaseLock key token w).2 in
  (r = Ok true <-> holder w key = Some token /\ ~ unreachable w)
  /\ (r = Ok true -> kv w' = delete key (kv w) /\ holder w' key = None)
  /\ (r <> Ok true -> r = Ok false /\ kv w' = kv w /\ holder w' key = holder w key)
  /\ faults w' = tail (faults w)
  /\ clock w' = clock w.
Proof.
  cbv zeta. unfold releaseLock, try_catch, bind, call, ret, unreachable.
  rewrite holder_Some. unfold holder, stored.
  destruct w as [s t fs]. cbn [faults kv clock].
  destruct fs as [|[] fs]; cbn [head tail].
  2: { cbn. repeat split; try congruence; try discriminate.
       intros [_ H]. now destruct H. }
  all: destruct (eval_release_cases key token t s) as [[E [exp Hl]]|[(r & E & Hr) Hl]];
    rewrite E; cbn [fst snd kv clock faults].
  all: try (change (1 =? 1) with true; cbn [fst snd kv clock faults];
            rewrite live_delete_eq;
            repeat split; try congruence; try discriminate; eauto).
  all: destruct r as [z|e]; cbn [fst snd kv clock faults];
    try (destruct (Z.eqb_spec z 1) as [->|Hz]; [congruence |]);
    repeat split; try congruence; try discriminate;
    try (intros [[exp H] _]; destruct (Hl exp H)).
Qed.

(** ** Circuit breaker: what the check depends on *)

Lemma circuit_keys_distinct (serviceName : string) :
  failure_key serviceName <> state_key serviceName
  /\ failure_key serviceName <> last_failure_key serviceName
  /\ state_key serviceName <> last_failure_key serviceName.
Proof.
  unfold failure_key, state_key, last_failure_key.
  repeat split; intros H; apply String.app_inj in H; apply String.app_inj in H;
    discriminate.
Qed.

Lemma get_counter (k : string) (t : Z) (s : gmap string entry) :
  counter_at k s -> exists o, get k t s = (Ok o, s).
Proof.
  unfold counter_at, get, live.
  destruct (s !! k) as [[[v|z|h] exp]|]; intros H; try (exfalso; exact H);
    try destruct (expired t _); eauto.
Qed.

Lemma get_agree (k k' : string) (t : Z) (s1 s2 : gmap string entry) :
  agree_except k s1 s2 -> k' <> k -> (get k' t s1).1 = (get k' t s2).1.
Proof.
  intros H Hne. unfold get, live. rewrite (H k' Hne).
  destruct (s2 !! k') as [[[v|z|h] exp]|]; try destruct (expired t _); reflexivity.
Qed.

Lemma agree_insert (k k' : string) (e : entry) (s1 s2 : gmap string entry) :
  agree_except k s1 s2 -> agree_except k (<[k' := e]> s1) (<[k' := e]> s2).
Proof.
  intros H j Hj. destruct (decide (k' = j)) as [->|Hne].
  - now rewrite !lookup_insert_eq.
  - rewrite !lookup_insert_ne by assumption. auto.
Qed.

Lemma agree_delete (k : string) (s1 s2 : gmap string entry) :
  agree_except k s1 s2 -> delete k s1 = delete k s2.
Proof.
  intros H. apply map_eq. intros j. destruct (decide (k = j)) as [->|Hne].
  - now rewrite !lookup_delete_eq.
  - rewrite !lookup_delete_ne by assumption. auto.
Qed.

(** A relational reading of the monad: the two runs stay related as long as
    they branch on related values only. *)
Section BlindRuns.
Import Blind.
Variable fk : string.
Variables s1 s2 : gmap string entry.
Abbreviation Rel := (Rel fk s1 s2).
Abbreviation related := (related fk s1 s2).

Lemma related_ret {A} (RA : A -> A -> Prop) (a b : A) :
  RA a b -> related RA (ret a) (ret b).
Proof. intros H d w1 w2 HR. split; [exact H | eauto]. Qed.

Lemma related_bind {A B} (RA : A -> A -> Prop) (RB : B -> B -> Prop)
    (m1 m2 : M A) (f1 f2 : A -> M B) :
  related RA m1 m2 ->
  (forall a b, RA a b -> related RB (f1 a) (f2 b)) ->
  related RB (bind m1 f1) (bind m2 f2).
Proof.
  intros Hm Hf d w1 w2 HR. unfold bind.
  destruct (Hm d w1 w2 HR) as [Hres [d' HR']].
  destruct (m1 w1) as [[a|e1] w1'], (m2 w2) as [[b|e2] w2'];
    cbn [fst snd] in *; try contradiction.
  - exact (Hf a b Hres d' w1' w2' HR').
  - split; [exact Hres | eauto].
Qed.

Lemma related_catch {A} (RA : A -> A -> Prop) (m1 m2 : M A) (h1 h2 : error -> M A) :
  related RA m1 m2 ->
  (forall e, related RA (h1 e) (h2 e)) ->
  related RA (try_catch m1 h1) (try_catch m2 h2).
Proof.
  intros Hm Hh d w1 w2 HR. unfold try_catch.
  destruct (Hm d w1 w2 HR) as [Hres [d' HR']].
  destruct (m1 w1) as [[a|e1] w1'], (m2 w2) as [[b|e2] w2'];
    cbn [fst snd] in *; try contradiction.
  - split; [exact Hres | eauto].
  - cbn [res_rel] in Hres. subst e2. exact (Hh e1 d' w1' w2' HR').
Qed.

Lemma related_date_now : related eq date_now date_now.
Proof. intros d w1 w2 HR. split; [apply HR | eauto]. Qed.

(** A command on another key than [fk] that answers and writes the same
    on key spaces that agree at its key. *)
Lemma related_get (k : string) : k <> fk -> related eq (call (get k)) (call (get k)).
Proof.
  intros Hk d [sa t fs] [sb t' fs'] (Ht & Hf & Hag & Hca & Hcb & Hd).
  cbn [clock faults kv] in *. subst t' fs'.
  pose proof (get_agree fk k t sa sb Hag Hk) as Hg.
  pose proof (get_reads k t sa) as Ha. pose proof (get_reads k t sb) as Hb.
  unfold call. cbn [clock faults kv].
  destruct (get k t sa) as [ra xa], (get k t sb) as [rb xb]. cbn [fst snd] in *.
  subst xa xb rb.
  destruct fs as [|[] fs]; cbn [fst snd].
  - split; [destruct ra; reflexivity | exists d; repeat split; assumption].
  - split; [reflexivity | exists d; repeat split; assumption].
  - split; [destruct ra; reflexivity | exists d; repeat split; assumption].
Qed.

Lemma counter_insert_ne (k : string) (e : entry) (s : gmap string entry) :
  k <> fk -> counter_at fk s -> counter_at fk (<[k := e]> s).
Proof. intros Hk. unfold counter_at. now rewrite lookup_insert_ne. Qed.

Lemma related_set (k v : string) : k <> fk -> related eq (call (set k v)) (call (set k v)).
Proof.
  intros Hk d [sa t fs] [sb t' fs'] (Ht & Hf & Hag & Hca & Hcb & Hd).
  cbn [clock faults kv] in *. subst t' fs'.
  unfold call, set. cbn [clock faults kv].
  destruct fs as [|[] fs]; cbn [fst snd]; (split; [reflexivity |]); exists d;
    repeat split; cbn [clock faults kv]; auto using agree_insert, counter_insert_ne;
    try (rewrite !lookup_insert_ne by assumption; assumption).
Qed.

Lemma related_del_fk :
  related (fun _ _ => True) (call (del fk)) (call (del fk)).
Proof.
  intros d [sa t fs] [sb t' fs'] (Ht & Hf & Hag & Hca & Hcb & Hd).
  cbn [clock faults kv] in *. subst t' fs'.
  assert (Hdel : Rel true (World (delete fk sa) t (tail fs))
                          (World (delete fk sb) t (tail fs))).
  { repeat split; cbn [clock faults kv];
      try (unfold counter_at; now rewrite lookup_delete_eq);
      try apply lookup_delete_eq.
    rewrite (agree_delete fk sa sb Hag). intros j _. reflexivity. }
  unfold call, del. cbn [clock faults kv].
  destruct fs as [|[] fs]; cbn [fst snd tail] in *.
  - destruct (live t sa fk), (live t sb fk); cbn [fst snd]; split; eauto; exact I.
  - split; [reflexivity |]. exists d. repeat split; assumption.
  - destruct (live t sa fk), (live t sb fk); cbn [fst snd]; split; eauto; exact I.
Qed.

(** The two reads at the head of the check: the counters read may differ,
    the states read are the same. *)
Lemma related_both (k : string) :
  k <> fk ->
  related (fun x y : option string * option string => x.2 = y.2)
          (call_both (get fk) (get k)) (call_both (get fk) (get k)).
Proof.
  intros Hk d [sa t fs] [sb t' fs'] HR.
  pose proof HR as (Ht & Hf & Hag & Hca & Hcb & Hd).
  cbn [clock faults kv] in *. subst t' fs'.
  destruct (get_counter fk t sa Hca) as [ca Hga].
  destruct (get_counter fk t sb Hcb) as [cb Hgb].
  unfold call_both.
  assert (H1 : exists r1 r2,
             call (get fk) (World sa t fs) = (r1, World sa t (tail fs))
             /\ call (get fk) (World sb t fs) = (r2, World sb t (tail fs))
             /\ ((exists a b, r1 = Ok a /\ r2 = Ok b)
                 \/ (exists e, r1 = Err e /\ r2 = Err e))).
  { unfold call. cbn [clock faults kv]. rewrite Hga, Hgb.
    destruct fs as [|[] fs]; cbn [tail]; do 2 eexists;
      (split; [reflexivity | split; [reflexivity | eauto]]). }
  destruct H1 as (r1 & r2 & E1 & E2 & Hr). rewrite E1, E2.
  assert (HR' : Rel d (World sa t (tail fs)) (World sb t (tail fs)))
    by (repeat split; assumption).
  destruct (related_get k Hk d _ _ HR') as [Hres [d' HRd]].
  destruct (call (get k) (World sa t (tail fs))) as [ra wa].
  destruct (call (get k) (World sb t (tail fs))) as [rb wb].
  cbn [fst snd] in *.
  destruct Hr as [(a & b & -> & ->)|(e & -> & ->)];
    destruct ra as [y|e1], rb as [z|e2]; cbn in Hres; try contradiction;
    cbn [fst snd res_rel]; split; eauto.
Qed.

Lemma res_rel_eq {A} (r1 r2 : result A) : res_rel eq r1 r2 -> r1 = r2.
Proof. destruct r1, r2; cbn; intros H; try contradiction; congruence. Qed.

End BlindRuns.

Lemma checkCircuitBreaker_related (serviceName : string) (ft ft' rt : Z)
    (s1 s2 : gmap string entry) :
  Blind.related (failure_key serviceName) s1 s2 eq
    (checkCircuitBreaker serviceName ft rt) (checkCircuitBreaker serviceName ft' rt).
Proof.
  destruct (circuit_keys_distinct serviceName) as (Hfs & Hfl & Hsl).
  apply not_eq_sym in Hfs, Hfl.
  unfold checkCircuitBreaker.
  apply related_catch; [| intros; now apply related_ret].
  eapply related_bind; [apply related_both; exact Hfs |].
  intros [c1 st1] [c2 st2] E. cbn [snd] in E. subst st2. cbv zeta.
  destruct (decide (st1 = Some "open")).
  - eapply related_bind; [apply related_get; exact Hfl |].
    intros l1 l2 <-.
    eapply related_bind; [apply related_date_now |].
    intros n1 n2 <-.
    destruct (truthy l1 && _).
    + eapply related_bind; [apply related_set; exact Hfs |].
      intros; now apply related_ret.
    + now apply related_ret.
  - destruct (decide (st1 = Some "half-open")).
    + eapply related_bind; [apply related_set; exact Hfs |].
      intros _ _ _.
      eapply related_bind; [apply related_del_fk |].
      intros; now apply related_ret.
    + now apply related_ret.
Qed.

(** C9. What [checkCircuitBreaker] returns and what it writes depend neither
    on its [failureThreshold] argument nor on the failures counter it reads:
    two runs that differ in the threshold only are equal; two runs (with any
    thresholds) on key spaces that differ in the failures counter only return
    the same value and end in key spaces that are equal at every other key
    (the state and the last failure among them), the counter being deleted in
    both runs or left as it was in both. *)
Theorem C9_check_ignores_threshold_and_count (serviceName : string)
    (ft ft' rt t : Z) (fs : list bool) (s1 s2 : gmap string entry) :
  let fk := failure_key serviceName in
  agree_except fk s1 s2 -> counter_at fk s1 -> counter_at fk s2 ->
  let o1 := checkCircuitBreaker serviceName ft rt (World s1 t fs) in
  let o2 := checkCircuitBreaker serviceName ft' rt (World s2 t fs) in
  (forall w, checkCircuitBreaker serviceName ft rt w
             = checkCircuitBreaker serviceName ft' rt w)
  /\ o1.1 = o2.1
  /\ clock o1.2 = clock o2.2 /\ faults o1.2 = faults o2.2
  /\ agree_except fk (kv o1.2) (kv o2.2)
  /\ ((kv o1.2 !! fk = None /\ kv o2.2 !! fk = None)
      \/ (kv o1.2 !! fk = s1 !! fk /\ kv o2.2 !! fk = s2 !! fk)).
Proof.
  intros fk Hag Hc1 Hc2 o1 o2. split; [reflexivity |].
  assert (HR : Blind.Rel fk s1 s2 false (World s1 t fs) (World s2 t fs))
    by (repeat split; assumption).
  destruct (checkCircuitBreaker_related serviceName ft ft' rt s1 s2 false _ _ HR)
    as [Hres [d (Hclock & Hfaults & Hagree & _ & _ & Hd)]].
  fold o1 o2 in Hres, Hclock, Hfaults, Hagree, Hd.
  split; [now apply res_rel_eq in Hres |].
  split; [exact Hclock |]. split; [exact Hfaults |]. split; [exact Hagree |].
  destruct d; [left | right]; exact Hd.
Qed.

Lemma C9_witness :
  let s1 : gmap string entry :=
    {[ "circuit:payments:failures" := Entry (RString "7") None;
       "circuit:payments:state" := Entry (RString "half-open") None ]} in
  let s2 : gmap string entry :=
    {[ "circuit:payments:failures" := Entry (RString "2") None;
       "circuit:payments:state" := Entry (RString "half-open") None ]} in
  (checkCircuitBreaker "payments" 5 60000 (World s1 1000 [])).1
  = (checkCircuitBreaker "payments" 1 60000 (World s2 1000 [])).1.
Proof.
  intros s1 s2.
  refine (proj1 (proj2 (C9_check_ignores_threshold_and_count "payments" 5 1 60000 1000 []
                          s1 s2 _ _ _))).
  - intros k Hk. subst s1 s2.
    rewrite !lookup_insert_ne by (intros E; apply Hk; symmetry; exact E).
    reflexivity.
  - vm_compute. exact I.
  - vm_compute. exact I.
Defined.

(** ** Circuit breaker: the threshold *)

Section Breaker.
Variable serviceName : string.

Lemma record_failure_available (n : Z) (w : world) :
  faults w = [] -> 0 <= n < int64_max -> failures_at serviceName n (kv w) ->
  recordCircuitBreakerFailure serviceName w
  = (Ok tt, World (recorded serviceName (n + 1) (clock w) (kv w)) (clock w) []).
Proof.
  intros Hf Hn Hat. unfold recordCircuitBreakerFailure, try_catch, bind, date_now.
  rewrite call_available by assumption.
  assert (Hincr : incr (failure_key serviceName) (clock w) (kv w)
                  = (Ok (n + 1),
                     <[failure_key serviceName := Entry (RString (toString (n + 1))) None]>
                       (kv w))).
  { unfold incr, live. destruct Hat as [[-> ->] | ->]; [reflexivity |].
    cbn [expired e_exp]. rewrite JsTextFacts.string2ll_toString
      by (unfold int64_min, int64_max in *; lia).
    destruct (Z.ltb_spec n int64_max); [reflexivity | lia]. }
  rewrite Hincr. rewrite call_available by reflexivity. cbn [kv clock set].
  unfold recorded. destruct (5 <=? n + 1); [| reflexivity].
  rewrite call_available by reflexivity. reflexivity.
Qed.

Lemma recorded_failures (n now : Z) (s : gmap string entry) :
  failures_at serviceName n (recorded serviceName n now s).
Proof.
  destruct (circuit_keys_distinct serviceName) as (Hfs & Hfl & Hsl).
  right. unfold recorded. destruct (5 <=? n).
  - rewrite lookup_insert_ne by (apply not_eq_sym; exact Hfs).
    rewrite lookup_insert_ne by (apply not_eq_sym; exact Hfl).
    apply lookup_insert_eq.
  - rewrite lookup_insert_ne by (apply not_eq_sym; exact Hfl).
    apply lookup_insert_eq.
Qed.

Lemma recorded_state_below_five (n now : Z) (s : gmap string entry) :
  n < 5 ->
  recorded serviceName n now s !! state_key serviceName = s !! state_key serviceName.
Proof.
  intros Hn. destruct (circuit_keys_distinct serviceName) as (Hfs & Hfl & Hsl).
  unfold recorded. destruct (Z.leb_spec 5 n); [lia |].
  rewrite lookup_insert_ne by (apply not_eq_sym; exact Hsl).
  now rewrite lookup_insert_ne by exact Hfs.
Qed.

(** [k] failures in a row, recorded at one instant. *)
Lemma record_failures (k : nat) (n : Z) (w : world) :
  faults w = [] -> 0 <= n -> n + Z.of_nat k < int64_max ->
  failures_at serviceName n (kv w) ->
  (0 < k)%nat ->
  exists s,
    times k (recordCircuitBreakerFailure serviceName) w
    = World (recorded serviceName (n + Z.of_nat k) (clock w) s) (clock w) []
    /\ (n + Z.of_nat k <= 5 ->
        s !! state_key serviceName = kv w !! state_key serviceName).
Proof.
  intros Hf Hn Hk Hat Hpos. induction k as [|k IH]; [lia |].
  change (times (S k) (recordCircuitBreakerFailure serviceName) w)
    with ((recordCircuitBreakerFailure serviceName
             (times k (recordCircuitBreakerFailure serviceName) w)).2).
  destruct k as [|k].
  - change (times 0 (recordCircuitBreakerFailure serviceName) w) with w.
    rewrite (record_failure_available n w Hf) by (assumption || lia).
    cbn [snd]. exists (kv w). split; reflexivity.
  - destruct IH as (s & IH & Hstate); [lia | lia |]. rewrite IH.
    rewrite (record_failure_available (n + Z.of_nat (S k)))
      by (reflexivity || lia || apply recorded_failures).
    cbn [snd kv clock].
    replace (n + Z.of_nat (S (S k))) with (n + Z.of_nat (S k) + 1) by lia.
    eexists. split; [reflexivity |]. intros Hle.
    rewrite recorded_state_below_five by lia. apply Hstate. lia.
Qed.

Lemma get_plain (k v : string) (t : Z) (s : gmap string entry) :
  s !! k = Some (Entry (RString v) None) -> get k t s = (Ok (Some v), s).
Proof. intros H. unfold get, live. rewrite H. reflexivity. Qed.

Lemma recorded_open (n t0 : Z) (s : gmap string entry) :
  5 <= n ->
  recorded serviceName n t0 s !! failure_key serviceName
  = Some (Entry (RString (toString n)) None)
  /\ recorded serviceName n t0 s !! state_key serviceName
     = Some (Entry (RString "open") None)
  /\ recorded serviceName n t0 s !! last_failure_key serviceName
     = Some (Entry (RString (toString t0)) None).
Proof.
  intros Hn. destruct (circuit_keys_distinct serviceName) as (Hfs & Hfl & Hsl).
  unfold recorded. destruct (Z.leb_spec 5 n); [| lia]. split; [| split].
  - rewrite lookup_insert_ne by (apply not_eq_sym; exact Hfs).
    rewrite lookup_insert_ne by (apply not_eq_sym; exact Hfl).
    apply lookup_insert_eq.
  - apply lookup_insert_eq.
  - rewrite lookup_insert_ne by exact Hsl. apply lookup_insert_eq.
Qed.

(** An open circuit whose last failure is at [t0]. *)
Lemma check_open (ft rt t0 n : Z) (s : gmap string entry) (now : Z) :
  5 <= n ->
  let w := World (recorded serviceName n t0 s) now [] in
  checkCircuitBreaker serviceName ft rt w =
  if rt <? now - t0
  then (Ok true,
        World (<[state_key serviceName := Entry (RString "half-open") None]>
                 (recorded serviceName n t0 s)) now [])
  else (Ok false, w).
Proof.
  intros Hn w. subst w.
  destruct (recorded_open n t0 s Hn) as (Hf & Hs & Hl).
  unfold checkCircuitBreaker, try_catch, bind, call_both, date_now.
  rewrite call_available by reflexivity. cbn [kv clock faults].
  rewrite (get_plain _ _ _ _ Hf).
  rewrite call_available by reflexivity. cbn [kv clock faults].
  rewrite (get_plain _ _ _ _ Hs).
  rewrite decide_True by reflexivity.
  rewrite call_available by reflexivity. cbn [kv clock faults].
  rewrite (get_plain _ _ _ _ Hl).
  assert (Htruthy : truthy (Some (toString t0)) = true).
  { unfold truthy. destruct (String.eqb_spec (toString t0) ""); [| reflexivity].
    now destruct (JsTextFacts.toString_nonempty t0). }
  rewrite Htruthy. change (default "" (Some (toString t0))) with (toString t0).
  rewrite JsTextFacts.parseInt_toString. cbn [andb clock].
  destruct (rt <? now - t0); [| reflexivity].
  rewrite call_available by reflexivity. reflexivity.
Qed.

(** A half-open circuit is closed by the next check. *)
Lemma check_half_open (ft rt now : Z) (s : gmap string entry) :
  counter_at (failure_key serviceName) s ->
  let w := World (<[state_key serviceName := Entry (RString "half-open") None]> s) now [] in
  checkCircuitBreaker serviceName ft rt w =
  (Ok true,
   World (delete (failure_key serviceName)
            (<[state_key serviceName := Entry (RString "closed") None]>
               (<[state_key serviceName := Entry (RString "half-open") None]> s)))
         now []).
Proof.
  intros Hc w. subst w.
  destruct (circuit_keys_distinct serviceName) as (Hfs & Hfl & Hsl).
  unfold checkCircuitBreaker, try_catch, bind, call_both, date_now.
  rewrite call_available by reflexivity. cbn [kv clock faults].
  destruct (get_counter (failure_key serviceName) now
              (<[state_key serviceName := Entry (RString "half-open") None]> s))
    as [c Hg].
  { unfold counter_at in *. rewrite lookup_insert_ne by (apply not_eq_sym; exact Hfs).
    exact Hc. }
  rewrite Hg. rewrite call_available by reflexivity. cbn [kv clock faults].
  rewrite (get_plain (state_key serviceName) "half-open")
    by apply lookup_insert_eq.
  rewrite decide_False by discriminate. rewrite decide_True by reflexivity.
  rewrite call_available by reflexivity. cbn [kv clock faults set fst snd].
  rewrite call_available by reflexivity. cbn [kv clock faults].
  unfold del. destruct (live _ _ _); reflexivity.
Qed.

(** X11. The claim on the circuit breaker, where it holds: five failures or more
    on a service without failures open the circuit; whatever the threshold
    passed to it, the check refuses until the recovery timeout has passed
    since the last failure, then permits one call and leaves the circuit
    half-open, and the next check permits and closes it, the failures
    cleared. *)
Lemma breaker_opens_at_five_failures (ft rt : Z) (k : nat) (w : world) :
  faults w = [] -> failures_at serviceName 0 (kv w) ->
  (5 <= k)%nat -> Z.of_nat k < int64_max ->
  let w1 := times k (recordCircuitBreakerFailure serviceName) w in
  (forall d, d <= rt ->
     (checkCircuitBreaker serviceName ft rt (elapse d w1)).1 = Ok false
     /\ kv (checkCircuitBreaker serviceName ft rt (elapse d w1)).2 = kv w1)
  /\ (forall d, rt < d ->
        let w2 := after (checkCircuitBreaker serviceName ft rt) (elapse d w1) in
        (checkCircuitBreaker serviceName ft rt (elapse d w1)).1 = Ok true
        /\ holder w2 (state_key serviceName) = Some "half-open"
        /\ forall d',
             let w3 := after (checkCircuitBreaker serviceName ft rt) (elapse d' w2) in
             (checkCircuitBreaker serviceName ft rt (elapse d' w2)).1 = Ok true
             /\ holder w3 (state_key serviceName) = Some "closed"
             /\ holder w3 (failure_key serviceName) = None).
Proof.
  intros Hf Hat Hk Hmax w1.
  destruct (circuit_keys_distinct serviceName) as (Hfs & Hfl & Hsl).
  destruct (record_failures k 0 w Hf ltac:(lia) ltac:(lia) Hat ltac:(lia)) as (s & E & _).
  subst w1. rewrite E. unfold elapse, after. cbn [kv clock faults].
  split.
  - intros d Hd. rewrite check_open by lia.
    destruct (Z.ltb_spec rt (clock w + d - clock w)); [lia |]. split; reflexivity.
  - intros d Hd. cbv zeta. rewrite check_open by lia.
    destruct (Z.ltb_spec rt (clock w + d - clock w)); [| lia].
    cbn [fst snd kv clock faults].
    split; [reflexivity |]. split.
    + unfold holder, stored, live. cbn [kv clock]. now rewrite lookup_insert_eq.
    + intros d'. rewrite check_half_open.
      2: { pose proof (recorded_failures (0 + Z.of_nat k) (clock w) s) as [[Hx _] | Hx];
           unfold counter_at; now rewrite Hx. }
      cbn [fst snd kv clock]. split; [reflexivity |]. split.
      * unfold holder, stored, live. cbn [kv clock].
        rewrite lookup_delete_ne by exact Hfs. now rewrite lookup_insert_eq.
      * unfold holder, stored, live. cbn [kv clock]. now rewrite lookup_delete_eq.
Qed.

(** X12. The defect, in general: below five failures the circuit of a service
    without failures stays closed, whatever threshold the check is given. *)
Lemma breaker_closed_below_five (ft rt : Z) (k : nat) (w : world) :
  faults w = [] -> failures_at serviceName 0 (kv w) ->
  kv w !! state_key serviceName = None ->
  (0 < k < 5)%nat ->
  forall d,
    (checkCircuitBreaker serviceName ft rt
       (elapse d (times k (recordCircuitBreakerFailure serviceName) w))).1 = Ok true.
Proof.
  intros Hf Hat Hstate Hk d.
  destruct (record_failures k 0 w Hf ltac:(lia) ltac:(unfold int64_max; lia) Hat ltac:(lia))
    as (s & E & Hs).
  rewrite E. unfold elapse. cbn [kv clock faults].
  unfold checkCircuitBreaker, try_catch, bind, call_both.
  rewrite call_available by reflexivity. cbn [kv clock faults].
  destruct (get_counter (failure_key serviceName) (clock w + d)
              (recorded serviceName (0 + Z.of_nat k) (clock w) s)) as [c Hg].
  { pose proof (recorded_failures (0 + Z.of_nat k) (clock w) s) as [[Hx _] | Hx];
      unfold counter_at; now rewrite Hx. }
  rewrite Hg. rewrite call_available by reflexivity. cbn [kv clock faults].
  unfold get, live. rewrite recorded_state_below_five by lia.
  rewrite Hs by lia. rewrite Hstate. cbn [fst snd].
  rewrite decide_False by discriminate. rewrite decide_False by discriminate.
  reflexivity.
Qed.

End Breaker.

(** The scenario of the specification, at the threshold that the service
    hard-codes: five failures open the circuit; a check within the recovery
    timeout is refused; after 61 seconds one check passes (half-open), the
    next passes and clears the failures (closed). *)
Lemma breaker_scenario_threshold_five :
  let w5 := times 5 (recordCircuitBreakerFailure "payments") (World ∅ 1000 []) in
  let w6 := after (checkCircuitBreaker "payments" 5 60000) (elapse 61000 w5) in
  let w7 := after (checkCircuitBreaker "payments" 5 60000) w6 in
  (checkCircuitBreaker "payments" 5 60000 w5).1 = Ok false
  /\ (checkCircuitBreaker "payments" 5 60000 (elapse 60000 w5)).1 = Ok false
  /\ (checkCircuitBreaker "payments" 5 60000 (elapse 61000 w5)).1 = Ok true
  /\ holder w6 (state_key "payments") = Some "half-open"
  /\ (checkCircuitBreaker "payments" 5 60000 w6).1 = Ok true
  /\ holder w7 (state_key "payments") = Some "closed"
  /\ holder w7 (failure_key "payments") = None.
Proof. vm_compute. repeat split; reflexivity. Qed.

(** C3. At the failing input: with a threshold of 3, three recorded failures
    leave the circuit closed (the state key is not written, the counter is
    at 3) and the check still permits the call, where the claim has it
    refused.  [recordCircuitBreakerFailure] opens the circuit at five
    failures whatever the threshold passed to the check. *)
Theorem C3_threshold_three_not_honoured :
  let w3 := times 3 (recordCircuitBreakerFailure "payments") (World ∅ 1000 []) in
  holder w3 (failure_key "payments") = Some "3"
  /\ holder w3 (state_key "payments") = None
  /\ (checkCircuitBreaker "payments" 3 60000 w3).1 = Ok true.
Proof. vm_compute. repeat split; reflexivity. Qed.

(** ** Rate limiter *)

Section OneWindow.
Variables identifier action : string.
Variables limit windowSeconds : Z.
Hypothesis window_positive : 0 < windowSeconds.

Lemma window_start_le (now : Z) :
  0 <= now -> now / (1000 * windowSeconds) * windowSeconds <= now.
Proof.
  intros Hnow.
  pose proof (Z.mul_div_le now (1000 * windowSeconds) ltac:(lia)).
  pose proof (Z.div_pos now (1000 * windowSeconds) Hnow ltac:(lia)). nia.
Qed.

(** The four commands of a check, on a set of earlier entries of the
    window: nothing is pruned, the new entry is new, all are counted. *)
Lemma batch_counts (key : string) (now : Z) (s : gmap string entry) (z : gmap string Z) :
  let ws := now / (1000 * windowSeconds) * windowSeconds in
  0 <= now -> rate_set key now s z -> earlier_entries ws now z ->
  exists r0 r1 r3 s',
    run_batch [ zremrangebyscore key (Some 0) (Some (ws - windowSeconds));
                zadd key now (toString now);
                zcount_from key (Some ws);
                expire key (windowSeconds * 2) ] now s
    = ([r0; r1; Ok (Z.of_nat (size z) + 1); r3], s')
    /\ s' !! key = Some (Entry (RZSet (<[toString now := now]> z))
                           (Some (now + windowSeconds * 2 * 1000))).
Proof.
  intros ws Hnow Hset Hz.
  assert (Hws : ws <= now) by (apply window_start_le; exact Hnow).
  assert (Hfresh : z !! toString now = None).
  { destruct (z !! toString now) as [sc|] eqn:E; [| reflexivity].
    destruct (Hz _ _ E) as [Hm Hsc]. apply JsTextFacts.toString_inj in Hm. lia. }
  assert (Hkeep : filter (fun p : string * Z =>
                            negb ((0 <=? p.2) && (p.2 <=? ws - windowSeconds))) z = z).
  { apply map_filter_id. intros m sc E. destruct (Hz _ _ E) as [_ Hsc]. cbn.
    destruct (Z.leb_spec sc (ws - windowSeconds)); [lia |].
    rewrite andb_false_r. exact I. }
  assert (Hcount : size (filter (fun p : string * Z => ws <=? p.2)
                           (<[toString now := now]> z)) = S (size z)).
  { rewrite map_filter_id; [now apply map_size_insert_None |].
    intros m sc E. cbn. destruct (decide (toString now = m)) as [<-|Hne].
    - rewrite lookup_insert_eq in E. injection E as <-.
      destruct (Z.leb_spec ws now); [exact I | lia].
    - rewrite lookup_insert_ne in E by assumption. destruct (Hz _ _ E) as [_ Hsc].
      destruct (Z.leb_spec ws sc); [exact I | lia]. }
  assert (Hexpire : (windowSeconds * 2 <=? 0) = false)
    by (destruct (Z.leb_spec (windowSeconds * 2) 0); [lia | reflexivity]).
  (* the key after the pruning: absent, or the same set *)
  assert (Hpruned : exists r0 s1,
             zremrangebyscore key (Some 0) (Some (ws - windowSeconds)) now s = (r0, s1)
             /\ ((live now s1 key = None /\ z = ∅)
                 \/ exists exp, live now s1 key = Some (Entry (RZSet z) exp))).
  { unfold zremrangebyscore. unfold rate_set in Hset.
    destruct (live now s key) as [[[v|z'|h] exp]|] eqn:El; try contradiction.
    - subst z'. rewrite Hkeep. unfold put_zset.
      assert (Hlive : expired now (Entry (RZSet z) exp) = false).
      { unfold live in El. destruct (s !! key) as [e|]; [| discriminate].
        destruct (expired now e) eqn:Ee; [discriminate |]. now injection El as ->. }
      destruct (decide (z = ∅)) as [Hempty|Hne]; do 2 eexists; (split; [reflexivity |]).
      + left. split; [apply live_delete_eq | exact Hempty].
      + right. exists exp. rewrite live_insert_eq, Hlive. reflexivity.
    - do 2 eexists. split; [reflexivity |]. left. auto. }
  destruct Hpruned as (r0 & s1 & E0 & Hs1).
  cbn [run_batch]. rewrite E0.
  assert (Hadded : exists r1 s2 exp,
             zadd key now (toString now) now s1 = (r1, s2)
             /\ s2 !! key = Some (Entry (RZSet (<[toString now := now]> z)) exp)
             /\ expired now (Entry (RZSet (<[toString now := now]> z)) exp) = false).
  { unfold zadd. destruct Hs1 as [[El ->] | [exp El]]; rewrite El.
    - do 3 eexists. split; [reflexivity |]. rewrite lookup_insert_eq, insert_empty.
      split; reflexivity.
    - do 3 eexists. split; [reflexivity |]. rewrite lookup_insert_eq.
      split; [reflexivity |].
      unfold live in El. destruct (s1 !! key) as [e|]; [| discriminate].
      destruct (expired now e) eqn:Ee; [discriminate |]. injection El as ->. exact Ee. }
  destruct Hadded as (r1 & s2 & exp & E1 & Hk2 & Hlive2). rewrite E1.
  assert (El2 : live now s2 key = Some (Entry (RZSet (<[toString now := now]> z)) exp))
    by (unfold live; now rewrite Hk2, Hlive2).
  unfold zcount_from at 1. rewrite El2, Hcount.
  unfold expire at 1. rewrite El2, Hexpire. cbn [run_batch].
  do 4 eexists. split.
  - repeat f_equal. lia.
  - apply lookup_insert_eq.
Qed.

(** One check on earlier entries of the window (the store reachable). *)
Lemma checkRateLimit_counts (w : world) (z : gmap string Z) :
  let key := rate_key identifier action in
  let bucket := clock w / (1000 * windowSeconds) in
  faults w = [] -> 0 <= clock w ->
  rate_set key (clock w) (kv w) z ->
  earlier_entries (bucket * windowSeconds) (clock w) z ->
  exists s',
    checkRateLimit identifier action limit windowSeconds w
    = (nth_answer limit windowSeconds bucket (Z.of_nat (size z) + 1),
       World s' (clock w) [])
    /\ s' !! key = Some (Entry (RZSet (<[toString (clock w) := clock w]> z))
                           (Some (clock w + windowSeconds * 2 * 1000))).
Proof.
  intros key bucket Hf Hnow Hset Hz.
  destruct (batch_counts key (clock w) (kv w) z Hnow Hset Hz)
    as (r0 & r1 & r3 & s' & E & Hk).
  exists s'. split; [| exact Hk].
  unfold checkRateLimit, bind, date_now, try_catch, exec, window_start.
  destruct (Z.eqb_spec windowSeconds 0); [lia |].
  rewrite Hf. cbn [tail fmap option_fmap option_map].
  fold key. rewrite E. reflexivity.
Qed.

Lemma bucket_bounds (now bucket : Z) :
  now / (1000 * windowSeconds) = bucket ->
  bucket * (1000 * windowSeconds) <= now < (bucket + 1) * (1000 * windowSeconds).
Proof.
  intros <-.
  pose proof (Z.mul_div_le now (1000 * windowSeconds) ltac:(lia)).
  pose proof (Z.mul_succ_div_gt now (1000 * windowSeconds) ltac:(lia)). lia.
Qed.

(** Checks at later and later instants of one bucket, after a check that
    left the set [z]. *)
Lemma rate_checks_counted (bucket : Z) (delays : list Z) (w : world)
    (z : gmap string Z) :
  let key := rate_key identifier action in
  faults w = [] -> 0 <= clock w ->
  clock w / (1000 * windowSeconds) = bucket ->
  kv w !! key = Some (Entry (RZSet z) (Some (clock w + windowSeconds * 2 * 1000))) ->
  (forall m sc, z !! m = Some sc ->
                m = toString sc /\ bucket * windowSeconds <= sc <= clock w) ->
  in_bucket windowSeconds bucket (clock w) delays ->
  (rate_checks identifier action limit windowSeconds delays w).1
  = window_answers limit windowSeconds bucket (Z.of_nat (size z) + 1) (length delays).
Proof.
  intros key. revert w z.
  induction delays as [|d ds IH]; intros w z Hf Hnow Hb Hk Hz Hds; [reflexivity |].
  destruct Hds as (Hd & Hbd & Hds). cbn [rate_checks length window_answers].
  pose proof (bucket_bounds _ _ Hb) as Hb1.
  pose proof (bucket_bounds _ _ Hbd) as Hb2.
  destruct (checkRateLimit_counts (elapse d w) z) as (s' & E & Hk').
  - exact Hf.
  - cbn [elapse clock]. lia.
  - unfold rate_set, live. cbn [elapse clock kv]. fold key. rewrite Hk.
    unfold expired. cbn [e_exp].
    destruct (Z.leb_spec (clock w + windowSeconds * 2 * 1000) (clock w + d)); [lia |].
    reflexivity.
  - cbn [elapse clock]. rewrite Hbd. intros m sc Hm.
    destruct (Hz m sc Hm) as [? ?]. split; [assumption | lia].
  - cbn [elapse clock] in E, Hk'. rewrite Hbd in E. fold key in Hk'. rewrite E.
    assert (Hfresh : z !! toString (clock w + d) = None).
    { destruct (z !! toString (clock w + d)) as [sc|] eqn:Ez; [| reflexivity].
      destruct (Hz _ _ Ez) as [Hm Hsc]. apply JsTextFacts.toString_inj in Hm. lia. }
    specialize (IH (World s' (clock w + d) []) (<[toString (clock w + d) := clock w + d]> z)).
    cbn [clock kv faults] in IH.
    destruct (rate_checks identifier action limit windowSeconds ds
                (World s' (clock w + d) [])) as [rs w2].
    cbn [fst] in *. f_equal.
    rewrite IH; try assumption; try reflexivity; try lia.
    + rewrite map_size_insert_None by assumption. f_equal. lia.
    + intros m sc Hm. destruct (decide (toString (clock w + d) = m)) as [<-|Hne].
      * rewrite lookup_insert_eq in Hm. injection Hm as <-.
        split; [reflexivity |]. split; [| lia].
        assert (0 <= bucket) by nia. nia.
      * rewrite lookup_insert_ne in Hm by assumption.
        destruct (Hz m sc Hm) as [? ?]. split; [assumption | lia].
Qed.

(** X15. The claim on the rate limiter, where it holds: on a key that the store
    does not hold, checks at pairwise distinct instants (in milliseconds) of
    one bucket are answered in order: the [i]-th is allowed when [i <= limit],
    with [max 0 (limit - i)] remaining. *)
Lemma rate_limit_one_window (bucket d0 : Z) (delays : list Z) (w : world) :
  faults w = [] -> 0 <= clock w -> 0 <= d0 ->
  kv w !! rate_key identifier action = None ->
  (clock w + d0) / (1000 * windowSeconds) = bucket ->
  in_bucket windowSeconds bucket (clock w + d0) delays ->
  (rate_checks identifier action limit windowSeconds (d0 :: delays) w).1
  = window_answers limit windowSeconds bucket 1 (S (length delays)).
Proof.
  intros Hf Hnow Hd0 Hk Hb Hds. cbn [rate_checks window_answers].
  pose proof (bucket_bounds _ _ Hb) as Hb1.
  destruct (checkRateLimit_counts (elapse d0 w) ∅) as (s' & E & Hk').
  - exact Hf.
  - cbn [elapse clock]. lia.
  - unfold rate_set, live. cbn [elapse clock kv]. now rewrite Hk.
  - intros m sc Hm. rewrite lookup_empty in Hm. discriminate.
  - cbn [elapse clock] in E, Hk'. rewrite Hb in E. rewrite E.
    pose proof (rate_checks_counted bucket delays (World s' (clock w + d0) [])
                  (<[toString (clock w + d0) := clock w + d0]> ∅)) as Hrest.
    cbn [clock kv faults] in Hrest.
    destruct (rate_checks identifier action limit windowSeconds delays
                (World s' (clock w + d0) [])) as [rs w2].
    cbn [fst] in *. f_equal.
    rewrite Hrest; try assumption; try reflexivity; try lia.
    + rewrite map_size_insert_None by apply lookup_empty. reflexivity.
    + intros m sc Hm. destruct (decide (toString (clock w + d0) = m)) as [<-|Hne].
      * rewrite lookup_insert_eq in Hm. injection Hm as <-.
        split; [reflexivity |]. split; [| lia].
        assert (0 <= bucket) by nia. nia.
      * rewrite lookup_insert_ne in Hm by assumption.
        rewrite lookup_empty in Hm. discriminate.
Qed.

End OneWindow.

(** The scenario of the specification: four checks with a limit of 3 in a
    window of 60 seconds, at distinct milliseconds. *)
Lemma rate_scenario_distinct_instants :
  (rate_checks "org1" "upload" 3 60 [0; 2000; 2000; 2000] (World ∅ 1700000000000 [])).1
  = [ Ok (RateLimit true (Some 2) (Some 1700000040000));
      Ok (RateLimit true (Some 1) (Some 1700000040000));
      Ok (RateLimit true (Some 0) (Some 1700000040000));
      Ok (RateLimit false (Some 0) (Some 1700000040000)) ].
Proof. vm_compute. reflexivity. Qed.

(** C4. At the failing input: two checks in the same millisecond with a limit
    of 1.  Both write the member [now.toString()], so the sorted set holds
    one entry and the second check, the (limit+1)-th of the window, is
    allowed, where the claim has it refused. *)
Theorem C4_same_millisecond_counted_once :
  (rate_checks "org1" "upload" 1 60 [0; 0] (World ∅ 1700000000000 [])).1
  = [ Ok (RateLimit true (Some 0) (Some 1700000040000));
      Ok (RateLimit true (Some 0) (Some 1700000040000)) ].
Proof. vm_compute. reflexivity. Qed.

(** C5. At the failing input: limit 1, window 60 s.  The first check (at
    1000.000 s) is allowed, the second (1 ms later) refused.  A third check
    100 s later lies in a new bucket, more than a window past the boundary
    (1020 s) of the first, and is refused still: the scores are milliseconds,
    the bounds of the pruning and of the count are seconds, so nothing is
    pruned and every entry is counted; the set still holds the two entries
    of the old bucket. *)
Theorem C5_new_bucket_still_refused :
  let run := rate_checks "org1" "upload" 1 60 [0; 1; 100000] (World ∅ 1000000 []) in
  run.1 = [ Ok (RateLimit true (Some 0) (Some 1020000));
            Ok (RateLimit false (Some 0) (Some 1020000));
            Ok (RateLimit false (Some 0) (Some 1140000)) ]
  /\ (e_val <$> stored run.2 (rate_key "org1" "upload"))
     = Some (RZSet {[ "1000000" := 1000000; "1000001" := 1000001;
                      "1100001" := 1100001 ]}).
Proof. vm_compute. split; reflexivity. Qed.

(** ** Lock acquisition *)

Section Acquire.
Import Contention.
Variable key : string.

(** An attempt on a key that is held fails and writes nothing. *)
Lemma set_nx_px_held (lockId : string) (ttl : Z) (w : world) :
  held_for key 0 w ->
  exists w', try_catch (call (set_nx_px key lockId ttl)) (fun _ => ret false) w
             = (Ok false, w')
             /\ kv w' = kv w /\ clock w' = clock w.
Proof.
  intros (e & He & Hexp). unfold try_catch, call, set_nx_px, live, expired.
  destruct w as [s t fs]. cbn [faults kv clock] in *. rewrite He.
  assert (Hlive : match e_exp e with Some t0 => t0 <=? t | None => false end = false).
  { destruct (e_exp e) as [x|]; [| reflexivity].
    destruct (Z.leb_spec x t); [lia | reflexivity]. }
  rewrite Hlive.
  destruct fs as [|[] fs]; cbn [tail]; destruct (ttl <=? 0); eauto.
Qed.

Lemma held_for_weaken (a b : Z) (w : world) :
  b <= a -> held_for key a w -> held_for key b w.
Proof.
  intros Hab (e & He & Hexp). exists e. split; [exact He |].
  destruct (e_exp e); [lia | exact I].
Qed.

Lemma held_for_later (a d : Z) (s : gmap string entry) (t : Z) (fs fs' : list bool) :
  held_for key a (World s t fs) -> held_for key (a - d) (World s (t + d) fs').
Proof.
  intros (e & He & Hexp). exists e. split; [exact He |].
  cbn [clock] in *. destruct (e_exp e); [lia | exact I].
Qed.

(** The loop on a key that stays held: no attempt succeeds. *)
Lemma acquire_loop_held (lockId : string) (ttl retryCount retryDelay : Z)
    (n : nat) (i : Z) (w : world) :
  held_for key ((Z.of_nat n - 1) * Z.max 0 retryDelay) w ->
  (acquire_loop key lockId ttl retryCount retryDelay n i w).1 = Ok None
  /\ kv (acquire_loop key lockId ttl retryCount retryDelay n i w).2 = kv w.
Proof.
  revert i w. induction n as [|n IH]; intros i w Hheld; [split; reflexivity |].
  assert (Hnow : held_for key 0 w).
  { apply (held_for_weaken ((Z.of_nat (S n) - 1) * Z.max 0 retryDelay)); [lia | exact Hheld]. }
  destruct (set_nx_px_held lockId ttl w Hnow) as (w1 & E & Hkv & Hclock).
  assert (Eq : acquire_loop key lockId ttl retryCount retryDelay (S n) i w
               = acquire_loop key lockId ttl retryCount retryDelay n (i + 1)
                   (if i <? retryCount - 1
                    then World (kv w1) (clock w1 + Z.max 0 retryDelay) (faults w1)
                    else w1)).
  { cbn [acquire_loop]. unfold bind. rewrite E. destruct (i <? _); reflexivity. }
  rewrite Eq. clear Eq.
  assert (Hnext : forall w2, kv w2 = kv w1 ->
            clock w1 <= clock w2 <= clock w1 + Z.max 0 retryDelay ->
            held_for key ((Z.of_nat n - 1) * Z.max 0 retryDelay) w2).
  { intros w2 Hkv2 Hc2. destruct Hheld as (e & He & Hexp). exists e.
    split; [congruence |]. destruct (e_exp e); [nia | exact I]. }
  destruct (i <? retryCount - 1).
  - destruct (IH (i + 1) (World (kv w1) (clock w1 + Z.max 0 retryDelay) (faults w1)))
      as [H1 H2]; [apply Hnext; cbn; [reflexivity | lia] |].
    split; [exact H1 | rewrite H2; exact Hkv].
  - destruct (IH (i + 1) w1) as [H1 H2]; [apply Hnext; [reflexivity | lia] |].
    split; [exact H1 | rewrite H2; exact Hkv].
Qed.

(** The retry loop is a sequence of attempts of one caller. *)
Lemma acquire_loop_attempt (lockId : string) (ttl retryCount retryDelay : Z)
    (n : nat) (i : Z) (w : world) :
  acquire_loop key lockId ttl retryCount retryDelay (S n) i w =
  let '(c, w1) := attempt key (Caller lockId ttl (S n) false) w in
  if acquired c then (Ok (Some lockId), w1)
  else acquire_loop key lockId ttl retryCount retryDelay n (i + 1)
         (if i <? retryCount - 1 then after (sleep retryDelay) w1 else w1).
Proof.
  cbn [acquire_loop attempt acquired attempts_left token lease]. unfold bind at 1.
  destruct (try_catch _ _ w) as [[[]|e] w1] eqn:E; cbn [acquired]; try reflexivity.
  - unfold bind. destruct (i <? retryCount - 1); reflexivity.
  - exfalso. unfold try_catch in E.
    destruct (call _ w) as [[ok|e'] w']; discriminate.
Qed.

Lemma set_nx_px_outcome (lockId : string) (ttl : Z) (w : world) :
  exists r w',
    try_catch (call (set_nx_px key lockId ttl)) (fun _ => ret false) w = (Ok r, w')
    /\ clock w' = clock w
    /\ (if r
        then 0 < ttl
             /\ kv w' = <[key := Entry (RString lockId) (Some (clock w + ttl))]> (kv w)
        else kv w' = kv w).
Proof.
  unfold try_catch, call, set_nx_px. destruct w as [s t fs]. cbn [faults kv clock].
  destruct fs as [|[] fs]; cbn [tail];
    try (destruct (Z.leb_spec ttl 0); [| destruct (live t s key)]);
    do 2 eexists; (split; [reflexivity |]); cbn [kv clock];
    (split; [reflexivity |]); cbv iota; auto with zarith.
Qed.

Lemma attempt_lease (c : caller) (w : world) :
  lease (attempt key c w).1 = lease c /\ token (attempt key c w).1 = token c.
Proof.
  unfold attempt. destruct (acquired c); [split; reflexivity |].
  destruct (attempts_left c); [split; reflexivity |].
  destruct (try_catch _ _ w) as [[ok|e] w']; split; reflexivity.
Qed.

Lemma held_by_for (tok : string) (ms : Z) (w : world) :
  held_by key tok ms w -> held_for key ms w.
Proof. intros (exp & He & Hexp). eexists. split; [exact He | exact Hexp]. Qed.

Lemma held_by_later (tok : string) (d rest : Z) (w : world) :
  held_by key tok (d + rest) w -> held_by key tok rest (elapse d w).
Proof.
  intros (exp & He & Hexp). exists exp. split; [exact He |].
  cbn [elapse clock]. destruct exp; [lia | exact I].
Qed.

(** One move of a contender keeps the two exclusive. *)
Lemma attempt_exclusive (c other : caller) (w : world) (d rest : Z) :
  0 <= d -> 0 <= rest -> rest < lease c ->
  exclusive key (d + rest) c other w ->
  exclusive key rest (attempt key c (elapse d w)).1 other (attempt key c (elapse d w)).2.
Proof.
  intros Hd Hrest Hlease (Hnot & Hc_held & Ho_held).
  unfold attempt.
  destruct (acquired c) eqn:Hc.
  { cbn [fst snd]. unfold exclusive. rewrite Hc. split; [exact Hnot |].
    split; intros H; apply held_by_later; auto. }
  destruct (attempts_left c) as [|n].
  { cbn [fst snd]. unfold exclusive. rewrite Hc. split; [reflexivity |].
    split; intros H; [discriminate | apply held_by_later; auto]. }
  destruct (acquired other) eqn:Ho.
  - assert (Hh : held_by key (token other) rest (elapse d w))
      by (apply held_by_later; auto).
    destruct (set_nx_px_held (token c) (lease c) (elapse d w)) as (w1 & E & Hkv & Hclock).
    { apply (held_for_weaken rest); [lia | eapply held_by_for; exact Hh]. }
    rewrite E. cbn [fst snd]. unfold exclusive. cbn [acquired token]. rewrite Ho.
    split; [reflexivity |]. split; [discriminate |]. intros _.
    destruct Hh as (e & He & Hexp). exists e. rewrite Hkv, Hclock. auto.
  - destruct (set_nx_px_outcome (token c) (lease c) (elapse d w))
      as (r & w1 & E & Hclock & Hr).
    rewrite E. cbn [fst snd]. unfold exclusive. cbn [acquired token]. rewrite Ho.
    split; [apply andb_false_r |]. split; [| discriminate].
    destruct r; [intros _ | discriminate].
    destruct Hr as [Hpos Hkv]. eexists. rewrite Hkv, Hclock.
    split; [apply lookup_insert_eq |]. cbn [e_exp]. lia.
Qed.

Lemma exclusive_swap (ms : Z) (a b : caller) (w : world) :
  exclusive key ms a b w -> exclusive key ms b a w.
Proof.
  intros (H1 & H2 & H3). split; [now rewrite andb_comm | split; assumption].
Qed.

(** Two contenders remain exclusive along any schedule shorter than their
    leases. *)
Lemma contend_exclusive (schedule : list (bool * Z)) (a b : caller) (w : world) :
  forward schedule ->
  span schedule < lease a -> span schedule < lease b ->
  exclusive key (span schedule) a b w ->
  let '(a', b', w') := contend key schedule a b w in
  exclusive key 0 a' b' w'.
Proof.
  revert a b w. induction schedule as [|[second d] rest IH]; intros a b w Hfw Ha Hb Hex.
  - exact Hex.
  - apply Forall_cons in Hfw as [Hd Hfw]. cbn [snd] in Hd.
    assert (Hrest : 0 <= span rest).
    { clear -Hfw. induction Hfw as [|e l He _ IHl]; cbn; [lia |].
      unfold span in IHl. lia. }
    change (span ((second, d) :: rest)) with (d + span rest) in *.
    cbn [contend]. destruct second.
    + pose proof (attempt_exclusive b a w d (span rest) Hd Hrest ltac:(lia)
                    (exclusive_swap _ _ _ _ Hex)) as Hstep.
      pose proof (attempt_lease b (elapse d w)) as [Hl _].
      destruct (attempt key b (elapse d w)) as [b' w']. cbn [fst snd] in *.
      apply IH; [exact Hfw | lia | lia | now apply exclusive_swap].
    + pose proof (attempt_exclusive a b w d (span rest) Hd Hrest ltac:(lia) Hex) as Hstep.
      pose proof (attempt_lease a (elapse d w)) as [Hl _].
      destruct (attempt key a (elapse d w)) as [a' w']. cbn [fst snd] in *.
      apply IH; [exact Hfw | lia | lia | exact Hstep].
Qed.

Lemma contend_tokens (schedule : list (bool * Z)) (a b : caller) (w : world) :
  token (contend key schedule a b w).1.1 = token a
  /\ token (contend key schedule a b w).1.2 = token b.
Proof.
  revert a b w. induction schedule as [|[second d] rest IH]; intros a b w.
  - split; reflexivity.
  - cbn [contend]. destruct second.
    + pose proof (attempt_lease b (elapse d w)) as [_ Ht].
      destruct (attempt key b (elapse d w)) as [b' w']. cbn [fst] in Ht.
      destruct (IH a b' w') as [H1 H2]. split; congruence.
    + pose proof (attempt_lease a (elapse d w)) as [_ Ht].
      destruct (attempt key a (elapse d w)) as [a' w']. cbn [fst] in Ht.
      destruct (IH a' b w') as [H1 H2]. split; congruence.
Qed.

Lemma held_by_holder (tok : string) (w : world) :
  held_by key tok 0 w -> holder w key = Some tok.
Proof.
  intros (exp & He & Hexp). unfold holder, stored, live, expired. rewrite He.
  cbn [e_exp]. destruct exp as [t|]; [| reflexivity].
  destruct (Z.leb_spec t (clock w)); [lia | reflexivity].
Qed.

(** *** One call of [acquireLock] as a contender left alone *)

(** A caller that has the lock makes no further attempt. *)
Lemma contend_acquired (n : nat) (d : Z) (a b : caller) (w : world) :
  acquired a = true ->
  (contend key (repeat (false, d) n) a b w).1.1 = a
  /\ kv (contend key (repeat (false, d) n) a b w).2 = kv w.
Proof.
  intros Ha. revert w. induction n as [|n IH]; intros w; [split; reflexivity |].
  cbn [repeat contend]. unfold attempt. rewrite Ha.
  destruct (IH (elapse d w)) as [H1 H2]. split; [exact H1 | exact H2].
Qed.

Lemma acquire_loop_alone (lockId : string) (ttl retryCount retryDelay : Z)
    (n : nat) (i d : Z) (b : caller) (w : world) :
  retryCount = i + Z.of_nat (S n) ->
  let r := contend key ((false, d) :: repeat (false, Z.max 0 retryDelay) n)
             (Caller lockId ttl (S n) false) b w in
  (acquire_loop key lockId ttl retryCount retryDelay (S n) i (elapse d w)).1
  = Ok (if acquired r.1.1 then Some lockId else None)
  /\ kv (acquire_loop key lockId ttl retryCount retryDelay (S n) i (elapse d w)).2
     = kv r.2.
Proof.
  revert i d w. induction n as [|n IH]; intros i d w Hrc; cbv zeta.
  all: rewrite acquire_loop_attempt; cbn [contend];
    destruct (set_nx_px_outcome lockId ttl (elapse d w)) as (ok & w1 & E & _ & _);
    unfold attempt; cbn [acquired attempts_left token lease]; rewrite E;
    destruct ok; cbn [acquired].
  - split; reflexivity.
  - destruct (Z.ltb_spec i (retryCount - 1)); [lia |]. split; reflexivity.
  - destruct (contend_acquired (S n) (Z.max 0 retryDelay) (Caller lockId ttl (S n) true)
                b w1 eq_refl) as [Ha Hkv].
    rewrite Ha, Hkv. split; reflexivity.
  - destruct (Z.ltb_spec i (retryCount - 1)); [| lia].
    apply (IH (i + 1) (Z.max 0 retryDelay) w1). lia.
Qed.

End Acquire.

(** What a call of [acquireLock] leaves behind. *)

Lemma acquire_loop_outcome (key lockId : string) (ttl retryCount retryDelay : Z)
    (n : nat) (i : Z) (w : world) :
  clock w <= clock (acquire_loop key lockId ttl retryCount retryDelay n i w).2
  /\ match (acquire_loop key lockId ttl retryCount retryDelay n i w).1 with
     | Ok (Some tok) =>
         tok = lockId /\ 0 < ttl /\ (0 < n)%nat
         /\ kv (acquire_loop key lockId ttl retryCount retryDelay n i w).2
            = <[key := Entry (RString lockId)
                         (Some (clock (acquire_loop key lockId ttl retryCount retryDelay
                                         n i w).2 + ttl))]> (kv w)
     | Ok None => kv (acquire_loop key lockId ttl retryCount retryDelay n i w).2 = kv w
     | Err _ => False
     end.
Proof.
  revert i w. induction n as [|n IH]; intros i w.
  - cbn. split; [lia | reflexivity].
  - destruct (set_nx_px_outcome key lockId ttl w) as (ok & w1 & E & Hc & Hk).
    assert (Eq : acquire_loop key lockId ttl retryCount retryDelay (S n) i w
                 = if ok then (Ok (Some lockId), w1)
                   else acquire_loop key lockId ttl retryCount retryDelay n (i + 1)
                          (if i <? retryCount - 1
                           then World (kv w1) (clock w1 + Z.max 0 retryDelay) (faults w1)
                           else w1)).
    { cbn [acquire_loop]. unfold bind. rewrite E. destruct ok; [reflexivity |].
      destruct (i <? _); reflexivity. }
    rewrite Eq. clear Eq. destruct ok.
    + cbn [fst snd]. destruct Hk as [Hpos Hk]. rewrite Hc.
      split; [lia |]. repeat split; auto with zarith.
    + set (w2 := if i <? retryCount - 1
                 then World (kv w1) (clock w1 + Z.max 0 retryDelay) (faults w1)
                 else w1).
      assert (Hw2 : kv w2 = kv w /\ clock w <= clock w2).
      { subst w2. destruct (i <? _); cbn [kv clock]; split; try congruence; lia. }
      destruct Hw2 as [Hkv2 Hc2]. specialize (IH (i + 1) w2). destruct IH as [IHc IHr].
      destruct (acquire_loop _ _ _ _ _ n (i + 1) w2) as [[[tok|]|e] w3];
        cbn [fst snd] in *; (split; [lia |]).
      * destruct IHr as (-> & Hpos & _ & Hkv). rewrite Hkv, Hkv2. auto with zarith.
      * congruence.
      * exact IHr.
Qed.

Lemma acquireLock_success (key : string) (ttl retryCount retryDelay : Z)
    (rnd tok : string) (w : world) :
  (acquireLock key ttl retryCount retryDelay rnd w).1 = Ok (Some tok) ->
  let w1 := after (acquireLock key ttl retryCount retryDelay rnd) w in
  tok = lock_id (clock w) rnd /\ 0 < ttl
  /\ kv w1 = <[key := Entry (RString tok) (Some (clock w1 + ttl))]> (kv w).
Proof.
  cbv zeta. unfold after, acquireLock, bind, date_now.
  pose proof (acquire_loop_outcome key (lock_id (clock w) rnd) ttl retryCount retryDelay
                (Z.to_nat retryCount) 0 w) as [_ Hr].
  destruct (acquire_loop _ _ _ _ _ _ _ _) as [[[tok'|]|e] w1]; cbn [fst snd] in *;
    intros [= <-]. destruct Hr as (-> & Hpos & _ & Hkv). auto.
Qed.

(** The lease is what bounds the exclusion: a holder whose lease runs out
    between two attempts of a contender lets the contender in (the
    self-healing of the lock). *)
Lemma lease_run_out_lets_second_in :
  let a := Contention.Caller "1000-0.1" 50 3 false in
  let b := Contention.Caller "1000-0.2" 50 3 false in
  let '(a', b', _) :=
    Contention.contend "lock:report" [(false, 0); (true, 0); (true, 100)] a b
      (World ∅ 1000 []) in
  Contention.acquired a' = true /\ Contention.acquired b' = true.
Proof. vm_compute. split; reflexivity. Qed.

(** The claim as it is written fails on a key whose lease runs out while
    the loop retries: the key is present at the call, the first attempt
    fails, the lease ends during the pause, the second attempt takes the
    key: [acquireLock] returns its token and the stored token has changed. *)
Lemma C1_lease_runs_out_during_retries :
  let key := "lock:x" in
  let w := World {[ key := Entry (RString "950-0.31") (Some 1050) ]} 1000 [] in
  holder w key = Some "950-0.31"
  /\ (acquireLock key 30000 3 100 "0.77" w).1 = Ok (Some "1000-0.77")
  /\ holder (after (acquireLock key 30000 3 100 "0.77") w) key = Some "1000-0.77".
Proof. vm_compute. repeat split; reflexivity. Qed.

(** C1, amended.  An attempt of [acquireLock] on a key that is present
    fails the set-if-not-exists and writes nothing; while the key stays
    present for the time the retry loop takes, [acquireLock] returns null and
    leaves the key space, the stored token with it, unchanged.  A call of
    [acquireLock] is the sequence of the attempts of one caller, the first at
    once and the next ones [retryDelay] apart: it returns the token of the
    caller when one attempt succeeds, null otherwise.  Of two such callers
    that contend for the key along any interleaving of their attempts that
    spans less than their leases, at most one acquires the lock, and the key
    then holds the token of that caller.  Once a call has returned a token,
    a call whose attempts end within the lease of that token returns null
    and leaves the token in place. *)
Theorem C1_lock_mutual_exclusion (key : string) :
  (forall lockId ttl w,
     Contention.held_for key 0 w ->
     exists w',
       try_catch (call (set_nx_px key lockId ttl)) (fun _ => ret false) w = (Ok false, w')
       /\ kv w' = kv w)
  /\ (forall ttl retryCount retryDelay rnd w,
        Contention.held_for key ((retryCount - 1) * Z.max 0 retryDelay) w ->
        (acquireLock key ttl retryCount retryDelay rnd w).1 = Ok None
        /\ kv (acquireLock key ttl retryCount retryDelay rnd w).2 = kv w)
  /\ (forall schedule a b w,
        Contention.forward schedule ->
        Contention.span schedule < Contention.lease a ->
        Contention.span schedule < Contention.lease b ->
        Contention.acquired a = false -> Contention.acquired b = false ->
        let '(a', b', w') := Contention.contend key schedule a b w in
        ~ (Contention.acquired a' = true /\ Contention.acquired b' = true)
        /\ (Contention.acquired a' = true -> holder w' key = Some (Contention.token a))
        /\ (Contention.acquired b' = true -> holder w' key = Some (Contention.token b)))
  /\ (forall ttl retryCount retryDelay rnd b w,
        let a := Contention.caller_of (clock w) rnd ttl retryCount in
        let run := Contention.contend key (Contention.alone retryCount retryDelay) a b w in
        (acquireLock key ttl retryCount retryDelay rnd w).1
        = Ok (if Contention.acquired run.1.1 then Some (Contention.token a) else None)
        /\ kv (acquireLock key ttl retryCount retryDelay rnd w).2 = kv run.2)
  /\ (forall ttl retryCount retryDelay rnd tok w,
        (acquireLock key ttl retryCount retryDelay rnd w).1 = Ok (Some tok) ->
        forall d ttl' retryCount' retryDelay' rnd',
          0 <= d -> 0 < retryCount' ->
          d + (retryCount' - 1) * Z.max 0 retryDelay' < ttl ->
          let w1 := elapse d (after (acquireLock key ttl retryCount retryDelay rnd) w) in
          holder w1 key = Some tok
          /\ (acquireLock key ttl' retryCount' retryDelay' rnd' w1).1 = Ok None
          /\ kv (acquireLock key ttl' retryCount' retryDelay' rnd' w1).2 = kv w1).
Proof.
  assert (Hnull : forall ttl retryCount retryDelay rnd w,
            Contention.held_for key ((retryCount - 1) * Z.max 0 retryDelay) w ->
            (acquireLock key ttl retryCount retryDelay rnd w).1 = Ok None
            /\ kv (acquireLock key ttl retryCount retryDelay rnd w).2 = kv w).
  { intros ttl retryCount retryDelay rnd w Hheld.
    unfold acquireLock, bind, date_now.
    destruct (Z.le_gt_cases retryCount 0).
    + rewrite Z2Nat.nonpos by assumption. split; reflexivity.
    + apply acquire_loop_held. rewrite Z2Nat.id by lia. exact Hheld. }
  split; [| split; [| split; [| split]]].
  5: { intros ttl retryCount retryDelay rnd tok w Hr d ttl' retryCount' retryDelay' rnd'
         Hd Hrc Hlease w1.
       destruct (acquireLock_success key ttl retryCount retryDelay rnd tok w Hr)
         as (_ & Hpos & Hkv).
       set (w0 := after (acquireLock key ttl retryCount retryDelay rnd) w) in *.
       split; [| apply Hnull].
       - unfold holder, stored, live, w1. cbn [elapse kv clock].
         rewrite Hkv, lookup_insert_eq. unfold expired. cbn [e_exp].
         assert (0 <= (retryCount' - 1) * Z.max 0 retryDelay') by nia.
         destruct (Z.leb_spec (clock w0 + ttl) (clock w0 + d)); [lia | reflexivity].
       - eexists. unfold w1. cbn [elapse kv clock]. rewrite Hkv.
         split; [apply lookup_insert_eq |]. cbn [e_exp]. lia. }
  - intros lockId ttl w Hheld.
    destruct (set_nx_px_held key lockId ttl w Hheld) as (w' & E & Hkv & _). eauto.
  - exact Hnull.
  - intros schedule a b w Hfw Ha Hb Hna Hnb.
    pose proof (contend_exclusive key schedule a b w Hfw Ha Hb) as H.
    pose proof (contend_tokens key schedule a b w) as [Hta Htb].
    destruct (Contention.contend key schedule a b w) as [[a' b'] w'].
    cbn [fst snd] in *.
    destruct H as (Hnot & Hha & Hhb).
    { split; [rewrite Hna; reflexivity |].
      split; intros Habs; congruence. }
    split; [intros [Ea Eb]; rewrite Ea, Eb in Hnot; discriminate |].
    split; intros Hacq.
    + rewrite <- Hta. apply held_by_holder. auto.
    + rewrite <- Htb. apply held_by_holder. auto.
  - intros ttl retryCount retryDelay rnd b w. cbv zeta.
    unfold acquireLock, bind, date_now, Contention.alone, Contention.caller_of.
    cbn [Contention.token].
    destruct (Z.to_nat retryCount) as [|n] eqn:En; [split; reflexivity |].
    pose proof (acquire_loop_alone key (lock_id (clock w) rnd) ttl retryCount retryDelay
                  n 0 0 b w ltac:(lia)) as Hrun.
    cbv zeta in Hrun. rewrite (elapse_0 w) in Hrun. exact Hrun.
Qed.

Lemma C1_witness :
  let key := "lock:export:42" in
  let w := World {[ key := Entry (RString "1690000000000-0.31") (Some 30500) ]} 1000 [] in
  (acquireLock key 30000 3 100 "0.77" w).1 = Ok None
  /\ kv (acquireLock key 30000 3 100 "0.77" w).2 = kv w.
Proof.
  intros key w.
  apply (proj1 (proj2 (C1_lock_mutual_exclusion key)) 30000 3 100 "0.77" w).
  eexists. split; [apply lookup_insert_eq |]. cbn. lia.
Defined.

(** ** The job queue *)

Section QueueFacts.
Import Queue.
Variable q : string.

Lemma queue_keys_distinct : queue_key q <> jobs_key q.
Proof.
  unfold queue_key, jobs_key. intros H. apply String.app_inj in H. discriminate.
Qed.

Lemma live_plain (t : Z) (s : gmap string entry) (k : string) (v : rval) :
  s !! k = Some (Entry v None) -> live t s k = Some (Entry v None).
Proof. intros H. unfold live. rewrite H. reflexivity. Qed.

Lemma live_none (t : Z) (s : gmap string entry) (k : string) :
  s !! k = None -> live t s k = None.
Proof. intros H. unfold live. rewrite H. reflexivity. Qed.

(** *** The commands on a well-kept queue *)

Lemma zadd_inv (s : gmap string entry) (t sc : Z) (m : string) :
  inv q s ->
  exists n, zadd (queue_key q) sc m t s
            = (Ok n, <[queue_key q := Entry (RZSet (<[m := sc]> (index q s))) None]> s).
Proof.
  intros [Hi _]. unfold zadd, index, live.
  destruct (s !! queue_key q) as [[[v|z|h] [x|]]|]; try contradiction; cbn; eauto.
Qed.

Lemma hset_inv (s : gmap string entry) (t : Z) (f v : string) :
  inv q s ->
  exists n, hset (jobs_key q) f v t s
            = (Ok n, <[jobs_key q := Entry (RHash (<[f := v]> (records q s))) None]> s).
Proof.
  intros [_ Hj]. unfold hset, records, live.
  destruct (s !! jobs_key q) as [[[x|z|h] [y|]]|]; try contradiction; cbn; eauto.
Qed.

Lemma hget_inv (s : gmap string entry) (t : Z) (f : string) :
  inv q s -> hget (jobs_key q) f t s = (Ok (records q s !! f), s).
Proof.
  intros [_ Hj]. unfold hget, records, live.
  destruct (s !! jobs_key q) as [[[x|z|h] [y|]]|]; try contradiction; cbn; eauto.
Qed.

Lemma zpopmin_inv (s : gmap string entry) (t : Z) :
  inv q s ->
  zpopmin (queue_key q) t s =
  match zmin (index q s) with
  | Some (m, sc) =>
      (Ok (Some (m, sc)), put_zset (queue_key q) (delete m (index q s)) None s)
  | None => (Ok None, s)
  end.
Proof.
  intros [Hi _]. unfold zpopmin, index, live.
  destruct (s !! queue_key q) as [[[v|z|h] [x|]]|]; try contradiction; cbn.
  - destruct (zmin z) as [[m sc]|]; reflexivity.
  - reflexivity.
Qed.

Lemma zmin_lookup (z : gmap string Z) (m : string) (sc : Z) :
  zmin z = Some (m, sc) -> z !! m = Some sc.
Proof.
  unfold zmin. intros H. apply elem_of_map_to_list.
  revert m sc H. induction (map_to_list z) as [|[m' sc'] l IH]; intros m sc H;
    cbn in H; [discriminate |].
  destruct (foldr _ None l) as [[m1 sc1]|] eqn:E.
  - destruct (zless (m', sc') (m1, sc1)); injection H as <- <-.
    + left.
    + right. now apply IH.
  - injection H as <- <-. left.
Qed.

Lemma zmin_nonempty (z : gmap string Z) : z <> ∅ -> exists m sc, zmin z = Some (m, sc).
Proof.
  intros Hne. unfold zmin.
  destruct (map_to_list z) as [|[m sc] l] eqn:E.
  - apply map_to_list_empty_iff in E. contradiction.
  - cbn. destruct (foldr _ None l) as [[m1 sc1]|]; [| eauto].
    destruct (zless (m, sc) (m1, sc1)); eauto.
Qed.

(** *** What each write leaves *)

Lemma index_insert_queue (s : gmap string entry) (z : gmap string Z) (e : option Z) :
  index q (<[queue_key q := Entry (RZSet z) e]> s) = z.
Proof. unfold index. now rewrite lookup_insert_eq. Qed.

Lemma index_insert_jobs (s : gmap string entry) (e : entry) :
  index q (<[jobs_key q := e]> s) = index q s.
Proof.
  unfold index. rewrite lookup_insert_ne; [reflexivity |].
  apply not_eq_sym, queue_keys_distinct.
Qed.

Lemma index_put_zset (s : gmap string entry) (z : gmap string Z) (e : option Z) :
  index q (put_zset (queue_key q) z e s) = z.
Proof.
  unfold put_zset, index. destruct (decide (z = ∅)) as [->|].
  - now rewrite lookup_delete_eq.
  - now rewrite lookup_insert_eq.
Qed.

Lemma records_insert_jobs (s : gmap string entry) (h : gmap string string) (e : option Z) :
  records q (<[jobs_key q := Entry (RHash h) e]> s) = h.
Proof. unfold records. now rewrite lookup_insert_eq. Qed.

Lemma records_insert_queue (s : gmap string entry) (e : entry) :
  records q (<[queue_key q := e]> s) = records q s.
Proof.
  unfold records. rewrite lookup_insert_ne; [reflexivity | apply queue_keys_distinct].
Qed.

Lemma records_put_zset (s : gmap string entry) (z : gmap string Z) (e : option Z) :
  records q (put_zset (queue_key q) z e s) = records q s.
Proof.
  unfold put_zset, records. destruct (decide (z = ∅)).
  - rewrite lookup_delete_ne; [reflexivity | apply queue_keys_distinct].
  - rewrite lookup_insert_ne; [reflexivity | apply queue_keys_distinct].
Qed.

Lemma inv_members (s : gmap string entry) (m : string) (sc : Z) :
  inv q s -> index q s !! m = Some sc -> is_job m.
Proof.
  intros [Hi _]. unfold index.
  destruct (s !! queue_key q) as [[[v|z|h] [x|]]|]; try contradiction;
    try (rewrite lookup_empty; discriminate).
  apply Hi.
Qed.

Lemma inv_insert_queue (s : gmap string entry) (m : string) (sc : Z) :
  inv q s -> is_job m ->
  inv q (<[queue_key q := Entry (RZSet (<[m := sc]> (index q s))) None]> s).
Proof.
  intros Hinv Hm. split.
  - rewrite lookup_insert_eq. intros m' sc' H.
    destruct (decide (m = m')) as [<-|Hne]; [assumption |].
    rewrite lookup_insert_ne in H by assumption. eapply inv_members; eassumption.
  - rewrite lookup_insert_ne by apply queue_keys_distinct. apply Hinv.
Qed.

Lemma inv_insert_jobs (s : gmap string entry) (h : gmap string string) :
  inv q s -> inv q (<[jobs_key q := Entry (RHash h) None]> s).
Proof.
  intros Hinv. split.
  - rewrite lookup_insert_ne by apply not_eq_sym, queue_keys_distinct. apply Hinv.
  - now rewrite lookup_insert_eq.
Qed.

Lemma inv_put_zset (s : gmap string entry) (m : string) :
  inv q s -> inv q (put_zset (queue_key q) (delete m (index q s)) None s).
Proof.
  intros Hinv. unfold put_zset. destruct (decide (delete m (index q s) = ∅)); split.
  - now rewrite lookup_delete_eq.
  - rewrite lookup_delete_ne by apply queue_keys_distinct. apply Hinv.
  - rewrite lookup_insert_eq. intros m' sc' H.
    apply lookup_delete_Some in H as [_ H]. eapply inv_members; eassumption.
  - rewrite lookup_insert_ne by apply queue_keys_distinct. apply Hinv.
Qed.

(** *** The operations on a well-kept queue *)

Lemma call_cases {A} (c : cmd A) (w : world) :
  call c w = (Err ConnectionError, World (kv w) (clock w) (tail (faults w)))
  \/ call c w = ((c (clock w) (kv w)).1,
                 World (c (clock w) (kv w)).2 (clock w) (tail (faults w))).
Proof.
  unfold call. destruct (faults w) as [|[] fs]; cbn [tail]; auto;
    destruct (c (clock w) (kv w)); auto.
Qed.

Lemma id_field_new_job (jobId : string) (data : json) (priority createdAt : Z) :
  id_field (new_job jobId data priority createdAt) = ret jobId.
Proof. reflexivity. Qed.

Lemma dequeue_cases (w : world) :
  inv q (kv w) ->
  let r := (dequeueJob q w).1 in
  let w' := (dequeueJob q w).2 in
  inv q (kv w')
  /\ ((r = Ok JNull /\ index q (kv w') = index q (kv w))
      \/ (exists m sc j,
            zmin (index q (kv w)) = Some (m, sc)
            /\ m = JSON.stringify j /\ is_job m
            /\ index q (kv w') = delete m (index q (kv w))
            /\ (r = Ok j \/ r = Ok JNull))).
Proof.
  intros Hinv. cbv zeta.
  destruct (dequeueJob q w) as [r w'] eqn:E. cbn [fst snd].
  unfold dequeueJob, try_catch, bind in E.
  destruct (call_cases (zpopmin (queue_key q)) w) as [Ec|Ec]; rewrite Ec in E; clear Ec.
  { cbn in E. injection E as <- <-. cbn. auto. }
  rewrite (zpopmin_inv (kv w) (clock w) Hinv) in E.
  destruct (zmin (index q (kv w))) as [[m sc]|] eqn:Hmin; cbn [fst snd] in E.
  2: { cbn in E. injection E as <- <-. cbn. auto. }
  pose proof (inv_members _ m sc Hinv (zmin_lookup _ _ _ Hmin)) as Hjob.
  pose proof Hjob as (jobId & data & priority & createdAt & ->).
  rewrite JSONFacts.parse_stringify, id_field_new_job in E.
  unfold ret at 1, date_now in E. cbv beta iota in E.
  pose proof (inv_put_zset (kv w)
                (JSON.stringify (new_job jobId data priority createdAt)) Hinv) as Hinv1.
  set (s1 := put_zset _ _ None (kv w)) in *.
  match type of E with
  | context [call ?c ?w1] =>
      destruct (call_cases c w1) as [Ec|Ec]; rewrite Ec in E; clear Ec
  end.
  - cbn in E. injection E as <- <-. cbn [kv]. split; [exact Hinv1 |]. right.
    do 3 eexists. split; [reflexivity |]. split; [reflexivity |].
    split; [exact Hjob |]. split; [apply index_put_zset | auto].
  - cbn [kv clock] in E.
    match type of E with
    | context [hset ?k ?f ?v ?t s1] =>
        destruct (hset_inv s1 t f v Hinv1) as [n Eh]; rewrite Eh in E; clear Eh
    end.
    cbn in E. injection E as <- <-. cbn [kv].
    split; [now apply inv_insert_jobs |]. right.
    do 3 eexists. split; [reflexivity |]. split; [reflexivity |].
    split; [exact Hjob |].
    split; [rewrite index_insert_jobs; apply index_put_zset | auto].
Qed.

Lemma is_job_new (jobId : string) (data : json) (priority createdAt : Z) :
  is_job (JSON.stringify (new_job jobId data priority createdAt)).
Proof. do 4 eexists. reflexivity. Qed.

Lemma enqueue_cases (data : json) (priority : Z) (rnd : string) (w : world) :
  inv q (kv w) ->
  let w' := (enqueueJob q data priority rnd w).2 in
  inv q (kv w')
  /\ (index q (kv w') = index q (kv w)
      \/ index q (kv w')
         = <[JSON.stringify (new_job (job_id (clock w) rnd) data priority (clock w))
               := priority]> (index q (kv w))).
Proof.
  intros Hinv. cbv zeta.
  destruct (enqueueJob q data priority rnd w) as [r w'] eqn:E. cbn [fst snd].
  unfold enqueueJob, try_catch, bind, date_now in E.
  match type of E with
  | context [call ?c w] => destruct (call_cases c w) as [Ec|Ec]; rewrite Ec in E; clear Ec
  end.
  { cbn in E. injection E as <- <-. cbn. auto. }
  match type of E with
  | context [zadd ?k ?sc ?m ?t (kv w)] =>
      destruct (zadd_inv (kv w) t sc m Hinv) as [n Ez]; rewrite Ez in E; clear Ez;
      pose proof (inv_insert_queue (kv w) m sc Hinv (is_job_new _ _ _ _)) as Hinv1
  end.
  cbn [fst snd] in E.
  match type of E with
  | context [call ?c ?w1] => destruct (call_cases c w1) as [Ec|Ec]; rewrite Ec in E; clear Ec
  end.
  - cbn in E. injection E as <- <-. cbn [kv]. split; [exact Hinv1 |].
    right. apply index_insert_queue.
  - cbn [kv clock] in E.
    match type of E with
    | context [hset ?k ?f ?v ?t ?s1] =>
        destruct (hset_inv s1 t f v Hinv1) as [n' Eh]; rewrite Eh in E; clear Eh
    end.
    cbn in E. injection E as <- <-. cbn [kv]. split; [now apply inv_insert_jobs |].
    right. rewrite index_insert_jobs. apply index_insert_queue.
Qed.

(** [completeJob] and [failJob] write the hash only. *)
Lemma settle_cases (jobId : string) (w : world) :
  inv q (kv w) ->
  (forall result,
     inv q (kv (completeJob q jobId result w).2)
     /\ index q (kv (completeJob q jobId result w).2) = index q (kv w))
  /\ (forall error,
        inv q (kv (failJob q jobId error w).2)
        /\ index q (kv (failJob q jobId error w).2) = index q (kv w)).
Proof.
  intros Hinv. split; intros x.
  - destruct (completeJob q jobId x w) as [r w'] eqn:E. cbn [fst snd].
    unfold completeJob, try_catch, bind, date_now in E.
    destruct (call_cases (hget (jobs_key q) jobId) w) as [Ec|Ec]; rewrite Ec in E; clear Ec.
    { cbn in E. injection E as <- <-. cbn. auto. }
    rewrite (hget_inv (kv w) (clock w) jobId Hinv) in E. cbn [fst snd] in E.
    destruct (truthy (records q (kv w) !! jobId)).
    2: { cbn in E. injection E as <- <-. cbn. auto. }
    destruct (JSON.parse _) as [job|].
    2: { cbn in E. injection E as <- <-. cbn. auto. }
    match type of E with
    | context [call ?c ?w1] => destruct (call_cases c w1) as [Ec|Ec]; rewrite Ec in E; clear Ec
    end.
    + cbn in E. injection E as <- <-. cbn. auto.
    + cbn [kv clock] in E.
      match type of E with
      | context [hset ?k ?f ?v ?t (kv w)] =>
          destruct (hset_inv (kv w) t f v Hinv) as [n' Eh]; rewrite Eh in E; clear Eh
      end.
      cbn in E. injection E as <- <-. cbn [kv].
      split; [now apply inv_insert_jobs | apply index_insert_jobs].
  - destruct (failJob q jobId x w) as [r w'] eqn:E. cbn [fst snd].
    unfold failJob, try_catch, bind, date_now in E.
    destruct (call_cases (hget (jobs_key q) jobId) w) as [Ec|Ec]; rewrite Ec in E; clear Ec.
    { cbn in E. injection E as <- <-. cbn. auto. }
    rewrite (hget_inv (kv w) (clock w) jobId Hinv) in E. cbn [fst snd] in E.
    destruct (truthy (records q (kv w) !! jobId)).
    2: { cbn in E. injection E as <- <-. cbn. auto. }
    destruct (JSON.parse _) as [job|].
    2: { cbn in E. injection E as <- <-. cbn. auto. }
    match type of E with
    | context [call ?c ?w1] => destruct (call_cases c w1) as [Ec|Ec]; rewrite Ec in E; clear Ec
    end.
    + cbn in E. injection E as <- <-. cbn. auto.
    + cbn [kv clock] in E.
      match type of E with
      | context [hset ?k ?f ?v ?t (kv w)] =>
          destruct (hset_inv (kv w) t f v Hinv) as [n' Eh]; rewrite Eh in E; clear Eh
      end.
      cbn in E. injection E as <- <-. cbn [kv].
      split; [now apply inv_insert_jobs | apply index_insert_jobs].
Qed.

(** *** Objects *)

Lemma obj_get_set_eq (k : string) (v : json) (o : list (string * json)) :
  obj_get k (obj_set k v o) = Some v.
Proof.
  induction o as [|[k' v'] o IH]; cbn.
  - now rewrite String.eqb_refl.
  - destruct (String.eqb_spec k k') as [->|Hne]; cbn.
    + now rewrite String.eqb_refl.
    + destruct (String.eqb_spec k k'); [contradiction | exact IH].
Qed.

Lemma obj_get_set_ne (k k' : string) (v : json) (o : list (string * json)) :
  k <> k' -> obj_get k (obj_set k' v o) = obj_get k o.
Proof.
  intros Hne. induction o as [|[k1 v1] o IH]; cbn.
  - destruct (String.eqb_spec k k'); [contradiction | reflexivity].
  - destruct (String.eqb_spec k' k1) as [->|Hne1]; cbn.
    + destruct (String.eqb_spec k k1); [contradiction | reflexivity].
    + destruct (String.eqb_spec k k1); [reflexivity | exact IH].
Qed.

Lemma obj_get_del_eq (k : string) (o : list (string * json)) :
  obj_get k (obj_del k o) = None.
Proof.
  induction o as [|[k' v'] o IH]; cbn; [reflexivity |].
  destruct (String.eqb_spec k k') as [->|Hne]; cbn; [exact IH |].
  destruct (String.eqb_spec k k'); [contradiction | exact IH].
Qed.

Lemma obj_get_del_ne (k k' : string) (o : list (string * json)) :
  k <> k' -> obj_get k (obj_del k' o) = obj_get k o.
Proof.
  intros Hne. induction o as [|[k1 v1] o IH]; cbn; [reflexivity |].
  destruct (String.eqb_spec k' k1) as [->|Hne1]; cbn.
  - destruct (String.eqb_spec k k1); [contradiction | exact IH].
  - destruct (String.eqb_spec k k1); [reflexivity | exact IH].
Qed.

Lemma obj_get_set_opt_eq (k : string) (v : option json) (o : list (string * json)) :
  obj_get k (obj_set_opt k v o) = v.
Proof. destruct v; [apply obj_get_set_eq | apply obj_get_del_eq]. Qed.

Lemma obj_get_set_opt_ne (k k' : string) (v : option json) (o : list (string * json)) :
  k <> k' -> obj_get k (obj_set_opt k' v o) = obj_get k o.
Proof. destruct v; [apply obj_get_set_ne | apply obj_get_del_ne]. Qed.

(** *** With the store reachable *)

Lemma record_parse (jobId : string) (s : gmap string entry) (job : json) :
  record q jobId s = Some job ->
  exists text, records q s !! jobId = Some text
               /\ JSON.parse text = Some job /\ truthy (Some text) = true.
Proof.
  unfold record. destruct (records q s !! jobId) as [text|]; [| discriminate].
  intros H. exists text. split; [reflexivity |]. split; [exact H |].
  destruct text; [discriminate H | reflexivity].
Qed.

Lemma record_written (jobId : string) (s : gmap string entry) (v : json) :
  record q jobId
    (<[jobs_key q := Entry (RHash (<[jobId := JSON.stringify v]> (records q s))) None]> s)
  = Some v.
Proof.
  unfold record. rewrite records_insert_jobs, lookup_insert_eq.
  apply JSONFacts.parse_stringify.
Qed.

Lemma completeJob_available (jobId : string) (result : option json) (job : json)
    (w : world) :
  inv q (kv w) -> faults w = [] -> record q jobId (kv w) = Some job ->
  let done :=
    JObj (obj_set_opt "result" result
            (obj_set "completedAt" (JNum (clock w))
               (obj_set "status" (JStr "completed") (spread job)))) in
  completeJob q jobId result w =
  (Ok tt,
   World (<[jobs_key q :=
              Entry (RHash (<[jobId := JSON.stringify done]> (records q (kv w)))) None]>
            (kv w))
         (clock w) []).
Proof.
  intros Hinv Hf Hrec. destruct (record_parse _ _ _ Hrec) as (text & Ht & Hp & Htr).
  cbv zeta. unfold completeJob, try_catch, bind, date_now.
  rewrite call_available by assumption.
  rewrite (hget_inv (kv w) (clock w) jobId Hinv), Ht, Htr.
  change (default "" (Some text)) with text. rewrite Hp.
  rewrite call_available by reflexivity. cbn [kv clock].
  match goal with
  | |- context [hset ?k ?f ?v ?t (kv w)] =>
      destruct (hset_inv (kv w) t f v Hinv) as [n' Eh]; rewrite Eh; clear Eh
  end.
  reflexivity.
Qed.

Lemma failJob_available (jobId error : string) (job : json) (w : world) :
  inv q (kv w) -> faults w = [] -> record q jobId (kv w) = Some job ->
  let failed :=
    JObj (obj_set "error" (JStr error)
            (obj_set "failedAt" (JNum (clock w))
               (obj_set "status" (JStr "failed") (spread job)))) in
  failJob q jobId error w =
  (Ok tt,
   World (<[jobs_key q :=
              Entry (RHash (<[jobId := JSON.stringify failed]> (records q (kv w)))) None]>
            (kv w))
         (clock w) []).
Proof.
  intros Hinv Hf Hrec. destruct (record_parse _ _ _ Hrec) as (text & Ht & Hp & Htr).
  cbv zeta. unfold failJob, try_catch, bind, date_now.
  rewrite call_available by assumption.
  rewrite (hget_inv (kv w) (clock w) jobId Hinv), Ht, Htr.
  change (default "" (Some text)) with text. rewrite Hp.
  rewrite call_available by reflexivity. cbn [kv clock].
  match goal with
  | |- context [hset ?k ?f ?v ?t (kv w)] =>
      destruct (hset_inv (kv w) t f v Hinv) as [n' Eh]; rewrite Eh; clear Eh
  end.
  reflexivity.
Qed.

Lemma dequeueJob_available (w : world) (m : string) (sc : Z) :
  inv q (kv w) -> faults w = [] -> zmin (index q (kv w)) = Some (m, sc) ->
  exists jobId data priority createdAt,
    let j := new_job jobId data priority createdAt in
    let s1 := put_zset (queue_key q) (delete m (index q (kv w))) None (kv w) in
    let started :=
      JObj (obj_set "startedAt" (JNum (clock w))
              (obj_set "status" (JStr "processing") (spread j))) in
    m = JSON.stringify j
    /\ dequeueJob q w =
       (Ok j,
        World (<[jobs_key q :=
                   Entry (RHash (<[jobId := JSON.stringify started]> (records q s1))) None]>
                 s1)
              (clock w) []).
Proof.
  intros Hinv Hf Hmin.
  pose proof (inv_members _ m sc Hinv (zmin_lookup _ _ _ Hmin))
    as (jobId & data & priority & createdAt & ->).
  exists jobId, data, priority, createdAt. cbv zeta. split; [reflexivity |].
  unfold dequeueJob, try_catch, bind, date_now.
  rewrite call_available by assumption.
  rewrite (zpopmin_inv (kv w) (clock w) Hinv), Hmin.
  rewrite JSONFacts.parse_stringify, id_field_new_job. unfold ret at 1.
  rewrite call_available by reflexivity. cbn [kv clock].
  pose proof (inv_put_zset (kv w)
                (JSON.stringify (new_job jobId data priority createdAt)) Hinv) as Hinv1.
  match goal with
  | |- context [hset ?k ?f ?v ?t ?s1] =>
      destruct (hset_inv s1 t f v Hinv1) as [n' Eh]; rewrite Eh; clear Eh
  end.
  reflexivity.
Qed.

Lemma step_inv (o : op) (w : world) : inv q (kv w) -> inv q (kv (step q o w).2).
Proof.
  intros Hinv. destruct o as [d p rnd | | id res | id err | ms]; cbn [step].
  - pose proof (enqueue_cases d p rnd w Hinv) as [H _].
    now destruct (enqueueJob q d p rnd w).
  - pose proof (dequeue_cases w Hinv) as [H _]. now destruct (dequeueJob q w).
  - destruct (settle_cases id w Hinv) as [Hc _]. exact (proj1 (Hc res)).
  - destruct (settle_cases id w Hinv) as [_ Hx]. exact (proj1 (Hx err)).
  - exact Hinv.
Qed.

(** Every history that starts on a well-kept queue (a fresh one, for one)
    keeps it so. *)
Lemma run_inv (ops : list op) (w : world) : inv q (kv w) -> inv q (kv (run q ops w).2).
Proof.
  revert w. induction ops as [|o ops IH]; intros w Hinv; [exact Hinv |].
  cbn [run]. pose proof (step_inv o w Hinv) as H1.
  destruct (step q o w) as [e w1]. specialize (IH w1 H1).
  now destruct (run q ops w1).
Qed.

Lemma inv_fresh (s : gmap string entry) :
  s !! queue_key q = None -> s !! jobs_key q = None -> inv q s.
Proof. intros H1 H2. unfold inv. now rewrite H1, H2. Qed.

Lemma enqueueJob_available (data : json) (priority : Z) (rnd : string) (w : world) :
  inv q (kv w) -> faults w = [] ->
  let jobId := job_id (clock w) rnd in
  let text := JSON.stringify (new_job jobId data priority (clock w)) in
  let s1 := <[queue_key q := Entry (RZSet (<[text := priority]> (index q (kv w)))) None]>
              (kv w) in
  enqueueJob q data priority rnd w =
  (Ok jobId,
   World (<[jobs_key q := Entry (RHash (<[jobId := text]> (records q s1))) None]> s1)
         (clock w) []).
Proof.
  intros Hinv Hf. cbv zeta. unfold enqueueJob, try_catch, bind, date_now.
  rewrite call_available by assumption.
  match goal with
  | |- context [zadd ?k ?sc ?m ?t (kv w)] =>
      destruct (zadd_inv (kv w) t sc m Hinv) as [n Ez]; rewrite Ez; clear Ez;
      pose proof (inv_insert_queue (kv w) m sc Hinv (is_job_new _ _ _ _)) as Hinv1
  end.
  rewrite call_available by reflexivity. cbn [kv clock].
  match goal with
  | |- context [hset ?k ?f ?v ?t ?s1] =>
      destruct (hset_inv s1 t f v Hinv1) as [n' Eh]; rewrite Eh; clear Eh
  end.
  reflexivity.
Qed.

Lemma zmin_singleton (m : string) (sc : Z) : zmin {[m := sc]} = Some (m, sc).
Proof. unfold zmin. now rewrite map_to_list_singleton. Qed.

(** *** Histories *)

Lemma new_job_inj (id1 id2 : string) (d1 d2 : json) (p1 p2 t1 t2 : Z) :
  JSON.stringify (new_job id1 d1 p1 t1) = JSON.stringify (new_job id2 d2 p2 t2) ->
  id1 = id2.
Proof. intros H. apply JSONFacts.stringify_inj in H. now injection H. Qed.

Lemma answer_of_true (j j' : json) :
  answer_of j (Dequeued (Ok j')) = true -> j' = j.
Proof. cbn. intros H. apply String.eqb_eq in H. now apply JSONFacts.stringify_inj. Qed.

Lemma answer_of_null (jobId : string) (data : json) (priority createdAt : Z) :
  answer_of (new_job jobId data priority createdAt) (Dequeued (Ok JNull)) = false.
Proof.
  destruct (answer_of _ _) eqn:E; [| reflexivity].
  apply answer_of_true in E. discriminate.
Qed.

(** One step of a history: the job is answered only by leaving the index,
    and it does not enter the index unless its identifier is made again. *)
Lemma step_pending (jobId : string) (data : json) (priority createdAt : Z)
    (o : op) (w : world) :
  let j := new_job jobId data priority createdAt in
  inv q (kv w) ->
  (forall jobId' r, (step q o w).1 = Enqueued jobId' r -> jobId' <> jobId) ->
  inv q (kv (step q o w).2)
  /\ ((if answer_of j (step q o w).1 then 1 else 0) + pending q j (kv (step q o w).2)
      <= pending q j (kv w))%nat.
Proof.
  intros j Hinv Hmade. destruct o as [d p rnd | | id res | id err | ms]; cbn [step] in *.
  - pose proof (enqueue_cases d p rnd w Hinv) as [Hinv1 Hidx].
    destruct (enqueueJob q d p rnd w) as [r w1]. cbn [fst snd] in *.
    split; [exact Hinv1 |]. cbn [answer_of]. unfold pending.
    destruct Hidx as [-> | ->]; [lia |].
    rewrite lookup_insert_ne; [lia |].
    intros E. apply new_job_inj in E. exact (Hmade _ _ eq_refl E).
  - pose proof (dequeue_cases w Hinv) as [Hinv1 Hcases].
    destruct (dequeueJob q w) as [r w1]. cbn [fst snd] in *.
    split; [exact Hinv1 |]. unfold pending.
    destruct Hcases as [[-> ->] | (m & sc & j' & Hmin & -> & Hjob & -> & Hr)].
    + subst j. rewrite answer_of_null. lia.
    + apply zmin_lookup in Hmin.
      destruct (decide (JSON.stringify j' = JSON.stringify j)) as [E|Hne].
      * rewrite E in *. rewrite Hmin, lookup_delete_eq.
        destruct (answer_of j (Dequeued r)); lia.
      * rewrite lookup_delete_ne by assumption.
        assert (answer_of j (Dequeued r) = false) as ->; [| lia].
        destruct Hr as [-> | ->]; [| subst j; apply answer_of_null].
        destruct (answer_of j (Dequeued (Ok j'))) eqn:Ea; [| reflexivity].
        apply answer_of_true in Ea. congruence.
  - destruct (settle_cases id w Hinv) as [Hc _]. destruct (Hc res) as [Hinv1 Hidx].
    cbn [fst snd]. unfold after. split; [exact Hinv1 |]. cbn [answer_of].
    unfold pending. rewrite Hidx. lia.
  - destruct (settle_cases id w Hinv) as [_ Hf]. destruct (Hf err) as [Hinv1 Hidx].
    cbn [fst snd]. unfold after. split; [exact Hinv1 |]. cbn [answer_of].
    unfold pending. rewrite Hidx. lia.
  - split; [exact Hinv |]. cbn. lia.
Qed.

Lemma run_pending (jobId : string) (data : json) (priority createdAt : Z)
    (ops : list op) (w : world) :
  let j := new_job jobId data priority createdAt in
  inv q (kv w) ->
  never_made jobId (run q ops w).1 ->
  inv q (kv (run q ops w).2)
  /\ (answers j (run q ops w).1 + pending q j (kv (run q ops w).2)
      <= pending q j (kv w))%nat.
Proof.
  intros j. revert w. induction ops as [|o ops IH]; intros w Hinv Hmade.
  - cbn. split; [exact Hinv | lia].
  - cbn [run] in *.
    pose proof (step_pending jobId data priority createdAt o w Hinv) as Hstep.
    destruct (step q o w) as [e w1]. cbn [fst snd] in *.
    specialize (IH w1).
    destruct (run q ops w1) as [es w2]. cbn [fst snd] in *.
    destruct Hstep as [Hinv1 Hle].
    { intros jobId' r ->. apply (Hmade jobId' r). left. }
    destruct (IH Hinv1) as [Hinv2 Hle2].
    { intros jobId' r Hin. apply (Hmade jobId' r). now right. }
    split; [exact Hinv2 |]. fold j in Hle, Hle2.
    unfold answers in *. cbn [List.filter].
    destruct (answer_of j e); cbn [length] in *; lia.
Qed.

Lemma run_app (ops1 ops2 : list op) (w : world) :
  run q (ops1 ++ ops2) w =
  ((run q ops1 w).1 ++ (run q ops2 (run q ops1 w).2).1,
   (run q ops2 (run q ops1 w).2).2).
Proof.
  revert w. induction ops1 as [|o ops1 IH]; intros w.
  - cbn. now destruct (run q ops2 w).
  - cbn [run app]. destruct (step q o w) as [e w1]. rewrite IH.
    destruct (run q ops1 w1) as [es1 w2]. cbn [fst snd].
    destruct (run q ops2 w2) as [es2 w3]. reflexivity.
Qed.

Lemma answers_app (j : json) (es1 es2 : list event) :
  answers j (es1 ++ es2) = (answers j es1 + answers j es2)%nat.
Proof. unfold answers. now rewrite List.filter_app, length_app. Qed.

Lemma pending_le_1 (j : json) (s : gmap string entry) : (pending q j s <= 1)%nat.
Proof. unfold pending. destruct (_ !! _); lia. Qed.

End QueueFacts.

(** ** Claims on the job queue *)

(** C10. On a queue kept by the service, with the store reachable and the
    index not empty, [dequeueJob] answers the least member of the index read
    back, which is the job as [enqueueJob] wrote it: its status is 'queued'
    and it has no startedAt; the record that the same call leaves in the hash
    has the status 'processing' and startedAt at the clock.  On an empty
    index, a job enqueued and dequeued comes back as it was built. *)
Theorem C10_dequeue_answers_queued_job (q : string) (w : world) :
  Queue.inv q (kv w) -> faults w = [] ->
  (Queue.index q (kv w) <> ∅ ->
   exists jobId data priority createdAt sc,
     let j := new_job jobId data priority createdAt in
     let w' := (dequeueJob q w).2 in
     Store.zmin (Queue.index q (kv w)) = Some (JSON.stringify j, sc)
     /\ (dequeueJob q w).1 = Ok j
     /\ Queue.prop "status" (Some j) = Some (JStr "queued")
     /\ Queue.prop "startedAt" (Some j) = None
     /\ Queue.prop "status" (Queue.record q jobId (kv w')) = Some (JStr "processing")
     /\ Queue.prop "startedAt" (Queue.record q jobId (kv w')) = Some (JNum (clock w)))
  /\ (Queue.index q (kv w) = ∅ ->
      forall data priority rnd,
        (dequeueJob q (after (enqueueJob q data priority rnd) w)).1
        = Ok (new_job (job_id (clock w) rnd) data priority (clock w))).
Proof.
  intros Hinv Hf. split.
  - intros Hne. destruct (zmin_nonempty _ Hne) as (m & sc & Hmin).
    destruct (dequeueJob_available q w m sc Hinv Hf Hmin)
      as (jobId & data & priority & createdAt & Hm & E).
    cbv zeta in Hm, E. exists jobId, data, priority, createdAt, sc. cbv zeta.
    rewrite E. cbn [fst snd kv]. rewrite record_written. subst m.
    split; [exact Hmin |]. split; [reflexivity |]. split; [reflexivity |].
    split; [reflexivity |]. cbn [Queue.prop]. split.
    + rewrite obj_get_set_ne by discriminate. apply obj_get_set_eq.
    + apply obj_get_set_eq.
  - intros Hempty data priority rnd. unfold after.
    rewrite (enqueueJob_available q data priority rnd w Hinv Hf). cbn [snd].
    match goal with
    | |- (dequeueJob q ?w1).1 = _ =>
        assert (Hinv1 : Queue.inv q (kv w1));
        [ cbn [kv]; apply inv_insert_jobs, inv_insert_queue;
          [exact Hinv | apply is_job_new] |];
        assert (Hmin1 : Store.zmin (Queue.index q (kv w1))
                        = Some (JSON.stringify
                                  (new_job (job_id (clock w) rnd) data priority (clock w)),
                                priority));
        [ cbn [kv]; rewrite index_insert_jobs, index_insert_queue, Hempty;
          apply zmin_singleton |];
        destruct (dequeueJob_available q w1 _ _ Hinv1 eq_refl Hmin1)
          as (jobId' & data' & priority' & createdAt' & Hm & E)
    end.
    cbv zeta in Hm, E. rewrite E. cbn [fst].
    apply JSONFacts.stringify_inj in Hm. now rewrite Hm.
Qed.

Lemma C10_witness :
  let w := after (enqueueJob "mail" (JStr "hello") 0 "0.5") (World ∅ 1000 []) in
  exists jobId data priority createdAt sc,
    let j := new_job jobId data priority createdAt in
    let w' := (dequeueJob "mail" w).2 in
    Store.zmin (Queue.index "mail" (kv w)) = Some (JSON.stringify j, sc)
    /\ (dequeueJob "mail" w).1 = Ok j
    /\ Queue.prop "status" (Some j) = Some (JStr "queued")
    /\ Queue.prop "startedAt" (Some j) = None
    /\ Queue.prop "status" (Queue.record "mail" jobId (kv w')) = Some (JStr "processing")
    /\ Queue.prop "startedAt" (Queue.record "mail" jobId (kv w')) = Some (JNum (clock w)).
Proof.
  intros w.
  refine (proj1 (C10_dequeue_answers_queued_job "mail" w _ _) _).
  - apply (enqueue_cases "mail" (JStr "hello") 0 "0.5" (World ∅ 1000 [])).
    apply inv_fresh; apply lookup_empty.
  - reflexivity.
  - intros H. apply (f_equal (fun z : gmap string Z => size z)) in H.
    vm_compute in H. discriminate.
Defined.

(** The claim as it is written fails on a job that is completed while it is
    still queued: [completeJob] finds the record that [enqueueJob] wrote and
    marks it 'completed'; the index still holds the job, the next
    [dequeueJob] answers it and puts the record back to 'processing'. *)
Lemma C6_completed_job_dequeued :
  let w1 := after (enqueueJob "mail" (JStr "hello") 0 "0.5") (World ∅ 1000 []) in
  let w2 := after (completeJob "mail" "job:1000:0.5" (Some (JStr "sent"))) w1 in
  let w3 := after (dequeueJob "mail") w2 in
  Queue.prop "status" (Queue.record "mail" "job:1000:0.5" (kv w2))
  = Some (JStr "completed")
  /\ (dequeueJob "mail" w2).1 = Ok (new_job "job:1000:0.5" (JStr "hello") 0 1000)
  /\ Queue.prop "status" (Queue.record "mail" "job:1000:0.5" (kv w3))
     = Some (JStr "processing").
Proof. vm_compute. repeat split; reflexivity. Qed.

(** C6, amended.  On a queue kept by the service: a job made by
    [enqueueJob] is answered by [dequeueJob] at most once in any history of
    enqueues (of other identifiers), dequeues, completions, failures and
    waits, whatever the faults of the store; hence once it has been answered
    it is not answered again, after [completeJob] or [failJob] in particular.
    With the store reachable, [completeJob] (resp. [failJob]) on an existing
    record leaves it with the status 'completed' (resp. 'failed'), the
    timestamp of the call and the result (resp. the error), the other
    properties being kept. *)
Theorem C6_job_lifecycle (q : string) (w : world) :
  Queue.inv q (kv w) ->
  (forall data priority rnd ops,
     let jobId := job_id (clock w) rnd in
     let j := new_job jobId data priority (clock w) in
     let history := (Queue.run q ops (after (enqueueJob q data priority rnd) w)).1 in
     Queue.never_made jobId history ->
     (Queue.answers j history <= 1)%nat)
  /\ (forall data priority rnd before later,
        let jobId := job_id (clock w) rnd in
        let j := new_job jobId data priority (clock w) in
        let w1 := after (enqueueJob q data priority rnd) w in
        let h1 := (Queue.run q before w1).1 in
        let h2 := (Queue.run q later (Queue.run q before w1).2).1 in
        Queue.never_made jobId (h1 ++ h2) ->
        Queue.answers j h1 = 1%nat -> Queue.answers j h2 = 0%nat)
  /\ (forall jobId job result,
        faults w = [] -> Queue.record q jobId (kv w) = Some job ->
        let r := Queue.record q jobId (kv (after (completeJob q jobId result) w)) in
        Queue.prop "status" r = Some (JStr "completed")
        /\ Queue.prop "completedAt" r = Some (JNum (clock w))
        /\ Queue.prop "result" r = result
        /\ (forall k, k <> "status" -> k <> "completedAt" -> k <> "result" ->
                      Queue.prop k r = obj_get k (spread job)))
  /\ (forall jobId job error,
        faults w = [] -> Queue.record q jobId (kv w) = Some job ->
        let r := Queue.record q jobId (kv (after (failJob q jobId error) w)) in
        Queue.prop "status" r = Some (JStr "failed")
        /\ Queue.prop "failedAt" r = Some (JNum (clock w))
        /\ Queue.prop "error" r = Some (JStr error)
        /\ (forall k, k <> "status" -> k <> "failedAt" -> k <> "error" ->
                      Queue.prop k r = obj_get k (spread job))).
Proof.
  intros Hinv.
  assert (Honce : forall data priority rnd ops,
             Queue.never_made (job_id (clock w) rnd)
               (Queue.run q ops (after (enqueueJob q data priority rnd) w)).1 ->
             (Queue.answers (new_job (job_id (clock w) rnd) data priority (clock w))
                (Queue.run q ops (after (enqueueJob q data priority rnd) w)).1 <= 1)%nat).
  { intros data priority rnd ops Hmade.
    pose proof (enqueue_cases q data priority rnd w Hinv) as [Hinv1 _].
    pose proof (run_pending q _ data priority (clock w) ops _ Hinv1 Hmade) as [_ Hle].
    cbv zeta in Hle.
    pose proof (pending_le_1 q (new_job (job_id (clock w) rnd) data priority (clock w))
                  (kv (after (enqueueJob q data priority rnd) w))).
    unfold after in *. lia. }
  split; [exact Honce |]. split; [| split].
  - intros data priority rnd before later jobId j w1 h1 h2 Hmade H1.
    pose proof (Honce data priority rnd (before ++ later)) as Hle.
    rewrite run_app in Hle. cbn [fst] in Hle. fold w1 h1 h2 jobId j in Hle.
    rewrite answers_app in Hle. specialize (Hle Hmade). lia.
  - intros jobId job result Hf Hrec r. subst r. unfold after.
    rewrite (completeJob_available q jobId result job w Hinv Hf Hrec). cbn [snd kv].
    rewrite record_written. cbn [Queue.prop].
    split; [| split; [| split]].
    + rewrite obj_get_set_opt_ne, obj_get_set_ne by discriminate. apply obj_get_set_eq.
    + rewrite obj_get_set_opt_ne by discriminate. apply obj_get_set_eq.
    + apply obj_get_set_opt_eq.
    + intros k H1 H2 H3.
      now rewrite obj_get_set_opt_ne, !obj_get_set_ne by assumption.
  - intros jobId job error Hf Hrec r. subst r. unfold after.
    rewrite (failJob_available q jobId error job w Hinv Hf Hrec). cbn [snd kv].
    rewrite record_written. cbn [Queue.prop].
    split; [| split; [| split]].
    + rewrite !obj_get_set_ne by discriminate. apply obj_get_set_eq.
    + rewrite obj_get_set_ne by discriminate. apply obj_get_set_eq.
    + apply obj_get_set_eq.
    + intros k H1 H2 H3. now rewrite !obj_get_set_ne by assumption.
Qed.

Lemma C6_witness :
  let history :=
    (Queue.run "mail"
       [Queue.Dequeue; Queue.Complete "job:1000:0.5" (Some (JStr "sent")); Queue.Dequeue]
       (after (enqueueJob "mail" (JStr "hello") 0 "0.5") (World ∅ 1000 []))).1 in
  (Queue.answers (new_job "job:1000:0.5" (JStr "hello") 0 1000) history <= 1)%nat.
Proof.
  refine (proj1 (C6_job_lifecycle "mail" (World ∅ 1000 []) _)
            (JStr "hello") 0 "0.5"
            [Queue.Dequeue; Queue.Complete "job:1000:0.5" (Some (JStr "sent"));
             Queue.Dequeue] _).
  - apply inv_fresh; apply lookup_empty.
  - intros jobId' r Hin. vm_compute in Hin.
    repeat (apply elem_of_cons in Hin as [Hin|Hin]; [discriminate |]).
    apply elem_of_nil in Hin. contradiction.
Defined.

(* ================================================================== *)
(** * Further properties of the service *)

(** ** Cache: reads, invalidation, refused writes *)

(** X1. [getCachedData] answers what [JSON.parse] reads in the live text at
    the key, whatever the values of the runtime are, and null in every other
    case: no value, an expired one, a value of another kind, an empty text,
    a text at which [JSON.parse] throws, a store that cannot be reached.  It
    writes nothing. *)
Theorem cache_read_is_parse_of_live_text {V : Type} `{Runtime V} (k : string)
    (w : world) :
  (getCachedData k w).1
  = Ok (if decide (unreachable w) then js_null
        else match holder w k with
             | Some d => default js_null (js_parse d)
             | None => (js_null : V)
             end)
  /\ kv (getCachedData (V := V) k w).2 = kv w.
Proof.
  unfold getCachedData, try_catch, bind, call, unreachable, holder, stored.
  destruct w as [s t fs]. cbn [faults kv clock].
  destruct fs as [|[] fs]; cbn [head].
  2: { rewrite decide_True by reflexivity. split; reflexivity. }
  all: rewrite decide_False by discriminate; unfold get;
    destruct (live t s k) as [[[d|z|h] exp]|]; cbn [fst snd kv];
    try (split; reflexivity).
  all: unfold truthy; destruct (String.eqb_spec d "") as [->|Hne]; cbn [negb];
    [rewrite js_parse_empty; split; reflexivity |];
    destruct (js_parse d); split; reflexivity.
Qed.

(** X2. With the store reachable, [invalidateCache] removes the key: every
    later read of it is a miss; on a key that the store does not hold it
    changes nothing.  Neither [invalidateCache] nor [setCachedData] touches
    another key. *)
Theorem cache_invalidate_removes_only_its_key {V : Type} `{Runtime V} (k : string)
    (w : world) :
  faults w = [] ->
  let w1 := after (invalidateCache k) w in
  (forall d fs,
     (getCachedData k (World (kv w1) (clock w1 + d) fs)).1 = Ok (js_null : V))
  /\ (kv w !! k = None -> kv w1 = kv w)
  /\ (forall k', k' <> k -> kv w1 !! k' = kv w !! k')
  /\ (forall (v : V) ottl k', k' <> k ->
        kv (after (setCachedData k v ottl) w) !! k' = kv w !! k').
Proof.
  intros Hf w1.
  assert (E : w1 = World (delete k (kv w)) (clock w) []).
  { subst w1. unfold after, invalidateCache, try_catch, bind.
    rewrite call_available by assumption. unfold del.
    destruct (live (clock w) (kv w) k); reflexivity. }
  rewrite E. cbn [kv clock]. split; [| split; [| split]].
  - intros d fs. apply getCachedData_absent.
    unfold stored. cbn [kv clock]. apply live_delete_eq.
  - intros Hk. now apply delete_id.
  - intros k' Hk. now apply lookup_delete_ne.
  - intros v ottl k' Hk. unfold after, setCachedData, try_catch.
    rewrite call_available by assumption. unfold setex.
    destruct (default cacheTTL ottl <=? 0); cbn [snd kv]; [reflexivity |].
    now apply lookup_insert_ne.
Qed.

Lemma cache_invalidate_witness :
  let w := after (setCachedData "user:7" (JStr "bob") None) (World ∅ 1000 []) in
  (getCachedData "user:7"
     (World (kv (after (invalidateCache "user:7") w))
            (clock (after (invalidateCache "user:7") w) + 5000) [])).1 = Ok JNull.
Proof.
  intros w.
  exact (proj1 (cache_invalidate_removes_only_its_key (V := json) "user:7" w eq_refl)
           5000 []).
Defined.

(** X3. A TTL that is not positive is refused by the store and the error is
    swallowed: [setCachedData] then writes nothing, raises nothing, and a
    value written before stays where it was. *)
Theorem cache_write_with_bad_ttl_is_dropped {V : Type} `{Runtime V} (k : string)
    (v : V) (ttl : Z) (w : world) :
  ttl <= 0 ->
  (setCachedData k v (Some ttl) w).1 = Ok tt
  /\ kv (setCachedData k v (Some ttl) w).2 = kv w.
Proof.
  intros Httl. unfold setCachedData.
  change (default cacheTTL (Some ttl)) with ttl. unfold try_catch, call, setex.
  destruct (Z.leb_spec ttl 0); [| lia].
  destruct (faults w) as [|[] fs]; split; reflexivity.
Qed.

Lemma cache_write_with_bad_ttl_witness :
  let w := after (setCachedData "user:7" (JStr "bob") None) (World ∅ 1000 []) in
  (setCachedData "user:7" (JStr "eve") (Some 0) w).1 = Ok tt
  /\ kv (setCachedData "user:7" (JStr "eve") (Some 0) w).2 = kv w.
Proof.
  intros w.
  exact (cache_write_with_bad_ttl_is_dropped "user:7" (JStr "eve") 0 w ltac:(reflexivity)).
Defined.

(** ** Sweeps over the keys: pattern invalidation, lock cleanup *)

Section SweepFacts.
Import Sweep.
Variable glob : string -> string -> bool.

Lemma elem_of_keys (pattern : string) (now : Z) (s : gmap string entry) (k : string) :
  forall ks, (keys glob pattern now s).1 = Ok ks ->
  (k ∈ ks <-> (is_live now s k = true /\ glob pattern k = true)).
Proof.
  intros ks [= <-]. rewrite list_elem_of_In, List.filter_In, andb_true_iff.
  split; [intros [_ H]; exact H |]. intros [Hl Hg]. split; [| auto].
  apply list_elem_of_In, list_elem_of_fmap.
  unfold is_live, live in Hl. destruct (s !! k) as [e|] eqn:E; [| discriminate].
  exists (k, e). split; [reflexivity |]. now apply elem_of_map_to_list.
Qed.

Lemma del_each_lookup (ks : list string) (now : Z) (s : gmap string entry) (k : string) :
  (del_each ks now s).2 !! k = if decide (k ∈ ks) then None else s !! k.
Proof.
  revert s. induction ks as [|k0 ks IH]; intros s; cbn [del_each].
  - rewrite decide_False by apply not_elem_of_nil. reflexivity.
  - specialize (IH (delete k0 s)). destruct (del_each ks now (delete k0 s)) as [m s'].
    cbn [snd] in *. rewrite IH.
    destruct (decide (k ∈ ks)) as [Hin|Hnin].
    + rewrite decide_True by (right; exact Hin). reflexivity.
    + destruct (decide (k = k0)) as [->|Hne].
      * rewrite decide_True by left. apply lookup_delete_eq.
      * rewrite decide_False by (intros [?|?]%elem_of_cons; contradiction).
        now apply lookup_delete_ne.
Qed.

(** The world after [invalidateCachePattern] with the store reachable. *)
Lemma invalidateCachePattern_available (pattern : string) (w : world) :
  faults w = [] ->
  exists ks fs,
    (keys glob pattern (clock w) (kv w)).1 = Ok ks
    /\ after (invalidateCachePattern glob pattern) w
       = World (del_each ks (clock w) (kv w)).2 (clock w) fs.
Proof.
  intros Hf. unfold after, invalidateCachePattern, try_catch, bind.
  rewrite call_available by assumption.
  exists (List.filter (fun k => is_live (clock w) (kv w) k && glob pattern k)
            (map_to_list (kv w)).*1).
  unfold keys. cbn [fst snd].
  destruct (List.filter _ _) as [|k0 ks] eqn:E.
  - exists []. split; [reflexivity |]. reflexivity.
  - exists []. split; [reflexivity |].
    change (0 <? length (k0 :: ks))%nat with true. cbv beta iota.
    rewrite call_available by reflexivity. cbn [kv clock]. unfold del_many.
    destruct (del_each (k0 :: ks) (clock w) (kv w)) as [n s']. reflexivity.
Qed.

Lemma swept_lookup (ks : list string) (s : gmap string entry) (k : string) :
  swept ks s !! k
  = match s !! k with
    | Some (Entry v None) => if decide (k ∈ ks) then None else Some (Entry v None)
    | o => o
    end.
Proof.
  revert s. induction ks as [|k0 ks IH]; intros s.
  - unfold swept. cbn [fold_left].
    destruct (s !! k) as [[v [t|]]|]; reflexivity.
  - unfold swept. cbn [fold_left]. fold (swept ks).
    rewrite IH. destruct (decide (k = k0)) as [->|Hne].
    + destruct (s !! k0) as [[v [t|]]|] eqn:E; rewrite ?E; try reflexivity.
      rewrite lookup_delete_eq. rewrite decide_True by left. reflexivity.
    + assert (Hl : (match s !! k0 with
                    | Some (Entry _ None) => delete k0 s
                    | _ => s
                    end) !! k = s !! k).
      { destruct (s !! k0) as [[v [t|]]|]; try reflexivity. now apply lookup_delete_ne. }
      rewrite Hl. destruct (s !! k) as [[v [t|]]|]; try reflexivity.
      destruct (decide (k ∈ ks)) as [Hin|Hnin].
      * rewrite decide_True by (right; exact Hin). reflexivity.
      * rewrite decide_False by (intros [?|?]%elem_of_cons; contradiction). reflexivity.
Qed.

Lemma cleanup_loop_available (ks : list string) (s : gmap string entry) (t : Z) :
  cleanup_loop ks (World s t []) = (Ok tt, World (swept ks s) t []).
Proof.
  revert s. induction ks as [|k0 ks IH]; intros s; [reflexivity |].
  cbn [cleanup_loop]. unfold bind at 1. rewrite call_available by reflexivity.
  cbn [kv clock]. unfold pttl, live, expired. unfold swept. cbn [fold_left]. fold (swept ks).
  destruct (s !! k0) as [[v [t0|]]|] eqn:E; cbn [e_exp].
  - destruct (Z.leb_spec t0 t) as [Hle|Hlt]; cbn [e_exp].
    + change (-2 =? -2) with true. cbv iota. apply IH.
    + destruct (Z.eqb_spec (t0 - t) (-2)); [lia |].
      destruct (Z.eqb_spec (t0 - t) (-1)); [lia |].
      unfold bind, ret. apply IH.
  - change (-1 =? -2) with false. change (-1 =? -1) with true. cbv iota.
    unfold bind at 1. unfold bind at 1. rewrite call_available by reflexivity.
    cbn [kv clock]. unfold del, live. rewrite E. cbn [expired e_exp]. unfold ret.
    apply IH.
  - change (-2 =? -2) with true. cbv iota. apply IH.
Qed.

Lemma cleanupExpiredLocks_available (w : world) :
  faults w = [] ->
  exists ks,
    (keys glob "lock:*" (clock w) (kv w)).1 = Ok ks
    /\ cleanupExpiredLocks glob w = (Ok tt, World (swept ks (kv w)) (clock w) []).
Proof.
  intros Hf. unfold cleanupExpiredLocks, try_catch, bind.
  rewrite call_available by assumption.
  eexists. split; [reflexivity |]. unfold keys. rewrite cleanup_loop_available.
  reflexivity.
Qed.

End SweepFacts.

(** X4. With the store reachable, [invalidateCachePattern] leaves no key
    that matches the pattern (every one reads as absent) and leaves every
    other key as it was; it raises in no world. *)
Theorem pattern_invalidation_removes_the_matching_keys
    (glob : string -> string -> bool) (pattern : string) (w : world) :
  faults w = [] ->
  let w1 := after (Sweep.invalidateCachePattern glob pattern) w in
  (forall k, glob pattern k = true -> stored w1 k = None)
  /\ (forall k, glob pattern k = false -> kv w1 !! k = kv w !! k)
  /\ (forall w', (Sweep.invalidateCachePattern glob pattern w').1 = Ok tt).
Proof.
  intros Hf w1. split; [| split].
  3: { intros w'. apply catch_ret_unit. }
  all: intros k Hk; subst w1;
    destruct (invalidateCachePattern_available glob pattern w Hf) as (ks & fs & Eks & ->);
    pose proof (elem_of_keys glob pattern (clock w) (kv w) k ks Eks) as Hin;
    pose proof (del_each_lookup ks (clock w) (kv w) k) as Hl.
  - unfold stored, live. cbn [kv clock]. rewrite Hl.
    destruct (decide (k ∈ ks)) as [_|Hnin]; [reflexivity |].
    destruct (kv w !! k) as [e|] eqn:E; [| reflexivity].
    destruct (expired (clock w) e) eqn:Ee; [reflexivity |].
    exfalso. apply Hnin, Hin. split; [| exact Hk].
    unfold Sweep.is_live, live. now rewrite E, Ee.
  - cbn [kv]. rewrite Hl. rewrite decide_False; [reflexivity |].
    intros Hks. apply Hin in Hks as [_ Hg]. congruence.
Qed.

Lemma pattern_invalidation_witness :
  let w := after (setCachedData "user:7" (JStr "bob") None)
             (after (setCachedData "team:1" (JStr "ops") None) (World ∅ 1000 [])) in
  let w1 := after (Sweep.invalidateCachePattern Sweep.prefix_glob "user:*") w in
  (getCachedData "user:7" w1).1 = Ok JNull
  /\ (getCachedData "team:1" w1).1 = Ok (JStr "ops").
Proof.
  intros w w1.
  destruct (pattern_invalidation_removes_the_matching_keys Sweep.prefix_glob "user:*" w
              eq_refl) as (H1 & H2 & _).
  split.
  - exact (getCachedData_absent (V := json) "user:7" w1 (H1 "user:7" eq_refl)).
  - vm_compute. reflexivity.
Defined.

(** X5. With the store reachable, [cleanupExpiredLocks] leaves no key that
    matches lock:* without an expiry: each one is absent or carries a lease.
    A key that does not match, and a key that has an expiry, is left as it
    was.  The call raises in no world. *)
Theorem lock_cleanup_removes_the_locks_without_expiry
    (glob : string -> string -> bool) (w : world) :
  faults w = [] ->
  let w1 := after (Sweep.cleanupExpiredLocks glob) w in
  (forall k, glob "lock:*" k = true ->
     stored w1 k = None \/ Sweep.leased (kv w1) k)
  /\ (forall k, glob "lock:*" k = false -> kv w1 !! k = kv w !! k)
  /\ (forall k, Sweep.leased (kv w) k -> kv w1 !! k = kv w !! k)
  /\ (forall w', (Sweep.cleanupExpiredLocks glob w').1 = Ok tt).
Proof.
  intros Hf w1.
  destruct (cleanupExpiredLocks_available glob w Hf) as (ks & Eks & E).
  assert (Ekv : forall k, kv w1 !! k = Sweep.swept ks (kv w) !! k).
  { intros k. subst w1. unfold after. rewrite E. reflexivity. }
  assert (Eclock : clock w1 = clock w).
  { subst w1. unfold after. rewrite E. reflexivity. }
  split; [| split; [| split]].
  - intros k Hk. unfold stored, live, Sweep.leased. rewrite Eclock, !Ekv, swept_lookup.
    pose proof (elem_of_keys glob "lock:*" (clock w) (kv w) k ks Eks) as Hin.
    destruct (kv w !! k) as [[v [t|]]|] eqn:Ek.
    + right. eauto.
    + left. rewrite decide_True; [reflexivity |]. apply Hin. split; [| exact Hk].
      unfold Sweep.is_live, live. rewrite Ek. reflexivity.
    + left. reflexivity.
  - intros k Hk. rewrite Ekv, swept_lookup.
    pose proof (elem_of_keys glob "lock:*" (clock w) (kv w) k ks Eks) as Hin.
    destruct (kv w !! k) as [[v [t|]]|] eqn:Ek; try reflexivity.
    rewrite decide_False; [reflexivity |]. intros Hks. apply Hin in Hks as [_ Hg].
    congruence.
  - intros k (v & t & Hl). rewrite Ekv, swept_lookup, Hl. reflexivity.
  - intros w'. apply catch_ret_unit.
Qed.


Lemma lock_cleanup_witness :
  let w := World {[ "lock:a" := Entry (RString "stale") None;
                    "lock:b" := Entry (RString "1000-0.5") (Some 31000) ]} 1000 [] in
  let w1 := after (Sweep.cleanupExpiredLocks Sweep.prefix_glob) w in
  stored w1 "lock:a" = None /\ holder w1 "lock:b" = Some "1000-0.5".
Proof.
  intros w w1.
  destruct (lock_cleanup_removes_the_locks_without_expiry Sweep.prefix_glob w eq_refl)
    as (H1 & _ & H3 & _).
  split.
  - destruct (H1 "lock:a" eq_refl) as [H|(v & t & H)]; [exact H |].
    vm_compute in H. discriminate H.
  - unfold holder, stored, live. subst w1. rewrite (H3 "lock:b").
    + vm_compute. reflexivity.
    + exists (RString "1000-0.5"), 31000. vm_compute. reflexivity.
Defined.

(** ** The lock: what a call leaves behind *)

(** X6. What [acquireLock] leaves behind.  A token that it returns is the
    text made of the instant of the call, a dash and the random number; the
    key then holds that token with an expiry [ttl] milliseconds after the
    instant of the return, and no other key has changed.  When it returns
    null the key space is as it was.  It never raises. *)
Theorem lock_acquire_outcome (key : string) (ttl retryCount retryDelay : Z)
    (rnd : string) (w : world) :
  let w1 := after (acquireLock key ttl retryCount retryDelay rnd) w in
  clock w <= clock w1
  /\ match (acquireLock key ttl retryCount retryDelay rnd w).1 with
     | Ok (Some tok) =>
         tok = lock_id (clock w) rnd /\ 0 < ttl /\ 0 < retryCount
         /\ kv w1 = <[key := Entry (RString tok) (Some (clock w1 + ttl))]> (kv w)
         /\ holder w1 key = Some tok
     | Ok None => kv w1 = kv w
     | Err _ => False
     end.
Proof.
  cbv zeta. unfold after, acquireLock, bind, date_now.
  pose proof (acquire_loop_outcome key (lock_id (clock w) rnd) ttl retryCount retryDelay
                (Z.to_nat retryCount) 0 w) as [Hc Hr].
  destruct (acquire_loop _ _ _ _ _ _ _ _) as [[[tok|]|e] w1]; cbn [fst snd] in *;
    (split; [exact Hc |]); try exact Hr.
  destruct Hr as (-> & Hpos & Hn & Hkv). repeat split; try assumption; try lia.
  unfold holder, stored, live. rewrite Hkv, lookup_insert_eq. unfold expired. cbn [e_exp].
  destruct (Z.leb_spec (clock w1 + ttl) (clock w1)); [lia | reflexivity].
Qed.

(** X7. The lease of a lock is [ttl] milliseconds from the return of the
    call: the returned token is what the key holds at every instant before
    the lease ends, and from then on the key reads as free. *)
Theorem lock_is_held_for_its_lease (key : string) (ttl retryCount retryDelay : Z)
    (rnd tok : string) (w : world) (d : Z) :
  (acquireLock key ttl retryCount retryDelay rnd w).1 = Ok (Some tok) ->
  0 <= d ->
  holder (elapse d (after (acquireLock key ttl retryCount retryDelay rnd) w)) key
  = if d <? ttl then Some tok else None.
Proof.
  intros Hr Hd.
  destruct (acquireLock_success key ttl retryCount retryDelay rnd tok w Hr)
    as (_ & Hpos & Hkv).
  unfold holder, stored, live, elapse. cbn [kv clock]. rewrite Hkv, lookup_insert_eq.
  unfold expired. cbn [e_exp].
  set (t1 := clock (after (acquireLock key ttl retryCount retryDelay rnd) w)).
  destruct (Z.ltb_spec d ttl); destruct (Z.leb_spec (t1 + ttl) (t1 + d));
    try reflexivity; lia.
Qed.

Lemma lock_is_held_for_its_lease_witness :
  let w := World ∅ 1000 [] in
  let w1 := after (acquireLock "lock:export" 30000 3 100 "0.25") w in
  holder (elapse 29999 w1) "lock:export" = Some "1000-0.25"
  /\ holder (elapse 30000 w1) "lock:export" = None.
Proof.
  intros w w1. split.
  - apply (lock_is_held_for_its_lease "lock:export" 30000 3 100 "0.25" "1000-0.25" w 29999);
      [vm_compute; reflexivity | lia].
  - apply (lock_is_held_for_its_lease "lock:export" 30000 3 100 "0.25" "1000-0.25" w 30000);
      [vm_compute; reflexivity | lia].
Defined.


(** X8. A lock that [acquireLock] has taken survives the cleanup: with the
    store reachable, [cleanupExpiredLocks] run at the return of the call
    leaves the token at the key, whatever the matcher of KEYS does. *)
Theorem lock_taken_survives_cleanup (glob : string -> string -> bool)
    (key : string) (ttl retryCount retryDelay : Z) (rnd tok : string) (w : world) :
  (acquireLock key ttl retryCount retryDelay rnd w).1 = Ok (Some tok) ->
  let w1 := after (acquireLock key ttl retryCount retryDelay rnd) w in
  faults w1 = [] ->
  holder (after (Sweep.cleanupExpiredLocks glob) w1) key = Some tok.
Proof.
  intros Hr w1 Hf.
  destruct (acquireLock_success key ttl retryCount retryDelay rnd tok w Hr)
    as (_ & Hpos & Hkv). fold w1 in Hkv.
  destruct (cleanupExpiredLocks_available glob w1 Hf) as (ks & _ & E).
  unfold after. rewrite E. unfold holder, stored, live. cbn [snd kv clock].
  rewrite swept_lookup, Hkv, lookup_insert_eq. unfold expired. cbn [e_exp].
  destruct (Z.leb_spec (clock w1 + ttl) (clock w1)); [lia | reflexivity].
Qed.

Lemma lock_taken_survives_cleanup_witness :
  let w1 := after (acquireLock "lock:export" 30000 3 100 "0.25") (World ∅ 1000 []) in
  holder (after (Sweep.cleanupExpiredLocks Sweep.prefix_glob) w1) "lock:export"
  = Some "1000-0.25".
Proof.
  intros w1.
  apply (lock_taken_survives_cleanup Sweep.prefix_glob "lock:export" 30000 3 100 "0.25"
           "1000-0.25" (World ∅ 1000 [])); vm_compute; reflexivity.
Defined.

Lemma acquire_loop_free (key lockId : string) (ttl retryCount retryDelay : Z)
    (n : nat) (i : Z) (w : world) :
  faults w = [] -> stored w key = None -> 0 < ttl ->
  acquire_loop key lockId ttl retryCount retryDelay (S n) i w
  = (Ok (Some lockId),
     World (<[key := Entry (RString lockId) (Some (clock w + ttl))]> (kv w)) (clock w) []).
Proof.
  intros Hf Hs Hpos. cbn [acquire_loop]. unfold bind, try_catch.
  rewrite call_available by assumption. unfold set_nx_px.
  destruct (Z.leb_spec ttl 0); [lia |]. unfold stored in Hs. rewrite Hs. reflexivity.
Qed.

(** X9. Taking and giving back a free lock.  With the store reachable, a
    positive [ttl] and at least one attempt, [acquireLock] on a key that
    reads as free returns its token at once (the clock has not moved);
    [releaseLock] with that token then returns true and the key reads as
    free again, every other key being as before the two calls; a second
    [releaseLock] with the token returns false. *)
Theorem lock_round_trip (key : string) (ttl retryCount retryDelay : Z)
    (rnd : string) (w : world) :
  faults w = [] -> stored w key = None -> 0 < ttl -> 0 < retryCount ->
  let tok := lock_id (clock w) rnd in
  let w1 := after (acquireLock key ttl retryCount retryDelay rnd) w in
  let w2 := after (releaseLock key tok) w1 in
  (acquireLock key ttl retryCount retryDelay rnd w).1 = Ok (Some tok)
  /\ clock w1 = clock w
  /\ (releaseLock key tok w1).1 = Ok true
  /\ stored w2 key = None
  /\ (forall k', k' <> key -> kv w2 !! k' = kv w !! k')
  /\ (releaseLock key tok w2).1 = Ok false.
Proof.
  intros Hf Hs Hpos Hrc tok w1 w2.
  assert (E1 : acquireLock key ttl retryCount retryDelay rnd w
               = (Ok (Some tok),
                  World (<[key := Entry (RString tok) (Some (clock w + ttl))]> (kv w))
                        (clock w) [])).
  { unfold acquireLock, bind, date_now.
    destruct (Z.to_nat retryCount) as [|n] eqn:En; [lia |].
    now apply acquire_loop_free. }
  assert (Elive : forall s, live (clock w)
                    (<[key := Entry (RString tok) (Some (clock w + ttl))]> s) key
                  = Some (Entry (RString tok) (Some (clock w + ttl)))).
  { intros s. rewrite live_insert_eq. unfold expired. cbn [e_exp].
    destruct (Z.leb_spec (clock w + ttl) (clock w)); [lia | reflexivity]. }
  assert (E2 : releaseLock key tok w1
               = (Ok true, World (delete key (kv w1)) (clock w) [])).
  { subst w1. unfold after. rewrite E1. cbn [snd].
    unfold releaseLock, try_catch, bind. rewrite call_available by reflexivity.
    cbn [kv clock]. unfold eval_release, get, del. rewrite Elive.
    rewrite String.eqb_refl. reflexivity. }
  assert (E3 : releaseLock key tok w2 = (Ok false, w2)).
  { subst w2. unfold after. rewrite E2. cbn [snd].
    unfold releaseLock, try_catch, bind. rewrite call_available by reflexivity.
    cbn [kv clock]. unfold eval_release, get. rewrite live_delete_eq. reflexivity. }
  subst w2. unfold after in *. rewrite E3. rewrite E2. subst w1. rewrite E1.
  cbn [fst snd kv clock]. repeat split.
  - unfold stored. cbn [kv clock]. apply live_delete_eq.
  - intros k' Hne. rewrite lookup_delete_ne by congruence.
    now rewrite lookup_insert_ne by congruence.
Qed.

Lemma lock_round_trip_witness :
  let w := World ∅ 1000 [] in
  let w1 := after (acquireLock "lock:export" 30000 3 100 "0.25") w in
  (acquireLock "lock:export" 30000 3 100 "0.25" w).1 = Ok (Some "1000-0.25")
  /\ (releaseLock "lock:export" "1000-0.25" w1).1 = Ok true.
Proof.
  intros w w1.
  destruct (lock_round_trip "lock:export" 30000 3 100 "0.25" w) as (H1 & _ & H3 & _);
    [reflexivity | reflexivity | lia | lia |].
  split; [exact H1 | exact H3].
Defined.

Lemma acquire_loop_faults (key lockId : string) (ttl retryCount retryDelay : Z)
    (n : nat) (i : Z) (j : nat) (w : world) :
  faults w = repeat true j -> kv w !! key = None -> 0 < ttl ->
  retryCount = i + Z.of_nat n ->
  if (j <? n)%nat
  then acquire_loop key lockId ttl retryCount retryDelay n i w
       = (Ok (Some lockId),
          World (<[key := Entry (RString lockId)
                            (Some (clock w + Z.of_nat j * Z.max 0 retryDelay + ttl))]> (kv w))
                (clock w + Z.of_nat j * Z.max 0 retryDelay) [])
  else (acquire_loop key lockId ttl retryCount retryDelay n i w).1 = Ok None
       /\ kv (acquire_loop key lockId ttl retryCount retryDelay n i w).2 = kv w.
Proof.
  revert i j w. induction n as [|n IH]; intros i j w Hf Hk Hpos Hrc.
  - destruct (j <? 0)%nat eqn:E; [apply Nat.ltb_lt in E; lia |].
    split; reflexivity.
  - destruct j as [|j].
    + change (0 <? S n)%nat with true. cbv iota.
      rewrite acquire_loop_free; try assumption.
      * change (Z.of_nat 0) with 0. rewrite Z.mul_0_l, Z.add_0_r. reflexivity.
      * unfold stored, live. now rewrite Hk.
    + change (S j <? S n)%nat with (j <? n)%nat.
      assert (Eq : acquire_loop key lockId ttl retryCount retryDelay (S n) i w
                   = acquire_loop key lockId ttl retryCount retryDelay n (i + 1)
                       (if i <? retryCount - 1
                        then World (kv w) (clock w + Z.max 0 retryDelay) (repeat true j)
                        else World (kv w) (clock w) (repeat true j))).
      { cbn [acquire_loop]. unfold bind, try_catch.
        rewrite (call_faulty _ w (repeat true j)) by exact Hf.
        unfold ret, sleep. cbn [kv clock faults].
        destruct (i <? retryCount - 1); reflexivity. }
      rewrite Eq. clear Eq.
      destruct (Z.ltb_spec i (retryCount - 1)) as [Hlt|Hge].
      * specialize (IH (i + 1) j (World (kv w) (clock w + Z.max 0 retryDelay) (repeat true j))
                       eq_refl Hk Hpos ltac:(lia)).
        cbn [kv clock] in IH. destruct (j <? n)%nat; [| exact IH].
        rewrite IH. rewrite Nat2Z.inj_succ. set (m := Z.max 0 retryDelay).
        replace (clock w + m + Z.of_nat j * m) with (clock w + Z.succ (Z.of_nat j) * m)
          by ring.
        reflexivity.
      * assert (n = O) by lia. subst n.
        destruct (j <? 0)%nat eqn:E; [apply Nat.ltb_lt in E; lia |].
        split; reflexivity.
Qed.

(** X10. [acquireLock] retries through connection failures.  On a key that
    holds nothing, with a positive [ttl], when the next [j] round trips to
    the store fail and the following ones succeed: with j < retryCount the
    call returns its token after [j] pauses of [retryDelay] milliseconds and
    the lease runs from that instant; with retryCount <= j it returns null
    and the key space is as it was. *)
Theorem lock_acquire_retries_through_faults (key : string)
    (ttl retryCount retryDelay : Z) (rnd : string) (j : nat) (w : world) :
  faults w = repeat true j -> kv w !! key = None -> 0 < ttl ->
  let w1 := after (acquireLock key ttl retryCount retryDelay rnd) w in
  if Z.of_nat j <? retryCount
  then (acquireLock key ttl retryCount retryDelay rnd w).1
       = Ok (Some (lock_id (clock w) rnd))
       /\ clock w1 = clock w + Z.of_nat j * Z.max 0 retryDelay
       /\ kv w1 = <[key := Entry (RString (lock_id (clock w) rnd))
                            (Some (clock w1 + ttl))]> (kv w)
       /\ faults w1 = []
  else (acquireLock key ttl retryCount retryDelay rnd w).1 = Ok None
       /\ kv w1 = kv w.
Proof.
  intros Hf Hk Hpos w1. subst w1. unfold after, acquireLock, bind, date_now.
  destruct (Z.le_gt_cases retryCount 0) as [Hle|Hgt].
  - rewrite Z2Nat.nonpos by assumption.
    destruct (Z.ltb_spec (Z.of_nat j) retryCount); [lia |]. split; reflexivity.
  - pose proof (acquire_loop_faults key (lock_id (clock w) rnd) ttl retryCount retryDelay
                  (Z.to_nat retryCount) 0 j w Hf Hk Hpos ltac:(lia)) as H.
    destruct (Z.ltb_spec (Z.of_nat j) retryCount) as [Hlt|Hge].
    + destruct (Nat.ltb_spec j (Z.to_nat retryCount)); [| lia].
      rewrite H. cbn [fst snd kv clock faults]. repeat split.
    + destruct (Nat.ltb_spec j (Z.to_nat retryCount)); [lia |]. exact H.
Qed.

Lemma lock_acquire_retries_witness :
  let w := World ∅ 1000 [true; true] in
  (acquireLock "lock:export" 30000 3 100 "0.25" w).1 = Ok (Some "1000-0.25")
  /\ clock (after (acquireLock "lock:export" 30000 3 100 "0.25") w) = 1200.
Proof.
  intros w.
  destruct (lock_acquire_retries_through_faults "lock:export" 30000 3 100 "0.25" 2 w)
    as (H1 & H2 & _); [reflexivity | reflexivity | lia |].
  split; [exact H1 | exact H2].
Defined.


(** ** The circuit breaker: when the check refuses, what it writes *)

Lemma breaker_opens_at_five_failures_witness :
  let w1 := times 5 (recordCircuitBreakerFailure "billing") (World ∅ 1000 []) in
  (checkCircuitBreaker "billing" 3 60000 (elapse 60000 w1)).1 = Ok false
  /\ (checkCircuitBreaker "billing" 3 60000 (elapse 60001 w1)).1 = Ok true.
Proof.
  intros w1.
  destruct (breaker_opens_at_five_failures "billing" 3 60000 5 (World ∅ 1000 []))
    as [H1 H2];
    [reflexivity | left; split; reflexivity | lia | vm_compute; reflexivity |].
  split.
  - exact (proj1 (H1 60000 ltac:(lia))).
  - exact (proj1 (H2 60001 ltac:(lia))).
Defined.

Lemma breaker_closed_below_five_witness :
  (checkCircuitBreaker "billing" 3 60000
     (elapse 10 (times 4 (recordCircuitBreakerFailure "billing") (World ∅ 1000 [])))).1
  = Ok true.
Proof.
  apply (breaker_closed_below_five "billing" 3 60000 4 (World ∅ 1000 []));
    [reflexivity | left; split; reflexivity | reflexivity | lia].
Defined.

Lemma call_get (k : string) (w : world) :
  kv (call (get k) w).2 = kv w /\ clock (call (get k) w).2 = clock w
  /\ forall y, (call (get k) w).1 = Ok y -> y = holder w k.
Proof.
  unfold call, get, holder, stored. destruct w as [s t [|[] fs]];
    cbn [kv clock faults tail]; destruct (live t s k) as [[[v|z|h] ex]|];
    cbn [fst snd kv clock]; repeat split; intros y Hy; congruence.
Qed.

Lemma call_both_gets (a b : string) (w : world) :
  match call_both (get a) (get b) w with
  | (Ok (x, y), w1) =>
      kv w1 = kv w /\ clock w1 = clock w /\ (forall v, y = Some v -> holder w b = Some v)
  | (Err _, w1) => kv w1 = kv w
  end.
Proof.
  unfold call_both.
  destruct (call_get a w) as (Ha1 & Ha2 & _).
  destruct (call (get a) w) as [ra w1]. cbn [fst snd] in *.
  destruct (call_get b w1) as (Hb1 & Hb2 & Hb3).
  destruct (call (get b) w1) as [rb w2]. cbn [fst snd] in *.
  assert (Hh : holder w1 b = holder w b).
  { unfold holder, stored. now rewrite Ha1, Ha2. }
  destruct ra as [x|e]; destruct rb as [y|e']; try congruence.
  repeat split; try congruence. intros v ->. rewrite <- Hh. symmetry. now apply Hb3.
Qed.

(** X13. [checkCircuitBreaker] refuses only an open circuit, and a refusal
    writes nothing; on a circuit whose state reads neither open nor
    half-open it writes nothing either (and permits).  This holds in every
    world, whatever the store answers. *)
Theorem breaker_refuses_only_when_open (serviceName : string) (ft rt : Z) (w : world) :
  ((checkCircuitBreaker serviceName ft rt w).1 = Ok false ->
     holder w (state_key serviceName) = Some "open"
     /\ kv (checkCircuitBreaker serviceName ft rt w).2 = kv w)
  /\ (holder w (state_key serviceName) <> Some "open" ->
      holder w (state_key serviceName) <> Some "half-open" ->
      (checkCircuitBreaker serviceName ft rt w).1 = Ok true
      /\ kv (checkCircuitBreaker serviceName ft rt w).2 = kv w).
Proof.
  unfold checkCircuitBreaker, try_catch, bind.
  pose proof (call_both_gets (failure_key serviceName) (state_key serviceName) w) as H.
  destruct (call_both _ _ w) as [[[fc st]|e] w1].
  2: { cbn [fst snd]. unfold ret. cbn [fst snd]. split; [discriminate | auto]. }
  destruct H as (Hkv & Hclock & Hst).
  destruct (decide (st = Some "open")) as [->|Hno].
  - specialize (Hst _ eq_refl).
    pose proof (call_reads (get (last_failure_key serviceName)) w1
                  (get_reads (last_failure_key serviceName))) as Hkv2.
    destruct (call (get (last_failure_key serviceName)) w1) as [[l|e] w2];
      cbn [fst snd] in *.
    2: { unfold ret. cbn [fst snd]. split; [discriminate | congruence]. }
    unfold date_now. cbn [fst snd].
    destruct (truthy l && _).
    + destruct (call (set (state_key serviceName) "half-open") w2) as [[u|e] w3];
        unfold ret; cbn [fst snd]; (split; [discriminate | congruence]).
    + unfold ret. cbn [fst snd]. split; [intros _; split; congruence | congruence].
  - destruct (decide (st = Some "half-open")) as [->|Hnh].
    + specialize (Hst _ eq_refl). split; [| congruence]. intros Hfalse. exfalso.
      destruct (call (set (state_key serviceName) "closed") w1) as [[u|e] w2];
        [| discriminate Hfalse].
      destruct (call (del (failure_key serviceName)) w2) as [[u'|e] w3];
        discriminate Hfalse.
    + unfold ret. cbn [fst snd]. split; [discriminate | auto].
Qed.

Section BreakerCycle.
Variable serviceName : string.

Lemma failures_at_state (n : Z) (s : gmap string entry) (e : entry) :
  failures_at serviceName n s ->
  failures_at serviceName n (<[state_key serviceName := e]> s).
Proof.
  destruct (circuit_keys_distinct serviceName) as (Hfs & _).
  unfold failures_at. rewrite lookup_insert_ne by (apply not_eq_sym; exact Hfs). auto.
Qed.

(** X14. A failure while the circuit is half-open opens it again.  After
    five failures or more, once a check past the recovery timeout has let
    one call through (half-open), a failure recorded at whatever later
    instant sets the state to open, and checks are refused again until the
    recovery timeout has passed since that failure. *)
Theorem breaker_failure_while_half_open_reopens (ft rt : Z) (k : nat) (w : world)
    (d d' : Z) :
  faults w = [] -> failures_at serviceName 0 (kv w) ->
  (5 <= k)%nat -> Z.of_nat k + 1 < int64_max -> rt < d ->
  let w1 := times k (recordCircuitBreakerFailure serviceName) w in
  let w2 := after (checkCircuitBreaker serviceName ft rt) (elapse d w1) in
  let w3 := after (recordCircuitBreakerFailure serviceName) (elapse d' w2) in
  holder w2 (state_key serviceName) = Some "half-open"
  /\ holder w3 (state_key serviceName) = Some "open"
  /\ (forall d'', d'' <= rt ->
        (checkCircuitBreaker serviceName ft rt (elapse d'' w3)).1 = Ok false)
  /\ (forall d'', rt < d'' ->
        (checkCircuitBreaker serviceName ft rt (elapse d'' w3)).1 = Ok true).
Proof.
  intros Hf Hat Hk Hmax Hd w1 w2 w3.
  destruct (record_failures serviceName k 0 w Hf ltac:(lia) ltac:(lia) Hat ltac:(lia))
    as (s & E & _).
  assert (E2 : w2 = World (<[state_key serviceName := Entry (RString "half-open") None]>
                             (recorded serviceName (0 + Z.of_nat k) (clock w) s))
                          (clock w + d) []).
  { subst w2 w1. rewrite E. unfold elapse, after. cbn [kv clock faults].
    rewrite check_open by lia.
    destruct (Z.ltb_spec rt (clock w + d - clock w)); [reflexivity | lia]. }
  assert (E3 : w3 = World (recorded serviceName (0 + Z.of_nat k + 1) (clock w + d + d')
                             (kv w2)) (clock w + d + d') []).
  { subst w3. unfold after, elapse.
    rewrite (record_failure_available serviceName (0 + Z.of_nat k)).
    - rewrite E2. reflexivity.
    - rewrite E2. reflexivity.
    - lia.
    - rewrite E2. cbn [kv]. apply failures_at_state, recorded_failures. }
  split; [| split; [| split]].
  - rewrite E2. unfold holder, stored, live. cbn [kv clock].
    now rewrite lookup_insert_eq.
  - rewrite E3. unfold holder, stored, live. cbn [kv clock].
    destruct (recorded_open serviceName (0 + Z.of_nat k + 1) (clock w + d + d') (kv w2))
      as (_ & Hs & _); [lia |]. now rewrite Hs.
  - intros d'' Hd''. rewrite E3. unfold elapse. cbn [kv clock faults].
    rewrite check_open by lia.
    destruct (Z.ltb_spec rt (clock w + d + d' + d'' - (clock w + d + d'))); [lia |].
    reflexivity.
  - intros d'' Hd''. rewrite E3. unfold elapse. cbn [kv clock faults].
    rewrite check_open by lia.
    destruct (Z.ltb_spec rt (clock w + d + d' + d'' - (clock w + d + d'))); [| lia].
    reflexivity.
Qed.

End BreakerCycle.

Lemma breaker_failure_while_half_open_witness :
  let w1 := times 5 (recordCircuitBreakerFailure "billing") (World ∅ 1000 []) in
  let w2 := after (checkCircuitBreaker "billing" 5 60000) (elapse 60001 w1) in
  let w3 := after (recordCircuitBreakerFailure "billing") (elapse 10 w2) in
  holder w2 (state_key "billing") = Some "half-open"
  /\ holder w3 (state_key "billing") = Some "open".
Proof.
  intros w1 w2 w3.
  destruct (breaker_failure_while_half_open_reopens "billing" 5 60000 5 (World ∅ 1000 [])
              60001 10) as (H1 & H2 & _);
    [reflexivity | left; split; reflexivity | lia | vm_compute; reflexivity | lia |].
  split; [exact H1 | exact H2].
Defined.


(** ** The rate limiter across windows *)

Lemma rate_limit_one_window_witness :
  (rate_checks "org1" "upload" 2 60 [0; 5; 5] (World ∅ 1700000000000 [])).1
  = window_answers 2 60 28333333 1 3.
Proof.
  apply (rate_limit_one_window "org1" "upload" 2 60 ltac:(lia) 28333333 0 [5; 5]
           (World ∅ 1700000000000 []));
    try reflexivity; cbn; try lia.
  repeat split; try lia; reflexivity.
Defined.

Section AcrossWindows.
Variables identifier action : string.
Variables limit windowSeconds : Z.
Hypothesis window_positive : 0 < windowSeconds.

Lemma window_start_below (now first : Z) :
  0 <= now -> now <= 1000 * first ->
  now / (1000 * windowSeconds) * windowSeconds <= first.
Proof.
  intros Hnow Hle.
  pose proof (Z.mul_div_le now (1000 * windowSeconds) ltac:(lia)). nia.
Qed.

Lemma rate_checks_running (first : Z) (delays : list Z) (w : world)
    (z : gmap string Z) :
  let key := rate_key identifier action in
  faults w = [] -> 0 <= first <= clock w ->
  kv w !! key = Some (Entry (RZSet z) (Some (clock w + windowSeconds * 2 * 1000))) ->
  (forall m sc, z !! m = Some sc -> m = toString sc /\ first <= sc <= clock w) ->
  steady windowSeconds first (clock w) delays ->
  (rate_checks identifier action limit windowSeconds delays w).1
  = running_answers limit windowSeconds (clock w) (Z.of_nat (size z) + 1) delays.
Proof.
  intros key. revert w z.
  induction delays as [|d ds IH]; intros w z Hf Hnow Hk Hz Hds; [reflexivity |].
  destruct Hds as (Hd & Hle & Hds). cbn [rate_checks running_answers].
  destruct (checkRateLimit_counts identifier action limit windowSeconds window_positive
              (elapse d w) z) as (s' & E & Hk').
  - exact Hf.
  - cbn [elapse clock]. lia.
  - unfold rate_set, live. cbn [elapse clock kv]. fold key. rewrite Hk.
    unfold expired. cbn [e_exp].
    destruct (Z.leb_spec (clock w + windowSeconds * 2 * 1000) (clock w + d)); [lia |].
    reflexivity.
  - cbn [elapse clock]. intros m sc Hm.
    destruct (Hz m sc Hm) as [? ?]. split; [assumption |].
    pose proof (window_start_below (clock w + d) first ltac:(lia) Hle). lia.
  - cbn [elapse clock] in E, Hk'. fold key in Hk'. rewrite E.
    assert (Hfresh : z !! toString (clock w + d) = None).
    { destruct (z !! toString (clock w + d)) as [sc|] eqn:Ez; [| reflexivity].
      destruct (Hz _ _ Ez) as [Hm Hsc]. apply JsTextFacts.toString_inj in Hm. lia. }
    specialize (IH (World s' (clock w + d) []) (<[toString (clock w + d) := clock w + d]> z)).
    cbn [clock kv faults] in IH.
    destruct (rate_checks identifier action limit windowSeconds ds
                (World s' (clock w + d) [])) as [rs w2].
    cbn [fst] in *. f_equal.
    rewrite IH; try assumption; try reflexivity; try lia.
    + rewrite map_size_insert_None by assumption. f_equal. lia.
    + intros m sc Hm. destruct (decide (toString (clock w + d) = m)) as [<-|Hne].
      * rewrite lookup_insert_eq in Hm. injection Hm as <-.
        split; [reflexivity | lia].
      * rewrite lookup_insert_ne in Hm by assumption.
        destruct (Hz m sc Hm) as [? ?]. split; [assumption | lia].
Qed.

(** X16. The window of the rate limiter does not slide while traffic goes
    on.  On a key that the store does not hold, with the store reachable,
    checks at later and later instants, each less than two windows after
    the one before and none later (in milliseconds) than a thousand times
    the first instant, are counted all together across the buckets: the
    [i]-th is allowed exactly when [i <= limit], with [max 0 (limit - i)]
    remaining and the reset time of its own bucket. *)
Theorem rate_limit_counts_across_windows (d0 : Z) (delays : list Z) (w : world) :
  faults w = [] -> 0 <= clock w + d0 ->
  kv w !! rate_key identifier action = None ->
  steady windowSeconds (clock w + d0) (clock w + d0) delays ->
  (rate_checks identifier action limit windowSeconds (d0 :: delays) w).1
  = running_answers limit windowSeconds (clock w) 1 (d0 :: delays).
Proof.
  intros Hf Hnow Hk Hds. cbn [rate_checks running_answers].
  destruct (checkRateLimit_counts identifier action limit windowSeconds window_positive
              (elapse d0 w) ∅) as (s' & E & Hk').
  - exact Hf.
  - cbn [elapse clock]. lia.
  - unfold rate_set, live. cbn [elapse clock kv]. now rewrite Hk.
  - intros m sc Hm. rewrite lookup_empty in Hm. discriminate.
  - cbn [elapse clock] in E, Hk'. rewrite E.
    pose proof (rate_checks_running (clock w + d0) delays (World s' (clock w + d0) [])
                  (<[toString (clock w + d0) := clock w + d0]> ∅)) as Hrest.
    cbn [clock kv faults] in Hrest.
    destruct (rate_checks identifier action limit windowSeconds delays
                (World s' (clock w + d0) [])) as [rs w2].
    cbn [fst] in *. f_equal.
    rewrite Hrest; try assumption; try reflexivity; try lia.
    + rewrite map_size_insert_None by apply lookup_empty. reflexivity.
    + intros m sc Hm. destruct (decide (toString (clock w + d0) = m)) as [<-|Hne].
      * rewrite lookup_insert_eq in Hm. injection Hm as <-.
        split; [reflexivity | lia].
      * rewrite lookup_insert_ne in Hm by assumption.
        rewrite lookup_empty in Hm. discriminate.
Qed.

(** X17. A pause of two windows resets the count.  After a check that the
    store has answered, a check two windows later or more finds the key
    expired and is answered as the first of its bucket. *)
Theorem rate_limit_resets_after_two_windows (w : world) (z : gmap string Z) (d : Z) :
  let key := rate_key identifier action in
  faults w = [] -> 0 <= clock w ->
  rate_set key (clock w) (kv w) z ->
  earlier_entries (clock w / (1000 * windowSeconds) * windowSeconds) (clock w) z ->
  windowSeconds * 2 * 1000 <= d ->
  (checkRateLimit identifier action limit windowSeconds
     (elapse d (after (checkRateLimit identifier action limit windowSeconds) w))).1
  = nth_answer limit windowSeconds ((clock w + d) / (1000 * windowSeconds)) 1.
Proof.
  intros key Hf Hnow Hset Hz Hd.
  destruct (checkRateLimit_counts identifier action limit windowSeconds window_positive
              w z Hf Hnow Hset Hz) as (s' & E & Hk').
  unfold after. rewrite E. cbn [snd].
  destruct (checkRateLimit_counts identifier action limit windowSeconds window_positive
              (elapse d (World s' (clock w) [])) ∅) as (s'' & E' & _).
  - reflexivity.
  - cbn [elapse clock]. lia.
  - unfold rate_set, live. cbn [elapse clock kv]. fold key in Hk'. fold key. rewrite Hk'.
    unfold expired. cbn [e_exp].
    destruct (Z.leb_spec (clock w + windowSeconds * 2 * 1000) (clock w + d)); [| lia].
    reflexivity.
  - intros m sc Hm. rewrite lookup_empty in Hm. discriminate.
  - rewrite E'. reflexivity.
Qed.

End AcrossWindows.

Lemma rate_limit_counts_across_windows_witness :
  (rate_checks "org1" "upload" 1 60 [0; 1; 100000] (World ∅ 1000000 [])).1
  = running_answers 1 60 1000000 1 [0; 1; 100000].
Proof.
  apply (rate_limit_counts_across_windows "org1" "upload" 1 60 ltac:(lia) 0 [1; 100000]
           (World ∅ 1000000 [])); try reflexivity; cbn; lia.
Defined.

Lemma rate_limit_resets_witness :
  (checkRateLimit "org1" "upload" 1 60
     (elapse 120000 (after (checkRateLimit "org1" "upload" 1 60) (World ∅ 1000000 [])))).1
  = nth_answer 1 60 18 1.
Proof.
  apply (rate_limit_resets_after_two_windows "org1" "upload" 1 60 ltac:(lia)
           (World ∅ 1000000 []) ∅ 120000); try reflexivity; try (cbn; lia).
  intros m sc Hm. rewrite lookup_empty in Hm. discriminate Hm.
Defined.

(** X18. What an answer of [checkRateLimit] looks like, in every world.  It
    never raises.  A refusal leaves nothing remaining (0, or NaN when the
    count could not be read).  What remains is not negative, unless it is
    the limit itself, which the catch hands back.  With a positive window
    the reset time is 0, which the catch hands back, or an instant later
    than the call by at most one window. *)
Theorem rate_limit_answer_shape (identifier action : string) (limit windowSeconds : Z)
    (w : world) :
  exists r,
    (checkRateLimit identifier action limit windowSeconds w).1 = Ok r
    /\ (allowed r = false -> remaining r = Some 0 \/ remaining r = None)
    /\ (forall n, remaining r = Some n -> 0 <= n \/ n = limit)
    /\ (0 < windowSeconds -> 0 <= clock w ->
        exists t, resetTime r = Some t
                  /\ (t = 0 \/ clock w < t <= clock w + 1000 * windowSeconds)).
Proof.
  unfold checkRateLimit, bind, date_now, try_catch.
  destruct (exec _ w) as [[rs|e] w1]; unfold ret; cbn [fst snd].
  - eexists. split; [reflexivity |]. cbn [allowed remaining resetTime].
    split; [| split].
    + destruct (rs !! 2%nat) as [[n|e]|]; cbn; auto.
      intros Hn. left. destruct (Z.leb_spec n limit); [discriminate |]. f_equal. lia.
    + intros n. destruct (rs !! 2%nat) as [[c|e]|]; cbn; try discriminate.
      intros [= <-]. lia.
    + intros Hpos Hnow. unfold window_start.
      destruct (Z.eqb_spec windowSeconds 0); [lia |]. cbn. eexists. split; [reflexivity |].
      right.
      pose proof (Z.mul_div_le (clock w) (1000 * windowSeconds) ltac:(lia)).
      pose proof (Z.mul_succ_div_gt (clock w) (1000 * windowSeconds) ltac:(lia)). nia.
  - eexists. split; [reflexivity |]. cbn [allowed remaining resetTime].
    split; [discriminate |]. split; [intros n [= <-]; auto |].
    intros _ _. exists 0. auto.
Qed.


(** ** The job queue: order of service, partial failures, records *)

Section QueueOrder.
Import Queue.
Variable q : string.

Lemma zmin_least (z : gmap string Z) (m : string) (sc : Z) :
  zmin z = Some (m, sc) ->
  forall m' sc', z !! m' = Some sc' -> sc <= sc'.
Proof.
  unfold zmin. intros H m' sc' Hin. apply elem_of_map_to_list in Hin.
  revert m sc H Hin. induction (map_to_list z) as [|[m1 sc1] l IH]; intros m sc H Hin.
  - now apply elem_of_nil in Hin.
  - cbn [foldr] in H. destruct (foldr _ None l) as [[m2 sc2]|] eqn:E.
    + assert (Hrest : (m', sc') ∈ l -> sc2 <= sc') by (intros Hl; now apply (IH m2 sc2)).
      unfold zless in H. cbn [fst snd] in H.
      apply elem_of_cons in Hin as [Heq|Hl].
      * injection Heq as -> ->.
        destruct (Z.ltb_spec sc1 sc2); cbn [orb] in H.
        -- injection H as <- <-. lia.
        -- destruct (Z.eqb_spec sc1 sc2); cbn [andb] in H.
           ++ destruct (String.ltb m1 m2); injection H as <- <-; lia.
           ++ injection H as <- <-. lia.
      * specialize (Hrest Hl).
        destruct (Z.ltb_spec sc1 sc2); cbn [orb] in H.
        -- injection H as <- <-. lia.
        -- destruct (Z.eqb_spec sc1 sc2); cbn [andb] in H.
           ++ destruct (String.ltb m1 m2); injection H as <- <-; lia.
           ++ injection H as <- <-. lia.
    + injection H as <- <-. apply elem_of_cons in Hin as [Heq|Hl].
      * injection Heq as -> ->. lia.
      * destruct l; [now apply elem_of_nil in Hl | ].
        cbn in E. destruct (foldr _ None l) as [[]|]; [destruct (zless _ _) |]; discriminate.
Qed.

Lemma dequeueJob_least (w : world) :
  inv q (kv w) -> faults w = [] -> index q (kv w) <> ∅ ->
  exists j sc,
    dequeueJob q w
    = (Ok j, World (kv (dequeueJob q w).2) (clock w) [])
    /\ is_job (JSON.stringify j)
    /\ index q (kv w) !! JSON.stringify j = Some sc
    /\ (forall m' sc', index q (kv w) !! m' = Some sc' -> sc <= sc')
    /\ index q (kv (dequeueJob q w).2) = delete (JSON.stringify j) (index q (kv w))
    /\ inv q (kv (dequeueJob q w).2).
Proof.
  intros Hinv Hf Hne. destruct (zmin_nonempty _ Hne) as (m & sc & Hmin).
  destruct (dequeueJob_available q w m sc Hinv Hf Hmin)
    as (jobId & data & priority & createdAt & Hm & E).
  cbv zeta in Hm, E. exists (new_job jobId data priority createdAt), sc.
  pose proof (dequeue_cases q w Hinv) as [Hinv' _]. cbv zeta in Hinv'.
  rewrite E in *. cbn [fst snd kv] in *. subst m.
  split; [reflexivity |]. split; [apply is_job_new |].
  split; [now apply zmin_lookup |]. split; [exact (zmin_least _ _ _ Hmin) |].
  split; [| exact Hinv'].
  rewrite index_insert_jobs. apply index_put_zset.
Qed.

Lemma dequeueJob_empty (w : world) :
  inv q (kv w) -> index q (kv w) = ∅ ->
  (dequeueJob q w).1 = Ok JNull /\ kv (dequeueJob q w).2 = kv w.
Proof.
  intros Hinv He. unfold dequeueJob, try_catch, bind.
  destruct (call_cases (zpopmin (queue_key q)) w) as [Ec|Ec]; rewrite Ec; clear Ec.
  - split; reflexivity.
  - rewrite (zpopmin_inv q (kv w) (clock w) Hinv), He.
    change (zmin ∅) with (@None (string * Z)). split; reflexivity.
Qed.

(** X19. [dequeueJob] serves by score.  On a queue kept by the service with
    the store reachable: from an index that is not empty it answers a job of
    the index whose score no other member is below, and takes that job, and
    no other, out of the index; on an empty index it answers null and leaves
    the key space as it was. *)
Theorem queue_dequeue_takes_least_score (w : world) :
  inv q (kv w) -> faults w = [] ->
  (index q (kv w) <> ∅ ->
   exists j sc,
     (dequeueJob q w).1 = Ok j
     /\ index q (kv w) !! JSON.stringify j = Some sc
     /\ (forall m' sc', index q (kv w) !! m' = Some sc' -> sc <= sc')
     /\ index q (kv (dequeueJob q w).2) = delete (JSON.stringify j) (index q (kv w)))
  /\ (index q (kv w) = ∅ ->
      (dequeueJob q w).1 = Ok JNull /\ kv (dequeueJob q w).2 = kv w).
Proof.
  intros Hinv Hf. split.
  - intros Hne. destruct (dequeueJob_least w Hinv Hf Hne) as (j & sc & E & _ & H1 & H2 & H3 & _).
    exists j, sc. rewrite E at 1. auto.
  - now apply dequeueJob_empty.
Qed.

(** Two jobs in the index, [ja] with the lower score: [ja] is served, then
    [jb], then nothing. *)
Lemma two_jobs_served (w : world) (ja jb : json) (pa pb : Z) :
  inv q (kv w) -> faults w = [] -> pa < pb ->
  JSON.stringify ja <> JSON.stringify jb ->
  index q (kv w) = <[JSON.stringify jb := pb]> {[JSON.stringify ja := pa]} ->
  let w1 := after (dequeueJob q) w in
  let w2 := after (dequeueJob q) w1 in
  (dequeueJob q w).1 = Ok ja
  /\ (dequeueJob q w1).1 = Ok jb
  /\ (dequeueJob q w2).1 = Ok JNull.
Proof.
  intros Hinv Hf Hlt Hne Hidx w1 w2.
  assert (Ha : index q (kv w) !! JSON.stringify ja = Some pa).
  { rewrite Hidx, lookup_insert_ne by congruence. apply lookup_insert_eq. }
  assert (Hb : index q (kv w) !! JSON.stringify jb = Some pb).
  { rewrite Hidx. apply lookup_insert_eq. }
  destruct (dequeueJob_least w Hinv Hf) as (j & sc & E & _ & Hj & Hleast & Hidx1 & Hinv1).
  { intros He. rewrite He in Ha. discriminate. }
  assert (j = ja) as ->.
  { rewrite Hidx in Hj. destruct (decide (JSON.stringify jb = JSON.stringify j)) as [Heq|Hn].
    - rewrite <- Heq, lookup_insert_eq in Hj. injection Hj as <-.
      specialize (Hleast _ _ Ha). lia.
    - rewrite lookup_insert_ne in Hj by assumption.
      apply lookup_singleton_Some in Hj as [Heq _].
      now apply JSONFacts.stringify_inj. }
  assert (Hidx1' : index q (kv w1) = {[JSON.stringify jb := pb]}).
  { subst w1. unfold after. rewrite Hidx1, Hidx.
    rewrite delete_insert_ne by congruence.
    rewrite delete_singleton_eq || rewrite delete_singleton. apply insert_empty. }
  assert (Hf1 : faults w1 = []) by (subst w1; unfold after; rewrite E; reflexivity).
  fold (after (dequeueJob q) w) in Hinv1. fold w1 in Hinv1.
  destruct (dequeueJob_least w1 Hinv1 Hf1) as (j' & sc' & E' & _ & Hj' & _ & Hidx2 & Hinv2).
  { rewrite Hidx1'. intros He. apply (f_equal (fun z : gmap string Z => z !! JSON.stringify jb)) in He.
    rewrite lookup_singleton_eq, lookup_empty in He. discriminate. }
  assert (j' = jb) as ->.
  { rewrite Hidx1' in Hj'. apply lookup_singleton_Some in Hj' as [Heq _].
    symmetry. now apply JSONFacts.stringify_inj. }
  split; [rewrite E; reflexivity |]. split; [rewrite E'; reflexivity |].
  apply dequeueJob_empty.
  - exact Hinv2.
  - subst w2. unfold after. rewrite Hidx2, Hidx1'.
    rewrite delete_singleton_eq || rewrite delete_singleton. reflexivity.
Qed.

(** X20. Jobs are served in the order of their priorities, the lower number
    first, whatever the order in which they were enqueued.  On an empty
    queue with the store reachable, two jobs enqueued with priorities
    pa < pb, in either order, come out of three [dequeueJob] calls as: the
    job of priority pa, the job of priority pb, null. *)
Theorem queue_serves_lower_priority_first (da db : json) (pa pb : Z) (ra rb : string)
    (w : world) :
  inv q (kv w) -> faults w = [] -> index q (kv w) = ∅ -> pa < pb ->
  let ja := new_job (job_id (clock w) ra) da pa (clock w) in
  let jb := new_job (job_id (clock w) rb) db pb (clock w) in
  forall w0,
    w0 = after (enqueueJob q db pb rb) (after (enqueueJob q da pa ra) w)
    \/ w0 = after (enqueueJob q da pa ra) (after (enqueueJob q db pb rb) w) ->
    (dequeueJob q w0).1 = Ok ja
    /\ (dequeueJob q (after (dequeueJob q) w0)).1 = Ok jb
    /\ (dequeueJob q (after (dequeueJob q) (after (dequeueJob q) w0))).1 = Ok JNull.
Proof.
  intros Hinv Hf He Hlt ja jb w0 Hw0.
  assert (Hne : JSON.stringify ja <> JSON.stringify jb).
  { intros H. apply JSONFacts.stringify_inj in H. injection H. lia. }
  pose proof (enqueueJob_available q da pa ra w Hinv Hf) as Ea.
  pose proof (enqueueJob_available q db pb rb w Hinv Hf) as Eb.
  cbv zeta in Ea, Eb.
  pose proof (enqueue_cases q da pa ra w Hinv) as [Hinva _].
  pose proof (enqueue_cases q db pb rb w Hinv) as [Hinvb _].
  cbv zeta in Hinva, Hinvb.
  assert (Hfa : faults (after (enqueueJob q da pa ra) w) = [])
    by (unfold after; rewrite Ea; reflexivity).
  assert (Hfb : faults (after (enqueueJob q db pb rb) w) = [])
    by (unfold after; rewrite Eb; reflexivity).
  assert (Hca : clock (after (enqueueJob q da pa ra) w) = clock w)
    by (unfold after; rewrite Ea; reflexivity).
  assert (Hcb : clock (after (enqueueJob q db pb rb) w) = clock w)
    by (unfold after; rewrite Eb; reflexivity).
  assert (Hia : index q (kv (after (enqueueJob q da pa ra) w))
                = {[JSON.stringify ja := pa]}).
  { unfold after. rewrite Ea. cbn [snd kv].
    rewrite index_insert_jobs, index_insert_queue, He. apply insert_empty. }
  assert (Hib : index q (kv (after (enqueueJob q db pb rb) w))
                = {[JSON.stringify jb := pb]}).
  { unfold after. rewrite Eb. cbn [snd kv].
    rewrite index_insert_jobs, index_insert_queue, He. apply insert_empty. }
  destruct Hw0 as [-> | ->].
  - pose proof (enqueueJob_available q db pb rb (after (enqueueJob q da pa ra) w) Hinva Hfa) as Eab.
    pose proof (enqueue_cases q db pb rb (after (enqueueJob q da pa ra) w) Hinva) as [Hinvab _].
    cbv zeta in Eab, Hinvab. rewrite Hca in Eab.
    apply (two_jobs_served _ ja jb pa pb); try assumption.
    + unfold after at 1. rewrite Eab. reflexivity.
    + unfold after at 1. rewrite Eab. cbn [snd kv].
      rewrite index_insert_jobs, index_insert_queue, Hia. reflexivity.
  - pose proof (enqueueJob_available q da pa ra (after (enqueueJob q db pb rb) w) Hinvb Hfb) as Eba.
    pose proof (enqueue_cases q da pa ra (after (enqueueJob q db pb rb) w) Hinvb) as [Hinvba _].
    cbv zeta in Eba, Hinvba. rewrite Hcb in Eba.
    apply (two_jobs_served _ ja jb pa pb); try assumption.
    + unfold after at 1. rewrite Eba. reflexivity.
    + unfold after at 1. rewrite Eba. cbn [snd kv].
      rewrite index_insert_jobs, index_insert_queue, Hib.
      apply insert_insert_ne. exact Hne.
Qed.

End QueueOrder.


Lemma queue_dequeue_takes_least_score_witness :
  let w := after (enqueueJob "mail" (JStr "now") 1 "0.2")
             (after (enqueueJob "mail" (JStr "later") 5 "0.1") (World ∅ 1000 [])) in
  exists j sc,
    (dequeueJob "mail" w).1 = Ok j
    /\ Queue.index "mail" (kv w) !! JSON.stringify j = Some sc
    /\ (forall m' sc', Queue.index "mail" (kv w) !! m' = Some sc' -> sc <= sc')
    /\ Queue.index "mail" (kv (dequeueJob "mail" w).2)
       = delete (JSON.stringify j) (Queue.index "mail" (kv w)).
Proof.
  intros w.
  refine (proj1 (queue_dequeue_takes_least_score "mail" w _ _) _).
  - apply (enqueue_cases "mail" (JStr "now") 1 "0.2").
    apply (enqueue_cases "mail" (JStr "later") 5 "0.1" (World ∅ 1000 [])).
    apply inv_fresh; apply lookup_empty.
  - reflexivity.
  - intros H. apply (f_equal (fun z : gmap string Z => size z)) in H.
    vm_compute in H. discriminate.
Defined.

Lemma queue_serves_lower_priority_first_witness :
  let w := World ∅ 1000 [] in
  let w0 := after (enqueueJob "mail" (JStr "now") 1 "0.2")
              (after (enqueueJob "mail" (JStr "later") 5 "0.1") w) in
  (dequeueJob "mail" w0).1 = Ok (new_job "job:1000:0.2" (JStr "now") 1 1000)
  /\ (dequeueJob "mail" (after (dequeueJob "mail") w0)).1
     = Ok (new_job "job:1000:0.1" (JStr "later") 5 1000)
  /\ (dequeueJob "mail" (after (dequeueJob "mail") (after (dequeueJob "mail") w0))).1
     = Ok JNull.
Proof.
  intros w w0.
  apply (queue_serves_lower_priority_first "mail" (JStr "now") (JStr "later") 1 5
           "0.2" "0.1" w).
  - apply inv_fresh; apply lookup_empty.
  - reflexivity.
  - reflexivity.
  - lia.
  - right. reflexivity.
Defined.

Section QueueFailures.
Import Queue.
Variable q : string.

Lemma call_answered {A} (c : cmd A) (w : world) (fs : list bool) :
  faults w = false :: fs ->
  call c w = ((c (clock w) (kv w)).1, World (c (clock w) (kv w)).2 (clock w) fs).
Proof.
  intros H. unfold call. rewrite H. cbn [tail]. now destruct (c (clock w) (kv w)).
Qed.

(** X21. [enqueueJob] is not atomic.  On a queue kept by the service, when
    the store answers the first round trip of the call and fails the
    second, the call raises the connection error and yet the job is in the
    index, with its priority as score, while the hash of records is as it
    was: a later [dequeueJob] can serve a job whose enqueue was reported as
    failed. *)
Theorem queue_enqueue_fault_leaves_job_indexed (data : json) (priority : Z)
    (rnd : string) (fs : list bool) (w : world) :
  inv q (kv w) -> faults w = false :: true :: fs ->
  let j := new_job (job_id (clock w) rnd) data priority (clock w) in
  let w1 := after (enqueueJob q data priority rnd) w in
  (enqueueJob q data priority rnd w).1 = Err ConnectionError
  /\ index q (kv w1) = <[JSON.stringify j := priority]> (index q (kv w))
  /\ records q (kv w1) = records q (kv w)
  /\ (index q (kv w) = ∅ ->
      (dequeueJob q (World (kv w1) (clock w1) [])).1 = Ok j).
Proof.
  intros Hinv Hf j w1.
  assert (E : enqueueJob q data priority rnd w
              = (Err ConnectionError,
                 World (<[queue_key q :=
                            Entry (RZSet (<[JSON.stringify j := priority]> (index q (kv w))))
                                  None]> (kv w)) (clock w) fs)).
  { unfold enqueueJob, try_catch, bind, date_now.
    rewrite (call_answered _ w (true :: fs)) by exact Hf.
    destruct (zadd_inv q (kv w) (clock w) priority (JSON.stringify j) Hinv) as [n Ez].
    subst j. rewrite Ez. cbn [fst snd].
    rewrite (call_faulty _ _ fs) by reflexivity. reflexivity. }
  subst w1. unfold after. rewrite E. cbn [fst snd kv clock].
  split; [reflexivity |]. split; [apply index_insert_queue |].
  split; [apply records_insert_queue |].
  intros He.
  set (s1 := <[queue_key q := _]> (kv w)).
  assert (Hinv1 : inv q s1) by (apply inv_insert_queue; [exact Hinv | apply is_job_new]).
  destruct (dequeueJob_available q (World s1 (clock w) []) (JSON.stringify j) priority)
    as (jobId & d' & p' & c' & Hm & Ed); [exact Hinv1 | reflexivity | |].
  { cbn [kv]. subst s1. rewrite index_insert_queue, He, insert_empty.
    apply zmin_singleton. }
  cbv zeta in Hm, Ed. rewrite Ed. cbn [fst].
  apply JSONFacts.stringify_inj in Hm. now rewrite Hm.
Qed.

(** X22. [dequeueJob] is not atomic.  On a queue kept by the service, when
    the store answers the first round trip (the pop) and fails the second
    (the write of the record), the call answers null although the least
    job has left the index; the hash of records is as it was, so the
    record of that job, if any, still says 'queued'. *)
Theorem queue_dequeue_fault_loses_job (m : string) (sc : Z) (fs : list bool)
    (w : world) :
  inv q (kv w) -> faults w = false :: true :: fs ->
  zmin (index q (kv w)) = Some (m, sc) ->
  let w1 := after (dequeueJob q) w in
  (dequeueJob q w).1 = Ok JNull
  /\ index q (kv w1) = delete m (index q (kv w))
  /\ records q (kv w1) = records q (kv w).
Proof.
  intros Hinv Hf Hmin w1.
  pose proof (inv_members q _ m sc Hinv (zmin_lookup _ _ _ Hmin))
    as (jobId & data & priority & createdAt & ->).
  assert (E : dequeueJob q w
              = (Ok JNull,
                 World (put_zset (queue_key q)
                          (delete (JSON.stringify (new_job jobId data priority createdAt))
                             (index q (kv w))) None (kv w)) (clock w) fs)).
  { unfold dequeueJob, try_catch, bind, date_now.
    rewrite (call_answered _ w (true :: fs)) by exact Hf.
    rewrite (zpopmin_inv q (kv w) (clock w) Hinv), Hmin. cbn [fst snd].
    rewrite JSONFacts.parse_stringify, id_field_new_job. unfold ret at 1.
    rewrite (call_faulty _ _ fs) by reflexivity. reflexivity. }
  subst w1. unfold after. rewrite E. cbn [fst snd kv].
  split; [reflexivity |]. split; [apply index_put_zset | apply records_put_zset].
Qed.

(** X23. [completeJob] and [failJob] on an identifier without a record do
    nothing, and neither call ever changes the index: on a queue kept by the
    service, in every world, the index after the call is the index before,
    and when the hash holds no record under the identifier the key space is
    as it was. *)
Theorem queue_settle_unknown_job_is_noop (jobId : string) (w : world) :
  inv q (kv w) ->
  (forall result error,
     index q (kv (after (completeJob q jobId result) w)) = index q (kv w)
     /\ index q (kv (after (failJob q jobId error) w)) = index q (kv w))
  /\ (records q (kv w) !! jobId = None ->
      forall result error,
        kv (after (completeJob q jobId result) w) = kv w
        /\ kv (after (failJob q jobId error) w) = kv w).
Proof.
  intros Hinv. split.
  - intros result error. destruct (settle_cases q jobId w Hinv) as [Hc Hx].
    split; [exact (proj2 (Hc result)) | exact (proj2 (Hx error))].
  - intros Hnone result error. unfold after, completeJob, failJob, try_catch, bind.
    destruct (call_cases (hget (jobs_key q) jobId) w) as [Ec|Ec]; rewrite Ec; clear Ec.
    + split; reflexivity.
    + rewrite (hget_inv q (kv w) (clock w) jobId Hinv), Hnone. split; reflexivity.
Qed.

(** X24. The record of a job after a full cycle.  On an empty queue kept by
    the service, with the store reachable: a job enqueued at t, dequeued d1
    milliseconds later and completed d2 milliseconds after that has a record
    that carries its identifier, its data and priority, createdAt = t,
    startedAt = t + d1, completedAt = t + d1 + d2, the status 'completed'
    and the result. *)
Theorem queue_record_after_full_cycle (data : json) (priority : Z) (rnd : string)
    (result : option json) (d1 d2 : Z) (w : world) :
  inv q (kv w) -> faults w = [] -> index q (kv w) = ∅ ->
  let jobId := job_id (clock w) rnd in
  let w1 := after (enqueueJob q data priority rnd) w in
  let w2 := after (dequeueJob q) (elapse d1 w1) in
  let w3 := after (completeJob q jobId result) (elapse d2 w2) in
  let r := record q jobId (kv w3) in
  (enqueueJob q data priority rnd w).1 = Ok jobId
  /\ (dequeueJob q (elapse d1 w1)).1 = Ok (new_job jobId data priority (clock w))
  /\ prop "id" r = Some (JStr jobId)
  /\ prop "data" r = Some data
  /\ prop "priority" r = Some (JNum priority)
  /\ prop "createdAt" r = Some (JNum (clock w))
  /\ prop "startedAt" r = Some (JNum (clock w + d1))
  /\ prop "completedAt" r = Some (JNum (clock w + d1 + d2))
  /\ prop "status" r = Some (JStr "completed")
  /\ prop "result" r = result.
Proof.
  intros Hinv Hf He jobId w1 w2 w3 r.
  pose proof (enqueueJob_available q data priority rnd w Hinv Hf) as E1.
  pose proof (enqueue_cases q data priority rnd w Hinv) as [Hinv1 _].
  cbv zeta in E1, Hinv1. fold jobId in E1.
  set (j := new_job jobId data priority (clock w)) in *.
  assert (Hw1 : elapse d1 w1
                = World (kv (enqueueJob q data priority rnd w).2) (clock w + d1) []).
  { subst w1. unfold after, elapse. rewrite E1. reflexivity. }
  assert (Hidx1 : index q (kv (enqueueJob q data priority rnd w).2)
                  = {[JSON.stringify j := priority]}).
  { rewrite E1. cbn [snd kv].
    rewrite index_insert_jobs, index_insert_queue, He. apply insert_empty. }
  destruct (dequeueJob_available q (elapse d1 w1) (JSON.stringify j) priority)
    as (jobId' & d' & p' & c' & Hm & E2).
  { rewrite Hw1. exact Hinv1. }
  { rewrite Hw1. reflexivity. }
  { rewrite Hw1. cbn [kv]. rewrite Hidx1. apply zmin_singleton. }
  cbv zeta in Hm, E2. apply JSONFacts.stringify_inj in Hm.
  assert (Hj : new_job jobId' d' p' c' = j) by (symmetry; exact Hm).
  rewrite Hj in E2. assert (jobId' = jobId) as -> by (subst j; now injection Hj).
  clear Hm Hj.
  pose proof (dequeue_cases q (elapse d1 w1)) as [Hinv2 _].
  { rewrite Hw1. exact Hinv1. }
  cbv zeta in Hinv2.
  assert (Hc2 : clock (elapse d1 w1) = clock w + d1) by (rewrite Hw1; reflexivity).
  rewrite Hc2 in E2.
  set (started := JObj (obj_set "startedAt" (JNum (clock w + d1))
                          (obj_set "status" (JStr "processing") (spread j)))) in *.
  assert (Hrec2 : record q jobId (kv w2) = Some started).
  { subst w2. unfold after. rewrite E2. cbn [snd kv]. apply record_written. }
  assert (Hf2 : faults (elapse d2 w2) = [])
    by (subst w2; unfold after; rewrite E2; reflexivity).
  assert (Hc3 : clock (elapse d2 w2) = clock w + d1 + d2)
    by (subst w2; unfold after; rewrite E2; reflexivity).
  pose proof (completeJob_available q jobId result started (elapse d2 w2)) as E3.
  cbv zeta in E3. rewrite Hc3 in E3.
  specialize (E3 Hinv2 Hf2 Hrec2).
  split; [rewrite E1; reflexivity |]. split; [rewrite E2; reflexivity |].
  subst r w3. unfold after. rewrite E3. cbn [snd kv]. rewrite record_written.
  cbn [prop].
  rewrite !obj_get_set_opt_ne by discriminate. rewrite obj_get_set_opt_eq.
  repeat split; reflexivity.
Qed.

End QueueFailures.

Lemma queue_enqueue_fault_witness :
  let w := World ∅ 1000 [false; true] in
  (enqueueJob "mail" (JStr "hello") 0 "0.5" w).1 = Err ConnectionError
  /\ Queue.index "mail" (kv (after (enqueueJob "mail" (JStr "hello") 0 "0.5") w))
     = <[JSON.stringify (new_job "job:1000:0.5" (JStr "hello") 0 1000) := 0]>
         (Queue.index "mail" (kv w)).
Proof.
  intros w.
  destruct (queue_enqueue_fault_leaves_job_indexed "mail" (JStr "hello") 0 "0.5" [] w)
    as (H1 & H2 & _).
  - apply inv_fresh; apply lookup_empty.
  - reflexivity.
  - split; [exact H1 | exact H2].
Defined.

Lemma queue_dequeue_fault_witness :
  let w0 := after (enqueueJob "mail" (JStr "hello") 0 "0.5") (World ∅ 1000 []) in
  let w := World (kv w0) 2000 [false; true] in
  (dequeueJob "mail" w).1 = Ok JNull
  /\ Queue.index "mail" (kv (after (dequeueJob "mail") w))
     = delete (JSON.stringify (new_job "job:1000:0.5" (JStr "hello") 0 1000))
         (Queue.index "mail" (kv w)).
Proof.
  intros w0 w.
  destruct (queue_dequeue_fault_loses_job "mail"
              (JSON.stringify (new_job "job:1000:0.5" (JStr "hello") 0 1000)) 0 [] w)
    as (H1 & H2 & _).
  - apply (enqueue_cases "mail" (JStr "hello") 0 "0.5" (World ∅ 1000 [])).
    apply inv_fresh; apply lookup_empty.
  - reflexivity.
  - vm_compute. reflexivity.
  - split; [exact H1 | exact H2].
Defined.

Lemma queue_settle_unknown_job_witness :
  let w := after (enqueueJob "mail" (JStr "hello") 0 "0.5") (World ∅ 1000 []) in
  Queue.index "mail" (kv (after (completeJob "mail" "job:1:0.9" None) w))
  = Queue.index "mail" (kv w).
Proof.
  intros w.
  refine (proj1 (proj1 (queue_settle_unknown_job_is_noop "mail" "job:1:0.9" w _)
                   None "unused")).
  apply (enqueue_cases "mail" (JStr "hello") 0 "0.5" (World ∅ 1000 [])).
  apply inv_fresh; apply lookup_empty.
Defined.

Lemma queue_record_after_full_cycle_witness :
  let w := World ∅ 1000 [] in
  let w1 := after (enqueueJob "mail" (JStr "hello") 0 "0.5") w in
  let w2 := after (dequeueJob "mail") (elapse 20 w1) in
  let w3 := after (completeJob "mail" "job:1000:0.5" (Some (JStr "sent"))) (elapse 300 w2) in
  Queue.prop "startedAt" (Queue.record "mail" "job:1000:0.5" (kv w3)) = Some (JNum 1020)
  /\ Queue.prop "completedAt" (Queue.record "mail" "job:1000:0.5" (kv w3))
     = Some (JNum 1320).
Proof.
  intros w w1 w2 w3.
  destruct (queue_record_after_full_cycle "mail" (JStr "hello") 0 "0.5"
              (Some (JStr "sent")) 20 300 w)
    as (_ & _ & _ & _ & _ & _ & H1 & H2 & _).
  - apply inv_fresh; apply lookup_empty.
  - reflexivity.
  - reflexivity.
  - split; [exact H1 | exact H2].
Defined.


(** ** Response times: the hundred newest measurements and their average *)

Section MetricsFacts.
Import Metrics.
Variables endpoint method : string.

Lemma lcall_available {A} (c : lcmd A) (w : lworld) :
  lfaults w = [] ->
  lcall c w = ((c (lclock w) (lists w)).1, LWorld (c (lclock w) (lists w)).2 (lclock w) []).
Proof.
  intros H. unfold lcall. rewrite H. now destruct (c (lclock w) (lists w)).
Qed.

Lemma whole_toString (z : Z) : whole (toString z) = Some z.
Proof.
  unfold whole. rewrite JsTextFacts.digits_value_toString.
  now rewrite String.eqb_refl.
Qed.

Lemma wholes_toString (zs : list Z) : wholes (map toString zs) = Some zs.
Proof.
  induction zs as [|z zs IH]; [reflexivity |].
  cbn [map wholes]. now rewrite whole_toString, IH.
Qed.

Lemma take_cons_take {A} (n : nat) (x : A) (l : list A) :
  take (S n) (x :: take (S n) l) = take (S n) (x :: l).
Proof.
  cbn [take]. f_equal. rewrite take_take. f_equal. lia.
Qed.

(** One measurement recorded with the store reachable. *)
Lemma recordResponseTime_available (d : Z) (w : lworld) (l : list string) :
  lfaults w = [] -> samples w (performance_key endpoint method) = Some l ->
  recordResponseTime endpoint method d w
  = (Ok tt,
     LWorld (<[performance_key endpoint method :=
                 LEntry (LList (take 100 (toString d :: l)))
                        (Some (lclock w + 86400 * 1000))]> (lists w))
            (lclock w) []).
Proof.
  intros Hf Hs. unfold recordResponseTime, lcatch, lbind, lret.
  set (key := performance_key endpoint method) in *.
  rewrite lcall_available by assumption.
  unfold samples in Hs. unfold lpush.
  assert (Hlive : forall s e exp, llive (lclock w) (<[key := LEntry e exp]> s) key
                    = if match exp with Some t => t <=? lclock w | None => false end
                      then None else Some (LEntry e exp)).
  { intros s e exp. unfold llive. now rewrite lookup_insert_eq. }
  destruct (llive (lclock w) (lists w) key) as [[[l0|] exp]|] eqn:El; try discriminate;
    injection Hs as <-; cbn [fst snd].
  - assert (Hexp : match exp with Some t => t <=? lclock w | None => false end = false).
    { unfold llive in El. destruct (lists w !! key) as [e0|]; [| discriminate].
      destruct (match l_exp e0 with Some t => t <=? lclock w | None => false end) eqn:Ex;
        [discriminate |]. injection El as ->. exact Ex. }
    rewrite lcall_available by reflexivity. cbn [lists lclock]. unfold ltrim_head.
    rewrite Hlive, Hexp. cbn [take fst snd].
    rewrite lcall_available by reflexivity. cbn [lists lclock]. unfold lexpire.
    rewrite Hlive, Hexp. change (86400 <=? 0) with false. cbn [fst snd].
    rewrite !insert_insert_eq. reflexivity.
  - rewrite lcall_available by reflexivity. cbn [lists lclock]. unfold ltrim_head.
    rewrite Hlive. cbn [take fst snd].
    rewrite lcall_available by reflexivity. cbn [lists lclock]. unfold lexpire.
    rewrite Hlive. change (86400 <=? 0) with false. cbn [fst snd].
    rewrite !insert_insert_eq. reflexivity.
Qed.

Lemma samples_written (s : gmap string lentry) (t d : Z) (l : list string)
    (fs : list bool) :
  0 <= d < 86400 * 1000 ->
  samples (LWorld (<[performance_key endpoint method :=
                       LEntry (LList l) (Some (t + 86400 * 1000))]> s) (t + d) fs)
          (performance_key endpoint method)
  = Some l.
Proof.
  intros Hd. unfold samples, llive. cbn [lists lclock]. rewrite lookup_insert_eq.
  cbn [l_exp]. destruct (Z.leb_spec (t + 86400 * 1000) (t + d)); [lia | reflexivity].
Qed.

(** X25. [recordResponseTime] keeps the hundred newest measurements.  With
    the store reachable and the key holding a list (or nothing), the list
    after the call is the new measurement followed by the former ones, cut
    after the hundredth; the key expires 24 hours after the call; no other
    key changes.  The call raises in no world. *)
Theorem metrics_record_keeps_newest_hundred (d : Z) (w : lworld) (l : list string) :
  lfaults w = [] -> samples w (performance_key endpoint method) = Some l ->
  let key := performance_key endpoint method in
  let w1 := (recordResponseTime endpoint method d w).2 in
  lists w1 !! key
  = Some (LEntry (LList (take 100 (toString d :: l))) (Some (lclock w + 86400000)))
  /\ (forall l1, samples w1 key = Some l1 -> (length l1 <= 100)%nat
                                            /\ head l1 = Some (toString d))
  /\ (forall k, k <> key -> lists w1 !! k = lists w !! k)
  /\ (forall w', (recordResponseTime endpoint method d w').1 = Ok tt).
Proof.
  intros Hf Hs key w1. subst w1.
  rewrite (recordResponseTime_available d w l Hf Hs). cbn [snd lists]. fold key.
  split; [apply lookup_insert_eq |]. split; [| split].
  - intros l1. unfold samples, llive. cbn [lists lclock]. rewrite lookup_insert_eq.
    cbn [l_exp]. destruct (Z.leb_spec (lclock w + 86400 * 1000) (lclock w)); [lia |].
    intros [= <-]. split; [cbn [length]; rewrite length_take; lia | reflexivity].
  - intros k Hk. now rewrite lookup_insert_ne by congruence.
  - intros w'. unfold recordResponseTime, lcatch.
    match goal with |- context [match ?m w' with _ => _ end] =>
      destruct (m w') as [[[]|e] w2] end; reflexivity.
Qed.

Lemma take_app_take {A} (p m : list A) (n k : nat) :
  (n <= k)%nat -> take n (p ++ take k m) = take n (p ++ m).
Proof.
  revert n. induction p as [|a p IH]; intros n Hle; cbn [app].
  - rewrite take_take. f_equal. lia.
  - destruct n as [|n]; [reflexivity |]. cbn [take]. f_equal. apply IH. lia.
Qed.

Lemma record_all_samples (ds : list Z) (s : gmap string lentry) (t : Z)
    (l : list string) :
  samples (LWorld s t []) (performance_key endpoint method) = Some l ->
  exists s',
    record_all endpoint method ds (LWorld s t []) = LWorld s' t []
    /\ samples (LWorld s' t []) (performance_key endpoint method)
       = Some (match ds with
               | [] => l
               | _ => take 100 (map toString (rev ds) ++ l)
               end).
Proof.
  revert s l. induction ds as [|d ds IH]; intros s l Hs.
  - exists s. split; [reflexivity | exact Hs].
  - unfold record_all. cbn [fold_left]. fold (record_all endpoint method ds).
    rewrite (recordResponseTime_available d (LWorld s t []) l eq_refl Hs).
    cbn [snd lists lclock].
    set (s1 := <[performance_key endpoint method := _]> s).
    assert (Hs1 : samples (LWorld s1 t []) (performance_key endpoint method)
                  = Some (take 100 (toString d :: l))).
    { subst s1. replace t with (t + 0) at 2 by lia. apply samples_written. lia. }
    destruct (IH s1 _ Hs1) as (s' & E & Hs').
    exists s'. split; [exact E |]. rewrite Hs'. f_equal.
    cbn [rev]. rewrite map_app. cbn [map]. rewrite <- app_assoc. cbn [app].
    destruct ds as [|d' ds']; [reflexivity |].
    apply take_app_take. lia.
Qed.

(** X26. The average is that of the hundred newest measurements.  With the
    store reachable, after the durations [ds] have been recorded one after
    the other under a key that held nothing, [getAverageResponseTime]
    returns the sum of the last hundred of them (of all, when there are
    fewer) over their number, and 0 when nothing was recorded. *)
Theorem metrics_average_of_newest_hundred (ds : list Z) (s : gmap string lentry)
    (t : Z) :
  s !! performance_key endpoint method = None ->
  (getAverageResponseTime endpoint method
     (record_all endpoint method ds (LWorld s t []))).1
  = Ok (mean (take 100 (rev ds))).
Proof.
  intros Hnone.
  destruct (record_all_samples ds s t []) as (s' & E & Hs').
  { unfold samples, llive. cbn [lists lclock]. now rewrite Hnone. }
  rewrite E. unfold getAverageResponseTime, lcatch, lbind.
  rewrite lcall_available by reflexivity. cbn [lists lclock].
  unfold samples in Hs'. cbn [lists lclock] in Hs'. unfold lrange_all.
  destruct (llive t s' (performance_key endpoint method)) as [[[l0|] exp]|];
    try discriminate; injection Hs' as Hl; cbn [fst snd].
  - subst l0. destruct ds as [|d ds']; [reflexivity |].
    rewrite app_nil_r, List.firstn_map.
    destruct (take 100 (rev (d :: ds'))) as [|z zs] eqn:Et.
    + exfalso. apply (f_equal (@length Z)) in Et. rewrite length_take in Et.
      cbn [rev] in Et. rewrite length_app in Et. cbn [length] in Et. lia.
    + cbn [map]. change (toString z :: map toString zs) with (map toString (z :: zs)).
      rewrite wholes_toString. unfold lret, mean. cbn [fst].
      now rewrite length_map.
  - destruct ds as [|d ds']; [reflexivity |]. exfalso.
    rewrite app_nil_r in Hl. apply (f_equal (@length string)) in Hl.
    rewrite length_take, length_map in Hl. cbn [rev] in Hl.
    rewrite length_app in Hl. cbn [length] in Hl. lia.
Qed.

(** X27. Without measurements the average is 0.  [getAverageResponseTime]
    writes nothing; it returns 0 when the store cannot be reached and when
    the key holds no live list (nothing, an expired list, a value of another
    kind), and so when no measurement has been recorded for 24 hours. *)
Theorem metrics_average_zero_without_samples (w : lworld) :
  lists (getAverageResponseTime endpoint method w).2 = lists w
  /\ (head (lfaults w) = Some true
      \/ samples w (performance_key endpoint method) = Some []
      \/ samples w (performance_key endpoint method) = None ->
      (getAverageResponseTime endpoint method w).1 = Ok zero)
  /\ (forall d l delay,
        lfaults w = [] -> samples w (performance_key endpoint method) = Some l ->
        86400000 <= delay ->
        let w1 := (recordResponseTime endpoint method d w).2 in
        (getAverageResponseTime endpoint method
           (LWorld (lists w1) (lclock w1 + delay) [])).1 = Ok zero).
Proof.
  split; [| split].
  - unfold getAverageResponseTime, lcatch, lbind, lcall, lrange_all.
    destruct w as [s t [|[] fs]]; cbn [lists lclock lfaults tail]; try reflexivity;
      destruct (llive t s _) as [[[[|x l0]|] exp]|]; cbn [fst snd lists]; try reflexivity;
      destruct (wholes _); reflexivity.
  - intros H. unfold getAverageResponseTime, lcatch, lbind, lcall, lrange_all.
    unfold samples in H.
    destruct w as [s t [|[] fs]]; cbn [lists lclock lfaults tail head] in *;
      try reflexivity;
      destruct (llive t s _) as [[[[|x l0]|] exp]|]; cbn [fst snd]; try reflexivity;
      destruct H as [H|[H|H]]; discriminate H.
  - intros d l delay Hf Hs Hdelay w1. subst w1.
    rewrite (recordResponseTime_available d w l Hf Hs). cbn [snd lists lclock].
    unfold getAverageResponseTime, lcatch, lbind.
    rewrite lcall_available by reflexivity. cbn [lists lclock].
    unfold lrange_all, llive. rewrite lookup_insert_eq. cbn [l_exp].
    destruct (Z.leb_spec (lclock w + 86400 * 1000) (lclock w + delay)); [| lia].
    reflexivity.
Qed.

End MetricsFacts.

Lemma metrics_record_witness :
  let w := Metrics.LWorld ∅ 1000 [] in
  Metrics.lists (Metrics.recordResponseTime "/contracts" "GET" 42 w).2
    !! Metrics.performance_key "/contracts" "GET"
  = Some (Metrics.LEntry (Metrics.LList (take 100 [toString 42])) (Some (1000 + 86400000))).
Proof.
  intros w.
  exact (proj1 (metrics_record_keeps_newest_hundred "/contracts" "GET" 42 w []
                  eq_refl eq_refl)).
Defined.

Lemma metrics_average_witness :
  (Metrics.getAverageResponseTime "/contracts" "GET"
     (Metrics.record_all "/contracts" "GET" [40; 50; 90] (Metrics.LWorld ∅ 1000 []))).1
  = Ok (Metrics.Quot 180 3).
Proof.
  exact (metrics_average_of_newest_hundred "/contracts" "GET" [40; 50; 90] ∅ 1000
           eq_refl).
Defined.


(** ** Health *)

Section HealthFacts.
Import Health.

Lemma strip_label_app (label s r : string) :
  strip_label label s = Some r -> s = label +:+ r.
Proof.
  revert s. induction label as [|c l IH]; intros s H.
  - now injection H.
  - destruct s as [|c' s']; [discriminate |]. cbn [strip_label] in H.
    destruct (Ascii.eqb_spec c c') as [->|]; [| discriminate].
    change (String c' l +:+ r) with (String c' (l +:+ r)). f_equal. now apply IH.
Qed.

Lemma strip_label_refl (label r : string) : strip_label label (label +:+ r) = Some r.
Proof.
  induction label as [|c l IH]; [reflexivity |].
  change (String c l +:+ r) with (String c (l +:+ r)). cbn [strip_label].
  now rewrite Ascii.eqb_refl.
Qed.

Lemma span_digits_split (s : string) :
  s = (JsText.span_digits s).1 +:+ (JsText.span_digits s).2
  /\ all_digits (JsText.span_digits s).1 = true
  /\ match (JsText.span_digits s).2 with
     | String c _ => is_digit c = false
     | EmptyString => True
     end.
Proof.
  induction s as [|c s IH]; [cbn; auto |].
  cbn [JsText.span_digits]. destruct (is_digit c) eqn:Ec.
  - destruct (JsText.span_digits s) as [d r]. cbn [fst snd] in *.
    destruct IH as (IH1 & IH2 & IH3).
    change (String c d +:+ r) with (String c (d +:+ r)).
    split; [now f_equal |]. split; [| exact IH3].
    cbn [all_digits]. now rewrite Ec.
  - cbn [fst snd]. split; [reflexivity |]. split; [reflexivity | exact Ec].
Qed.

Lemma capture_follows (label s d : string) :
  capture label s = Some d -> follows label d s.
Proof.
  induction s as [|c s IH].
  - cbn [capture]. unfold match_here.
    destruct (strip_label label "") as [rest|] eqn:E; [| discriminate].
    destruct (String.eqb_spec (JsText.span_digits rest).1 "") as [He|Hne]; [discriminate |].
    intros [= <-]. apply strip_label_app in E.
    destruct (span_digits_split rest) as (H1 & H2 & H3).
    exists "", (JsText.span_digits rest).2.
    change ("" +:+ label +:+ (JsText.span_digits rest).1 +:+ (JsText.span_digits rest).2)
      with (label +:+ (JsText.span_digits rest).1 +:+ (JsText.span_digits rest).2).
    rewrite <- H1. auto.
  - cbn [capture]. unfold match_here.
    destruct (strip_label label (String c s)) as [rest|] eqn:E.
    + destruct (String.eqb_spec (JsText.span_digits rest).1 "") as [He|Hne].
      * intros H. destruct (IH H) as (pre & r & -> & Hd).
        exists (String c pre), r. split; [reflexivity | exact Hd].
      * intros [= <-]. apply strip_label_app in E.
        destruct (span_digits_split rest) as (H1 & H2 & H3).
        exists "", (JsText.span_digits rest).2.
        change ("" +:+ label +:+ (JsText.span_digits rest).1 +:+ (JsText.span_digits rest).2)
          with (label +:+ (JsText.span_digits rest).1 +:+ (JsText.span_digits rest).2).
        rewrite <- H1. auto.
    + intros H. destruct (IH H) as (pre & r & -> & Hd).
      exists (String c pre), r. split; [reflexivity | exact Hd].
Qed.

Lemma span_digits_head (d rest : string) :
  d <> "" -> all_digits d = true -> (JsText.span_digits (d +:+ rest)).1 <> "".
Proof.
  destruct d as [|c d]; [contradiction |]. intros _ H.
  cbn [all_digits] in H. apply andb_prop in H as [Hc _].
  change (String c d +:+ rest) with (String c (d +:+ rest)).
  cbn [JsText.span_digits]. rewrite Hc.
  destruct (JsText.span_digits (d +:+ rest)). discriminate.
Qed.

Lemma capture_found (label pre d rest : string) :
  d <> "" -> all_digits d = true ->
  capture label (pre +:+ label +:+ d +:+ rest) <> None.
Proof.
  intros Hd Hall. induction pre as [|c pre IH].
  - change ("" +:+ label +:+ d +:+ rest) with (label +:+ d +:+ rest).
    assert (Hhere : match_here label (label +:+ d +:+ rest) <> None).
    { unfold match_here. rewrite strip_label_refl.
      destruct (String.eqb_spec (JsText.span_digits (d +:+ rest)).1 "") as [He|];
        [| discriminate].
      now apply span_digits_head in He. }
    destruct (label +:+ d +:+ rest); cbn [capture];
      destruct (match_here label _); congruence.
  - change (String c pre +:+ label +:+ d +:+ rest)
      with (String c (pre +:+ label +:+ d +:+ rest)).
    cbn [capture]. destruct (match_here label _); [discriminate | exact IH].
Qed.

End HealthFacts.

(** X28. [getHealthStatus] never raises and writes nothing.  It reports
    'healthy', with ping true and the fields read from the text of INFO,
    when the store answers its two round trips, and 'unhealthy' with the
    connection error when one of the two fails. *)
Theorem health_report (text : string) (w : world) :
  (Health.getHealthStatus text w).1
  = Ok (match faults w with
        | true :: _ | _ :: true :: _ => Health.Unhealthy ConnectionError
        | _ => Health.Healthy true (Health.read_fields text)
        end)
  /\ kv (Health.getHealthStatus text w).2 = kv w.
Proof.
  unfold Health.getHealthStatus, try_catch, bind, call, Health.info_cmd, Health.ping_cmd.
  destruct w as [s t [|[] [|[] fs]]]; cbn; split; reflexivity.
Qed.

(** X29. The fields of a healthy report.  A field that is reported is a run
    of digits, not empty and not followed by a digit, that stands right
    after its label somewhere in the text of INFO; and a field is reported
    whenever the text holds its label followed by a digit. *)
Theorem health_fields_follow_their_labels (text : string) (w : world) (p : bool)
    (i : Health.fields) :
  (Health.getHealthStatus text w).1 = Ok (Health.Healthy p i) ->
  (forall d, Health.connected_clients i = Some d ->
             Health.follows "connected_clients:" d text)
  /\ (forall d, Health.used_memory i = Some d -> Health.follows "used_memory:" d text)
  /\ (forall d, Health.total_connections_received i = Some d ->
                Health.follows "total_connections_received:" d text)
  /\ (forall pre d rest, d <> "" -> all_digits d = true ->
        (text = pre +:+ "connected_clients:" +:+ d +:+ rest ->
         Health.connected_clients i <> None)
        /\ (text = pre +:+ "used_memory:" +:+ d +:+ rest ->
            Health.used_memory i <> None)
        /\ (text = pre +:+ "total_connections_received:" +:+ d +:+ rest ->
            Health.total_connections_received i <> None)).
Proof.
  intros H.
  assert (Hi : i = Health.read_fields text).
  { unfold Health.getHealthStatus, try_catch, bind, call, Health.info_cmd,
      Health.ping_cmd in H.
    destruct w as [s t [|[] [|[] fs]]]; cbn in H; congruence. }
  subst i. cbn [Health.read_fields Health.connected_clients Health.used_memory
                Health.total_connections_received].
  split; [intros d; apply capture_follows |].
  split; [intros d; apply capture_follows |].
  split; [intros d; apply capture_follows |].
  intros pre d rest Hd Hall.
  split; [| split]; intros ->; now apply capture_found.
Qed.

Lemma health_fields_witness :
  let text := "# Clients" +:+ "connected_clients:12;" +:+ "used_memory:1048576;" in
  Health.follows "connected_clients:" "12" text
  /\ Health.follows "used_memory:" "1048576" text.
Proof.
  intros text.
  destruct (health_fields_follow_their_labels text (World ∅ 1000 []) true
              (Health.read_fields text)) as (H1 & H2 & _).
  - vm_compute. reflexivity.
  - split; [apply H1 | apply H2]; vm_compute; reflexivity.
Defined.
